(** * mono-cbp: phase folding, eclipse masks and the pipeline driver

    A shallow embedding of [mono_cbp/utils/eclipses.py], of the
    orchestration methods and the event selection of [plot_events] in
    [mono_cbp/pipeline/pipeline.py], and of the [run] and [find-transits]
    commands of [mono_cbp/cli.py].

    Numbers are IEEE-754 binary64 values (Python [float] / [numpy.float64]),
    modelled by Rocq's primitive floats, so [nan], signed zeros and rounding
    behave as they do in the interpreter.  The pipeline is a state-and-error
    monad over the orchestrator object; the stage collaborators, which live
    outside the modelled files, are parameters. *)

From Stdlib Require Import ZArith Floats Bool Ascii Lia Sorted.
From stdpp Require Import gmap strings list pretty.

Set Warnings "-inexact-float".
#[local] Open Scope Z_scope.

(** ** Outcomes of fallible code *)

(** The exceptions that the modelled code can let escape: its own
    [ValueError], numpy's [IndexError] for an out-of-range index, and
    whatever an external collaborator raises (opaque, named by a tag). *)
Inductive exn : Type :=
  | ValueError (msg : string)
  | IndexError (index size : nat)
  | External (tag : string).

Inductive outcome (A : Type) : Type :=
  | Returns (a : A)
  | Raises (e : exn).
Arguments Returns {A} a.
Arguments Raises {A} e.

Definition returned {A} (o : outcome A) : Prop :=
  match o with Returns _ => True | Raises _ => False end.

(** ** Arithmetic as Python writes it *)

Module Py.

Definition isnan (x : float) : bool := PrimFloat.is_nan x.
Definition lt (x y : float) : bool := PrimFloat.ltb x y.
Definition le (x y : float) : bool := PrimFloat.leb x y.
Definition gt (x y : float) : bool := PrimFloat.ltb y x.
Definition ge (x y : float) : bool := PrimFloat.leb y x.
Definition eq (x y : float) : bool := PrimFloat.eqb x y.

Definition signed_zero (s : bool) : float :=
  if s then PrimFloat.neg_zero else PrimFloat.zero.

(** C's [fmod(x, 1.0)]: [x] minus its integer part, exact, with the sign
    of [x]; [nan] for a [nan] or infinite [x].  For a finite
    [x = (-1)^s * m * 2^e] with [e < 0] the fractional part is
    [(m mod 2^(-e)) * 2^e]. *)
Definition fmod1 (x : float) : float :=
  match Prim2SF x with
  | S754_nan | S754_infinity _ => PrimFloat.nan
  | S754_zero s => signed_zero s
  | S754_finite s m e =>
      if (0 <=? e)%Z then signed_zero s
      else
        match (Z.pos m mod 2 ^ (- e))%Z with
        | Z.pos r => SF2Prim (S754_finite s r e)
        | _ => signed_zero s
        end
  end.

(** [x % 1.0] for floats (CPython's [float_rem], numpy's [npy_divmod]):
    [fmod], then a non-zero remainder whose sign differs from the
    divisor's gets the divisor added (a rounded addition), and a zero
    remainder takes the divisor's sign. *)
Definition mod1 (x : float) : float :=
  let m := fmod1 x in
  if eq m 0%float then PrimFloat.zero
  else if lt m 0%float then (m + 1)%float
  else m.

End Py.

(** ** numpy array helpers *)

(** [np.where(cond)[0]]: the positions of the true entries, ascending. *)
Fixpoint np_where_from (i : nat) (cond : list bool) : list nat :=
  match cond with
  | [] => []
  | b :: rest =>
      if b then i :: np_where_from (S i) rest else np_where_from (S i) rest
  end.

Definition np_where (cond : list bool) : list nat := np_where_from 0 cond.

Definition np_logical_or (a b : list bool) : list bool := zip_with orb a b.
Definition np_logical_and (a b : list bool) : list bool := zip_with andb a b.

(** [phases >= c] and [phases <= c], element by element. *)
Definition np_ge (phases : list float) (c : float) : list bool :=
  map (fun p => Py.ge p c) phases.
Definition np_le (phases : list float) (c : float) : list bool :=
  map (fun p => Py.le p c) phases.

(** [np.zeros_like(phases, dtype=bool)]. *)
Definition np_zeros_like (phases : list float) : list bool :=
  replicate (length phases) false.

(** [mask[idx] = True] with an integer index array: every index must be in
    range, otherwise numpy raises [IndexError]. *)
Fixpoint np_set_true (mask : list bool) (idx : list nat) : outcome (list bool) :=
  match idx with
  | [] => Returns mask
  | i :: rest =>
      if (i <? length mask)%nat then np_set_true (<[i := true]> mask) rest
      else Raises (IndexError i (length mask))
  end.

(** ** utils/eclipses.py *)

#[local] Open Scope float_scope.

(** [time_to_phase(times, period, t0, centre=0.5)]. *)
Definition time_to_phase (times : list float) (period t0 centre : float)
  : list float :=
  let start_phase := centre - 0.5 in
  let t0 := t0 + start_phase * period in
  map (fun t => Py.mod1 ((t - t0) / period) + start_phase) times.

(** [get_eclipse_indices(phases, pos, width)]. *)
Definition get_eclipse_indices (phases : list float) (pos width : float)
  : list nat :=
  if Py.isnan pos || Py.isnan width || Py.eq width 0 then []
  else if Py.gt pos 0.95 then
    np_where (np_logical_or (np_ge phases (pos - width / 2))
                            (np_le phases (pos + width / 2 - 1)))
  else if Py.lt pos 0.05 then
    np_where (np_logical_or (np_ge phases (pos - width / 2 + 1))
                            (np_le phases (pos + width / 2)))
  else
    np_where (np_logical_and (np_ge phases (pos - width / 2))
                             (np_le phases (pos + width / 2))).

(** [get_eclipse_mask(phases, pos, width)]. *)
Definition get_eclipse_mask (phases : list float) (pos width : float)
  : outcome (list bool) :=
  let idx := get_eclipse_indices phases pos width in
  let mask := np_zeros_like phases in
  np_set_true mask idx.

(** The condition [get_eclipse_indices] evaluates on one sample: the guard,
    then the branch chosen by [pos]. *)
Definition in_eclipse (pos width p : float) : bool :=
  if Py.isnan pos || Py.isnan width || Py.eq width 0 then false
  else if Py.gt pos 0.95 then
    Py.ge p (pos - width / 2) || Py.le p (pos + width / 2 - 1)
  else if Py.lt pos 0.05 then
    Py.ge p (pos - width / 2 + 1) || Py.le p (pos + width / 2)
  else
    Py.ge p (pos - width / 2) && Py.le p (pos + width / 2).

#[local] Close Scope float_scope.

(** ** Reading binary64 values

    Predicates on the specification of a float ([Prim2SF]) used to bound
    what rounding can return. *)

(** A finite value of magnitude at most [2^K]. *)
Definition mag_le (K : Z) (f : spec_float) : Prop :=
  match f with
  | S754_zero _ => True
  | S754_finite _ m e => e <= K /\ Z.pos m <= 2 ^ (K - e)
  | _ => False
  end.

Definition sign_is (s : bool) (f : spec_float) : Prop :=
  match f with
  | S754_zero s' | S754_finite s' _ _ => s' = s
  | _ => False
  end.

(** What is known of a record after shifting [m] right by [k] bits: the
    mantissa kept, and that a set round or sticky bit means bits were lost. *)
Definition shr_inv (m k : Z) (mrs : shr_record) : Prop :=
  0 <= shr_m mrs
  /\ shr_m mrs * 2 ^ k <= m
  /\ (shr_r mrs || shr_s mrs = true -> shr_m mrs * 2 ^ k < m).

(** The specification of [1.0]. *)
Definition SF_one : spec_float := S754_finite false 4503599627370496 (-52).

(** A float that is [nan] or lies in the closed interval [[0, 1]]. *)
Definition in_unit (f : float) : Prop :=
  Py.isnan f = true \/ (Py.le 0 f = true /\ Py.le f 1 = true).

(** A value that is [nan] or infinite: what [math.isfinite] rejects. *)
Definition nonfinite (f : spec_float) : Prop :=
  match f with
  | S754_nan | S754_infinity _ => True
  | _ => False
  end.

(** The value [m * 2^e] counted in units of [2^-1074], the smallest positive
    binary64 number. *)
Definition ulps (m e : Z) : Z := m * 2 ^ (e + 1074).

(** A record obtained by shifting [m] right by [k] bits holds the quotient
    of [m] by [2^k]. *)
Definition shr_floor (m k : Z) (mrs : shr_record) : Prop :=
  0 <= shr_m mrs /\ shr_m mrs * 2 ^ k <= m < (shr_m mrs + 1) * 2 ^ k.

(** A record obtained by shifting [m] right by [k] bits holds the quotient
    and tells where the part shifted out lies in [[0, 2^k)]: [shr_r] when it
    reaches the half, [shr_s] when it is neither zero nor the half. *)
Definition shr_exact (m k : Z) (mrs : shr_record) : Prop :=
  let rem := m - shr_m mrs * 2 ^ k in
  0 <= shr_m mrs /\ 0 <= rem < 2 ^ k
  /\ shr_r mrs = (2 ^ k <=? 2 * rem)
  /\ shr_s mrs = negb (rem =? 0) && negb (2 * rem =? 2 ^ k).

(** The second half of [binary_round_aux]: the rounded mantissa [m] at
    exponent [e] is brought to the exponent of its binade and checked for
    overflow. *)
Definition round_finish (sx : bool) (m e : Z) : spec_float :=
  let '(mrs, e') := shr_fexp prec emax m e loc_Exact in
  match shr_m mrs with
  | Z0 => S754_zero sx
  | Zpos p => if e' <=? emax - prec then S754_finite sx p e' else S754_infinity sx
  | _ => S754_nan
  end.

(** A value that is a zero, a finite number or an infinity of sign [s]. *)
Definition has_sign (s : bool) (f : spec_float) : Prop :=
  match f with
  | S754_zero s' | S754_infinity s' | S754_finite s' _ _ => s' = s
  | S754_nan => False
  end.

(** A zero (of either sign), a positive finite number or [+inf]. *)
Definition nonneg (f : spec_float) : Prop :=
  match f with
  | S754_zero _ => True
  | S754_infinity s | S754_finite s _ _ => s = false
  | S754_nan => False
  end.

(** ** pipeline/pipeline.py *)

(** [os.path.join(a, b)] on POSIX paths. *)
Fixpoint ends_with_slash (s : string) : bool :=
  match s with
  | EmptyString => false
  | String c EmptyString => bool_decide (c = "/"%char)
  | String _ rest => ends_with_slash rest
  end.

Definition starts_with_slash (s : string) : bool :=
  match s with
  | String c _ => bool_decide (c = "/"%char)
  | EmptyString => false
  end.

Definition os_path_join (a b : string) : string :=
  if starts_with_slash b then b
  else if bool_decide (a = EmptyString) || ends_with_slash a then a +:+ b
  else a +:+ "/" +:+ b.

(** Python truthiness of an optional string ([if transit_models_path:],
    [output_dir or self.data_dir]). *)
Definition truthy (s : option string) : option string :=
  match s with
  | Some EmptyString | None => None
  | Some p => Some p
  end.

Inductive level : Type := INFO | WARNING.

(** The warning [run] logs when injection-retrieval is requested without an
    injector. *)
Definition skip_warning : string :=
  "Injection-retrieval requested but transit models not provided - skipping".

(** The stages of the pipeline and the registry key of each stage that has
    one. *)
Inductive stage : Type := Masking | TransitSearch | Vetting | InjectionRetrieval.

Definition stage_key (st : stage) : option string :=
  match st with
  | Masking => None
  | TransitSearch => Some "transit_finding"
  | Vetting => Some "vetting"
  | InjectionRetrieval => Some "injection_retrieval"
  end.

(** Keyword arguments of [find_transits]; [None] is a key that is not
    passed, so that the parameter takes its default. *)
Record find_transits_kwargs : Type := {
  ft_output_file : option string;
  ft_output_dir : option (option string);
  ft_plot_output_dir : option (option string)
}.

Record injection_retrieval_kwargs : Type := {
  ir_n_injections : option (option Z);
  ir_output_file : option string;
  ir_output_dir : option (option string)
}.

Definition no_find_transits_kwargs : find_transits_kwargs :=
  {| ft_output_file := None; ft_output_dir := None; ft_plot_output_dir := None |}.

Definition no_injection_retrieval_kwargs : injection_retrieval_kwargs :=
  {| ir_n_injections := None; ir_output_file := None; ir_output_dir := None |}.

Section Pipeline.

(** The light-curve store, the artifacts on disk and the collaborators' own
    state; a result table (a DataFrame); an event snippet; the keyword
    arguments of [EclipseMasker.mask_all]. *)
Variable World : Type.
Variable Table : Type.
Variable Snippet : Type.
Variable MaskKw : Type.

(** First argument of [ModelComparator.compare_events]: a list of snippets or
    a directory of snippet files. *)
Inductive vet_source : Type :=
  | InMemory (snippets : list Snippet)
  | FromDirectory (dir : string).

(** The collaborators imported by the module.  Each entry operation takes
    its arguments and the world and returns or raises, leaving a new world. *)
Record collaborators : Type := {
  (* EclipseMasker(catalogue, data_dir).mask_all( **kwargs ) *)
  mask_all : string -> MaskKw -> World -> outcome unit * World;
  no_mask_kwargs : MaskKw;
  (* TransitFinder.process_directory(data_dir, output_file, output_dir, plot_output_dir) *)
  process_directory :
    string -> string -> string -> option string -> World -> outcome Table * World;
  (* TransitFinder.results.get('event_snippets') *)
  finder_event_snippets : World -> option (list Snippet);
  (* ModelComparator.compare_events(source, output_file, output_dir) *)
  compare_events : vet_source -> string -> string -> World -> outcome Table * World;
  (* TransitInjector(transit_models_path).run_injection_retrieval(data_dir, n, output_file, output_dir) *)
  injector_run :
    string -> string -> Z -> string -> string -> World -> outcome Table * World;
  (* len(table) *)
  table_len : Table -> nat
}.

Variable col : collaborators.

(** Keyword arguments of [vet_candidates].  For [event_snippets] the three
    cases differ: key absent ([None]), key present with value [None]
    ([Some None]), key present with a list. *)
Record vet_candidates_kwargs : Type := {
  vc_event_snippets : option (option (list Snippet));
  vc_event_snippets_dir : option (option string);
  vc_output_file : option string;
  vc_output_dir : option (option string)
}.

Definition no_vet_candidates_kwargs : vet_candidates_kwargs :=
  {| vc_event_snippets := None; vc_event_snippets_dir := None;
     vc_output_file := None; vc_output_dir := None |}.

(** The [**kwargs] of [run]: each per-stage dictionary may be missing. *)
Record run_kwargs : Type := {
  mask_eclipses_kwargs : option MaskKw;
  find_transits_kw : option find_transits_kwargs;
  vet_candidates_kw : option vet_candidates_kwargs;
  injection_retrieval_kw : option injection_retrieval_kwargs
}.

Definition no_run_kwargs : run_kwargs :=
  {| mask_eclipses_kwargs := None; find_transits_kw := None;
     vet_candidates_kw := None; injection_retrieval_kw := None |}.

(** The fields of a [MonoCBPPipeline] instance that the methods use. *)
Record pipeline : Type := {
  data_dir : string;
  output_dir : string;
  config_n_injections : Z;   (* config['injection_retrieval']['n_injections'] *)
  transit_injector : option string;  (* [None], or the injector built from that models path *)
  results : gmap string Table;
  world : World
}.

Definition set_results (f : gmap string Table -> gmap string Table) (self : pipeline)
  : pipeline :=
  {| data_dir := data_dir self; output_dir := output_dir self;
     config_n_injections := config_n_injections self;
     transit_injector := transit_injector self;
     results := f (results self); world := world self |}.

Definition set_world (w : World) (self : pipeline) : pipeline :=
  {| data_dir := data_dir self; output_dir := output_dir self;
     config_n_injections := config_n_injections self;
     transit_injector := transit_injector self;
     results := results self; world := w |}.

(** What a call leaves behind besides the object: log records, collaborator
    invocations (and the exception when one raises), registry writes. *)
Inductive call : Type :=
  | MaskAll (kw : MaskKw)
  | ProcessDirectory (data output_file output : string) (plot : option string)
  | CompareEvents (src : vet_source) (output_file output : string)
  | InjectorRun (data : string) (n : Z) (output_file output : string).

Inductive event : Type :=
  | Log (lvl : level) (msg : string)
  | Call (c : call)
  | CallRaised (e : exn)
  | Store (key : string).

Definition stage_of_call (c : call) : stage :=
  match c with
  | MaskAll _ => Masking
  | ProcessDirectory _ _ _ _ => TransitSearch
  | CompareEvents _ _ _ => Vetting
  | InjectorRun _ _ _ _ => InjectionRetrieval
  end.

(** The stages executed, in order, in a list of events. *)
Definition stages (evs : list event) : list stage :=
  omap (fun e => match e with Call c => Some (stage_of_call c) | _ => None end) evs.

(** A method body: it runs on the object, returns or raises, and leaves the
    object (mutations made before an exception stay) and its events. *)
Definition M (A : Type) : Type := pipeline -> outcome A * pipeline * list event.

Definition ret {A} (a : A) : M A := fun self => (Returns a, self, []).

Definition bind {A B} (m : M A) (k : A -> M B) : M B :=
  fun self =>
    match m self with
    | (Returns a, self1, evs1) =>
        let '(r, self2, evs2) := k a self1 in (r, self2, evs1 ++ evs2)
    | (Raises e, self1, evs1) => (Raises e, self1, evs1)
    end.

Notation "x <- m ;; k" := (bind m (fun x => k))
  (at level 100, m at level 99, right associativity).
Notation "m ;;; k" := (bind m (fun _ => k))
  (at level 100, right associativity).

Definition raise {A} (e : exn) : M A := fun self => (Raises e, self, []).
Definition get_self : M pipeline := fun self => (Returns self, self, []).
Definition logger (lvl : level) (msg : string) : M unit :=
  fun self => (Returns tt, self, [Log lvl msg]).

(** [self.results[key] = table]. *)
Definition store (key : string) (table : Table) : M unit :=
  fun self => (Returns tt, set_results (insert key table) self, [Store key]).

(** A collaborator invocation. *)
Definition invoke {A} (c : call) (f : World -> outcome A * World) : M A :=
  fun self =>
    let '(r, w) := f (world self) in
    (r, set_world w self,
     Call c :: match r with Raises e => [CallRaised e] | Returns _ => [] end).

(** [__init__]: [w] is the world in which the constructor has created the
    output directory, loaded the catalogue and built the collaborators;
    [n_injections] is the merged configuration's value. *)
Definition init (data output : string) (transit_models_path : option string)
    (n_injections : Z) (w : World) : pipeline :=
  {| data_dir := data; output_dir := output;
     config_n_injections := n_injections;
     transit_injector := truthy transit_models_path;
     results := ∅; world := w |}.

(** [mask_eclipses( **kwargs )]. *)
Definition mask_eclipses (kw : MaskKw) : M unit :=
  self <- get_self ;;
  invoke (MaskAll kw) (mask_all col (data_dir self) kw) ;;;
  logger INFO "Eclipse masking complete".

(** [find_transits(output_file='transit_events.txt', output_dir=None,
    plot_output_dir=None)]. *)
Definition find_transits (output_file : string) (output : option string)
    (plot_output_dir : option string) : M Table :=
  self <- get_self ;;
  let output := default (output_dir self) output in
  table <- invoke (ProcessDirectory (data_dir self) output_file output plot_output_dir)
             (process_directory col (data_dir self) output_file output plot_output_dir) ;;
  logger INFO ("Transit finding complete: " +:+ pretty (table_len col table)
               +:+ " events detected") ;;;
  ret table.

(** [vet_candidates(event_snippets=None, event_snippets_dir=None,
    output_file='vetting_results.csv', output_dir=None)]. *)
Definition vet_candidates (event_snippets : option (list Snippet))
    (event_snippets_dir : option string) (output_file : string)
    (output : option string) : M Table :=
  self <- get_self ;;
  let output := default (output_dir self) output in
  table <-
    match event_snippets with
    | Some snippets =>
        logger INFO ("Vetting " +:+ pretty (length snippets) +:+ " candidates") ;;;
        invoke (CompareEvents (InMemory snippets) output_file output)
          (compare_events col (InMemory snippets) output_file output)
    | None =>
        let dir :=
          match event_snippets_dir with
          | None => os_path_join (output_dir self) "event_snippets"
          | Some d => d
          end in
        logger INFO ("Vetting candidates from " +:+ dir) ;;;
        invoke (CompareEvents (FromDirectory dir) output_file output)
          (compare_events col (FromDirectory dir) output_file output)
    end ;;
  logger INFO ("Model comparison complete: " +:+ pretty (table_len col table)
               +:+ " events vetted") ;;;
  ret table.

(** [run_injection_retrieval(n_injections=None,
    output_file='injection_results.csv', output_dir=None)]. *)
Definition run_injection_retrieval (n_injections : option Z) (output_file : string)
    (output : option string) : M Table :=
  self <- get_self ;;
  match transit_injector self with
  | None =>
      raise (ValueError "Transit injector not initialized - provide transit_models_path")
  | Some models =>
      let n := default (config_n_injections self) n_injections in
      let output := default (data_dir self) (truthy output) in
      table <- invoke (InjectorRun (data_dir self) n output_file output)
                 (injector_run col models (data_dir self) n output_file output) ;;
      logger INFO "Injection-retrieval complete" ;;;
      ret table
  end.

(** Calling a method with a keyword dictionary: missing keys take the
    parameter defaults. *)
Definition find_transits_with (kw : find_transits_kwargs) : M Table :=
  find_transits (default "transit_events.txt" (ft_output_file kw))
                (default None (ft_output_dir kw))
                (default None (ft_plot_output_dir kw)).

Definition vet_candidates_with (kw : vet_candidates_kwargs) : M Table :=
  vet_candidates (default None (vc_event_snippets kw))
                 (default None (vc_event_snippets_dir kw))
                 (default "vetting_results.csv" (vc_output_file kw))
                 (default None (vc_output_dir kw)).

Definition run_injection_retrieval_with (kw : injection_retrieval_kwargs) : M Table :=
  run_injection_retrieval (default None (ir_n_injections kw))
                          (default "injection_results.csv" (ir_output_file kw))
                          (default None (ir_output_dir kw)).

(** [vet_kwargs['event_snippets'] = event_snippets]. *)
Definition set_event_snippets (snippets : list Snippet) (kw : vet_candidates_kwargs)
  : vet_candidates_kwargs :=
  {| vc_event_snippets := Some (Some snippets);
     vc_event_snippets_dir := vc_event_snippets_dir kw;
     vc_output_file := vc_output_file kw;
     vc_output_dir := vc_output_dir kw |}.

(** The keyword dictionary [run] hands to [vet_candidates] (lines 135-146),
    with the log record written while preparing it. *)
Definition prepare_vet_kwargs (event_snippets : list Snippet)
    (vet_kwargs : vet_candidates_kwargs) : M vet_candidates_kwargs :=
  if bool_decide (0 < length event_snippets)%nat
     && bool_decide (vc_event_snippets vet_kwargs = None) then
    logger INFO ("Passing " +:+ pretty (length event_snippets) +:+ " event snippets") ;;;
    ret (set_event_snippets event_snippets vet_kwargs)
  else if bool_decide (length event_snippets = 0%nat) then
    logger INFO "No event snippets in memory, using file-based processing" ;;;
    ret vet_kwargs
  else ret vet_kwargs.

(** Step 2 of [run]. *)
Definition run_transit_finding (do_find_transits : bool) (kwargs : run_kwargs)
  : M unit :=
  if do_find_transits then
    logger INFO "Step 2: Transit finding" ;;;
    transit_results <-
      find_transits_with (default no_find_transits_kwargs (find_transits_kw kwargs)) ;;
    store "transit_finding" transit_results
  else ret tt.

(** Step 3 of [run]. *)
Definition run_vetting (do_find_transits do_vet_candidates : bool)
    (kwargs : run_kwargs) : M unit :=
  if do_vet_candidates && do_find_transits then
    logger INFO "Step 3: Model comparison vetting" ;;;
    self <- get_self ;;
    let event_snippets := default [] (finder_event_snippets col (world self)) in
    let vet_kwargs := default no_vet_candidates_kwargs (vet_candidates_kw kwargs) in
    vet_kwargs <- prepare_vet_kwargs event_snippets vet_kwargs ;;
    vetting_results <- vet_candidates_with vet_kwargs ;;
    store "vetting" vetting_results
  else ret tt.

(** Step 4 of [run]. *)
Definition run_injection (do_injection_retrieval : bool) (kwargs : run_kwargs)
  : M unit :=
  if do_injection_retrieval then
    self <- get_self ;;
    match transit_injector self with
    | None => logger WARNING skip_warning
    | Some _ =>
        logger INFO "Step 4: Injection-retrieval testing" ;;;
        inj_ret_results <-
          run_injection_retrieval_with
            (default no_injection_retrieval_kwargs (injection_retrieval_kw kwargs)) ;;
        store "injection_retrieval" inj_ret_results
    end
  else ret tt.

(** [run(find_transits=True, vet_candidates=True, injection_retrieval=False,
    **kwargs)].  The flags are named [do_...] here because the methods of
    the same names are called in the body. *)
Definition run (do_find_transits do_vet_candidates do_injection_retrieval : bool)
    (kwargs : run_kwargs) : M (gmap string Table) :=
  logger INFO "Starting mono-cbp pipeline" ;;;
  logger INFO "Step 1: Eclipse masking" ;;;
  mask_eclipses (default (no_mask_kwargs col) (mask_eclipses_kwargs kwargs)) ;;;
  run_transit_finding do_find_transits kwargs ;;;
  run_vetting do_find_transits do_vet_candidates kwargs ;;;
  run_injection do_injection_retrieval kwargs ;;;
  logger INFO "Pipeline complete" ;;;
  self <- get_self ;;
  ret (results self).

(** The public operations on an instance. *)
Inductive operation : Type :=
  | OpRun (do_find_transits do_vet_candidates do_injection_retrieval : bool)
          (kwargs : run_kwargs)
  | OpMaskEclipses (kw : MaskKw)
  | OpFindTransits (output_file : string) (output plot_output_dir : option string)
  | OpVetCandidates (event_snippets : option (list Snippet))
                    (event_snippets_dir : option string) (output_file : string)
                    (output : option string)
  | OpRunInjectionRetrieval (n_injections : option Z) (output_file : string)
                            (output : option string).

(** Running an operation: the object afterwards and the events of the call
    (the value returned or the exception raised is dropped). *)
Definition exec (op : operation) (self : pipeline) : pipeline * list event :=
  match op with
  | OpRun f v i kw => let '(_, s, evs) := run f v i kw self in (s, evs)
  | OpMaskEclipses kw => let '(_, s, evs) := mask_eclipses kw self in (s, evs)
  | OpFindTransits o d p => let '(_, s, evs) := find_transits o d p self in (s, evs)
  | OpVetCandidates e d o od =>
      let '(_, s, evs) := vet_candidates e d o od self in (s, evs)
  | OpRunInjectionRetrieval n o d =>
      let '(_, s, evs) := run_injection_retrieval n o d self in (s, evs)
  end.

(** The states of an instance: as constructed, then after any sequence of
    operations. *)
Inductive reachable : pipeline -> Prop :=
  | reachable_init data output models n w :
      reachable (init data output models n w)
  | reachable_exec op self :
      reachable self -> reachable (fst (exec op self)).

(** The source a vetting step reads, when it makes its call. *)
Definition vet_sources (evs : list event) : list vet_source :=
  omap (fun e => match e with
                 | Call (CompareEvents src _ _) => Some src
                 | _ => None
                 end) evs.

(** The registry keys written, and the collaborator exceptions seen. *)
Definition stores (evs : list event) : list string :=
  omap (fun e => match e with Store key => Some key | _ => None end) evs.

Definition raised (evs : list event) : list exn :=
  omap (fun e => match e with CallRaised e => Some e | _ => None end) evs.

(** What stays fixed after construction. *)
Definition same_setup (self self' : pipeline) : Prop :=
  data_dir self' = data_dir self /\ output_dir self' = output_dir self
  /\ config_n_injections self' = config_n_injections self
  /\ transit_injector self' = transit_injector self.

(** What a call does to the registry, read off its events: keys that were
    not written keep their entry, keys that were written have one. *)
Definition effects (self self' : pipeline) (evs : list event) : Prop :=
  same_setup self self'
  /\ (forall k, k ∉ stores evs -> results self' !! k = results self !! k)
  /\ (forall k, k ∈ stores evs -> is_Some (results self' !! k)).

Definition has_effects {A} (m : M A) : Prop :=
  forall self r self' evs, m self = (r, self', evs) -> effects self self' evs.


(** The source [vet_candidates] reads: the list when one is given, else the
    directory, which defaults to [<output_dir>/event_snippets]. *)
Definition vet_source_of (self : pipeline) (event_snippets : option (list Snippet))
    (event_snippets_dir : option string) : vet_source :=
  match event_snippets with
  | Some snippets => InMemory snippets
  | None =>
      FromDirectory
        (default (os_path_join (output_dir self) "event_snippets") event_snippets_dir)
  end.

(** The keyword dictionary step 3 of [run] passes on, and the source the
    vetting stage then reads, for the object [self] as the search stage left
    it. *)
Definition passed_vet_kwargs (self : pipeline) (kwargs : run_kwargs)
  : vet_candidates_kwargs :=
  let event_snippets := default [] (finder_event_snippets col (world self)) in
  let vet_kwargs := default no_vet_candidates_kwargs (vet_candidates_kw kwargs) in
  if bool_decide (0 < length event_snippets)%nat
     && bool_decide (vc_event_snippets vet_kwargs = None)
  then set_event_snippets event_snippets vet_kwargs
  else vet_kwargs.

Definition vetting_source (self : pipeline) (kwargs : run_kwargs) : vet_source :=
  let vet_kwargs := passed_vet_kwargs self kwargs in
  vet_source_of self (default None (vc_event_snippets vet_kwargs))
                     (default None (vc_event_snippets_dir vet_kwargs)).

(** Whether step 4 of [run] reaches the injector. *)
Definition injection_runs (do_injection_retrieval : bool) (self : pipeline) : bool :=
  match transit_injector self with
  | Some _ => do_injection_retrieval
  | None => false
  end.

End Pipeline.

Arguments InMemory {Snippet} snippets.
Arguments FromDirectory {Snippet} dir.
Arguments Build_collaborators {World Table Snippet MaskKw}.
Arguments mask_all {World Table Snippet MaskKw}.
Arguments no_mask_kwargs {World Table Snippet MaskKw}.
Arguments process_directory {World Table Snippet MaskKw}.
Arguments finder_event_snippets {World Table Snippet MaskKw}.
Arguments compare_events {World Table Snippet MaskKw}.
Arguments injector_run {World Table Snippet MaskKw}.
Arguments table_len {World Table Snippet MaskKw}.
Arguments Build_vet_candidates_kwargs {Snippet}.
Arguments vc_event_snippets {Snippet}.
Arguments vc_event_snippets_dir {Snippet}.
Arguments vc_output_file {Snippet}.
Arguments vc_output_dir {Snippet}.
Arguments no_vet_candidates_kwargs {Snippet}.
Arguments Build_run_kwargs {Snippet MaskKw}.
Arguments mask_eclipses_kwargs {Snippet MaskKw}.
Arguments find_transits_kw {Snippet MaskKw}.
Arguments vet_candidates_kw {Snippet MaskKw}.
Arguments injection_retrieval_kw {Snippet MaskKw}.
Arguments no_run_kwargs {Snippet MaskKw}.
Arguments Build_pipeline {World Table}.
Arguments data_dir {World Table}.
Arguments output_dir {World Table}.
Arguments config_n_injections {World Table}.
Arguments transit_injector {World Table}.
Arguments results {World Table}.
Arguments world {World Table}.
Arguments set_results {World Table}.
Arguments set_world {World Table}.
Arguments MaskAll {Snippet MaskKw}.
Arguments ProcessDirectory {Snippet MaskKw}.
Arguments CompareEvents {Snippet MaskKw}.
Arguments InjectorRun {Snippet MaskKw}.
Arguments Log {Snippet MaskKw}.
Arguments Call {Snippet MaskKw}.
Arguments CallRaised {Snippet MaskKw}.
Arguments Store {Snippet MaskKw}.
Arguments stage_of_call {Snippet MaskKw}.
Arguments stages {Snippet MaskKw}.
Arguments vet_sources {Snippet MaskKw}.
Arguments stores {Snippet MaskKw}.
Arguments raised {Snippet MaskKw}.
Arguments same_setup {World Table}.
Arguments injection_runs {World Table}.
Arguments vet_source_of {World Table Snippet}.
Arguments passed_vet_kwargs {World Table Snippet MaskKw}.
Arguments vetting_source {World Table Snippet MaskKw}.
Arguments effects {World Table Snippet MaskKw}.
Arguments has_effects {World Table Snippet MaskKw A}.
Arguments ret {World Table Snippet MaskKw A}.
Arguments bind {World Table Snippet MaskKw A B}.
Arguments raise {World Table Snippet MaskKw A}.
Arguments get_self {World Table Snippet MaskKw}.
Arguments logger {World Table Snippet MaskKw}.
Arguments store {World Table Snippet MaskKw}.
Arguments invoke {World Table Snippet MaskKw A}.
Arguments init {World Table}.
Arguments mask_eclipses {World Table Snippet MaskKw}.
Arguments find_transits {World Table Snippet MaskKw}.
Arguments vet_candidates {World Table Snippet MaskKw}.
Arguments run_injection_retrieval {World Table Snippet MaskKw}.
Arguments find_transits_with {World Table Snippet MaskKw}.
Arguments vet_candidates_with {World Table Snippet MaskKw}.
Arguments run_injection_retrieval_with {World Table Snippet MaskKw}.
Arguments set_event_snippets {Snippet}.
Arguments prepare_vet_kwargs {World Table Snippet MaskKw}.
Arguments run_transit_finding {World Table Snippet MaskKw}.
Arguments run_vetting {World Table Snippet MaskKw}.
Arguments run_injection {World Table Snippet MaskKw}.
Arguments run {World Table Snippet MaskKw}.
Arguments OpRun {Snippet MaskKw}.
Arguments OpMaskEclipses {Snippet MaskKw}.
Arguments OpFindTransits {Snippet MaskKw}.
Arguments OpVetCandidates {Snippet MaskKw}.
Arguments OpRunInjectionRetrieval {Snippet MaskKw}.
Arguments exec {World Table Snippet MaskKw}.
Arguments reachable {World Table Snippet MaskKw}.
Arguments reachable_init {World Table Snippet MaskKw}.
Arguments reachable_exec {World Table Snippet MaskKw}.

(** The stages a call of [run] is to execute, in order, given its flags and
    whether the injector exists. *)
Definition planned_stages (do_find_transits do_vet_candidates do_injection : bool)
  : list stage :=
  [Masking]
  ++ (if do_find_transits then [TransitSearch] else [])
  ++ (if do_vet_candidates && do_find_transits then [Vetting] else [])
  ++ (if do_injection then [InjectionRetrieval] else []).

Definition exn_of {A} (r : outcome A) : list exn :=
  match r with Raises e => [e] | Returns _ => [] end.

(** ** A concrete instance

    A small world for evaluating the methods: snippets are numbers, tables
    are lists of numbers.  The world holds the snippets the finder will
    detect on its next search and the finder's in-memory snippet list; the
    comparator returns the snippets it was given (nothing for a directory);
    a search option [fail_search] makes the finder raise. *)
Module Sample.

Record sworld : Type := {
  detectable : list nat;
  in_memory : option (list nat);
  fail_search : bool
}.

Definition sample_collaborators : collaborators sworld (list nat) nat bool := {|
  mask_all := fun _ _ w => (Returns tt, w);
  no_mask_kwargs := false;
  process_directory := fun _ _ _ _ w =>
    if fail_search w then (Raises (External "FileNotFoundError"), w)
    else (Returns (detectable w),
          {| detectable := detectable w; in_memory := Some (detectable w);
             fail_search := false |});
  finder_event_snippets := in_memory;
  compare_events := fun src _ _ w =>
    (Returns match src with InMemory l => l | FromDirectory _ => [] end, w);
  injector_run := fun _ _ n _ _ w => (Returns [Z.to_nat n], w);
  table_len := length
|}.

Definition finds (snippets : list nat) : sworld :=
  {| detectable := snippets; in_memory := None; fail_search := false |}.

(** A pipeline built without transit models, and one built with them. *)
Definition fresh (snippets : list nat) : pipeline sworld (list nat) :=
  init "./data" "./results" None 10 (finds snippets).

Definition fresh_with_models (snippets : list nat) : pipeline sworld (list nat) :=
  init "./data" "./results" (Some "models.npz") 10 (finds snippets).

Definition sample_run := run sample_collaborators.

Definition vet_kwargs_with (snippets : option (list nat))
  : run_kwargs nat bool :=
  {| mask_eclipses_kwargs := None; find_transits_kw := None;
     vet_candidates_kw :=
       Some {| vc_event_snippets := Some snippets; vc_event_snippets_dir := None;
               vc_output_file := None; vc_output_dir := None |};
     injection_retrieval_kw := None |}.

(** The object after a first full run. *)
Definition after_full_run (snippets : list nat) : pipeline sworld (list nat) :=
  fst (exec sample_collaborators (OpRun true true false no_run_kwargs) (fresh snippets)).

End Sample.


(** ** Calls, sequences of operations, keyword routing *)


(** The messages logged, in order. *)
Definition logs {Snippet MaskKw : Type} (evs : list (event Snippet MaskKw))
  : list string :=
  omap (fun e => match e with Log _ msg => Some msg | _ => None end) evs.

(** The object after a sequence of public operations. *)
Definition after {World Table Snippet MaskKw : Type}
    (col : collaborators World Table Snippet MaskKw)
    (ops : list (operation Snippet MaskKw)) (self : pipeline World Table)
  : pipeline World Table :=
  foldl (fun s op => fst (exec col op s)) self ops.


(** ** pipeline/pipeline.py: plot_events

    The part of [plot_events] that decides what is drawn: the checks that
    end the call with an exception, the selection of the events of a TIC,
    the pairing of each with its snippet, the number shown in each panel
    title and the name of the saved file.  The drawing itself (matplotlib's,
    with the sector, depth, duration, SNR and phase it reads for each title)
    is not modelled. *)
Module Plot.

(** What [plot_events] reads of [self.transit_finder.results]. *)
Record finder_results (Snip : Type) : Type := {
  tics : list string;            (* results.get('tics', []): the TIC of each event, as a string *)
  event_snippets : list Snip     (* results.get('event_snippets', []) *)
}.
Arguments tics {Snip} f.
Arguments event_snippets {Snip} f.

Inductive error : Type :=
  | RuntimeError (msg : string)
  | ValueError (msg : string)
  | IndexError.

(** A panel of the figure: the position of the event in the finder's
    results, its snippet, and the event number shown in the title. *)
Record panel (Snip : Type) : Type := {
  event_idx : nat;
  snippet : Snip;
  event_num : Z
}.
Arguments Build_panel {Snip}.
Arguments event_idx {Snip} p.
Arguments snippet {Snip} p.
Arguments event_num {Snip} p.

(** How the call ends: with an exception; with the warning that no snippet
    data is available (the method returns [None]); or by drawing the
    panels, saved under [saved_as] when [save_fig] is set and shown
    otherwise. *)
Inductive result (Snip : Type) : Type :=
  | Raised (e : error)
  | NoSnippetData
  | Draws (panels : list (panel Snip)) (saved_as : option string).
Arguments Raised {Snip} e.
Arguments NoSnippetData {Snip}.
Arguments Draws {Snip} panels saved_as.

Definition no_events_message : string :=
  "No transit events found. Run pipeline.find_transits() or pipeline.run() first.".

(** [[i for i, tic in enumerate(tics) if tic == tic_str]], counting from
    [i]. *)
Fixpoint indices_from (i : nat) (tics : list string) (tic_str : string) : list nat :=
  match tics with
  | [] => []
  | tic :: rest =>
      if bool_decide (tic = tic_str) then i :: indices_from (S i) rest tic_str
      else indices_from (S i) rest tic_str
  end.

Section PlotEvents.

Variable Snip : Type.
(** [snippet['tic']]. *)
Variable snippet_tic : Snip -> Z.

(** The loop that pairs each selected event with its snippet (lines
    336-342): an event is kept when the snippet list reaches its position
    and the snippet there carries the requested TIC. *)
Definition matching_snippets (snippets : list Snip) (tic_id : Z)
    (event_indices : list nat) : list (nat * Snip) :=
  omap (fun idx =>
          match snippets !! idx with
          | Some s => if bool_decide (snippet_tic s = tic_id) then Some (idx, s) else None
          | None => None
          end) event_indices.

(** [event_idx - event_indices[0] + 1 if event_number is None else
    event_number]; [event_indices] is the list after the selection. *)
Definition title_number (event_indices : list nat) (event_number : option Z)
    (idx : nat) : Z :=
  match event_number with
  | Some n => n
  | None => Z.of_nat idx - Z.of_nat (default 0%nat (head event_indices)) + 1
  end.

Definition figure_file (tic_id : Z) (event_number : option Z) : string :=
  match event_number with
  | Some n => "TIC_" +:+ pretty tic_id +:+ "_event_" +:+ pretty n +:+ ".png"
  | None => "TIC_" +:+ pretty tic_id +:+ "_all_events.png"
  end.

(** The events to draw once the checks have passed. *)
Definition draw (res : finder_results Snip) (tic_id : Z) (event_number : option Z)
    (save_fig : bool) (save_path : string) (event_indices : list nat) : result Snip :=
  let matching := matching_snippets (event_snippets res) tic_id event_indices in
  if bool_decide (length matching = 0%nat) then NoSnippetData
  else
    Draws (map (fun '(idx, s) =>
                  Build_panel idx s (title_number event_indices event_number idx))
               matching)
          (if save_fig
           then Some (os_path_join save_path (figure_file tic_id event_number))
           else None).

(** [plot_events(tic_id, event_number=None, save_fig=False, save_path='.')];
    [finder] is [None] when the transit finder has no [results]
    attribute. *)
Definition plot_events (finder : option (finder_results Snip)) (tic_id : Z)
    (event_number : option Z) (save_fig : bool) (save_path : string) : result Snip :=
  match finder with
  | None => Raised (RuntimeError no_events_message)
  | Some res =>
      if bool_decide (length (tics res) = 0%nat) then
        Raised (RuntimeError no_events_message)
      else
        let tic_str := pretty tic_id in
        let event_indices := indices_from 0 (tics res) tic_str in
        if bool_decide (length event_indices = 0%nat) then
          Raised (ValueError ("No events found for TIC " +:+ pretty tic_id))
        else
          match event_number with
          | None => draw res tic_id event_number save_fig save_path event_indices
          | Some n =>
              if (n <? 1) || (Z.of_nat (length event_indices) <? n) then
                Raised (ValueError
                  ("Event number " +:+ pretty n +:+ " out of range. TIC "
                   +:+ pretty tic_id +:+ " has "
                   +:+ pretty (length event_indices) +:+ " event(s)."))
              else
                match event_indices !! Z.to_nat (n - 1) with
                | None => Raised IndexError
                | Some idx => draw res tic_id event_number save_fig save_path [idx]
                end
          end
  end.

End PlotEvents.

Arguments matching_snippets {Snip}.
Arguments draw {Snip}.
Arguments plot_events {Snip}.

End Plot.

(** ** cli.py

    The [find-transits] command's configuration dictionary and the [run]
    command, after [argparse] has parsed the command line. *)
Module Cli.

(** A value of the configuration dictionary. *)
Inductive value : Type :=
  | Float (x : float)
  | Str (s : string).

(** [if args.threshold:] for a float or [None]: [None] and zeros are
    falsy, every other float (also [nan]) is truthy. *)
Definition threshold_given (threshold : option float) : option float :=
  match threshold with
  | Some x => if Py.eq x 0 then None else Some x
  | None => None
  end.

(** The [config] built by the [find-transits] command (lines 110-115):
    [--threshold] and [--method] become entries of
    [config['transit_finding']]. *)
Definition find_transits_config (threshold : option float) (method : option string)
  : gmap string (gmap string value) :=
  let config : gmap string (gmap string value) := ∅ in
  let config :=
    match threshold_given threshold with
    | Some x => <["transit_finding" := {["mad_threshold" := Float x]}]> config
    | None => config
    end in
  match truthy method with
  | Some m =>
      let config :=
        match config !! "transit_finding" with
        | None => <["transit_finding" := ∅]> config
        | Some _ => config
        end in
      <["transit_finding" :=
          <["detrending_method" := Str m]> (default ∅ (config !! "transit_finding"))]>
        config
  | None => config
  end.

Section RunCommand.

Variable World : Type.
Variable Table : Type.
Variable Snippet : Type.
Variable MaskKw : Type.
Variable col : collaborators World Table Snippet MaskKw.
(** [len(vetting_df[vetting_df['best_fit'].isin(['T', 'AT'])])]. *)
Variable high_confidence : Table -> nat.

(** What the command prints after [pipeline.run()] has returned (lines
    84-95), one string per [print]. *)
Definition report (results : gmap string Table) : list string :=
  let n_events :=
    match results !! "transit_finding" with
    | Some table => table_len col table
    | None => 0%nat
    end in
  let n_candidates :=
    match results !! "vetting" with
    | Some vetting_df =>
        if bool_decide (0 < table_len col vetting_df)%nat
        then high_confidence vetting_df else 0%nat
    | None => 0%nat
    end in
  [String "010"%char "Pipeline complete!";
   "  Transit events detected: " +:+ pretty n_events]
  ++ match results !! "vetting" with
     | Some _ => ["  High-confidence candidates: " +:+ pretty n_candidates]
     | None => []
     end.

(** The [run] command: the pipeline is constructed without
    [transit_models_path] and run with the default flags.  [w] and
    [n_injections] are the world and the configured number of injections
    once the constructor has loaded the catalogue and merged the
    configuration file. *)
Definition run_command (data output : string) (n_injections : Z) (w : World)
  : outcome (list string) * pipeline World Table * list (event Snippet MaskKw) :=
  let pipeline := init data output None n_injections w in
  let '(r, pipeline, evs) := run col true true false no_run_kwargs pipeline in
  match r with
  | Returns results => (Returns (report results), pipeline, evs)
  | Raises e => (Raises e, pipeline, evs)
  end.

End RunCommand.

Arguments report {World Table Snippet MaskKw}.
Arguments run_command {World Table Snippet MaskKw}.

End Cli.

(** * Properties *)

(** ** Order of binary64 values *)

Lemma SFcompare_antisym x y c :
  SFcompare x y = Some c -> SFcompare y x = Some (CompOpp c).
Proof.
  destruct x as [sx|sx| |sx mx ex], y as [sy|sy| |sy my ey]; simpl;
    try discriminate; intros [= <-]; f_equal;
    repeat match goal with s : bool |- _ => destruct s end; simpl; try reflexivity.
  all: change (Pos.compare_cont Eq mx my) with (Pos.compare mx my);
    change (Pos.compare_cont Eq my mx) with (Pos.compare my mx);
    rewrite (Z.compare_antisym ex ey), (Pos.compare_antisym mx my);
    destruct (ex ?= ey)%Z, (mx ?= my)%positive; reflexivity.
Qed.

Lemma SFcompare_lt_trans x y z :
  SFcompare x y = Some Lt -> SFcompare y z = Some Lt -> SFcompare x z = Some Lt.
Proof.
  destruct x as [sx|sx| |sx mx ex], y as [sy|sy| |sy my ey], z as [sz|sz| |sz mz ez];
    simpl; try discriminate;
    repeat match goal with s : bool |- _ => destruct s end; simpl;
    try discriminate; try reflexivity.
  all: change (Pos.compare_cont Eq mx my) with (Pos.compare mx my);
    change (Pos.compare_cont Eq my mz) with (Pos.compare my mz);
    change (Pos.compare_cont Eq mx mz) with (Pos.compare mx mz).
  all: intros [= H1] [= H2]; f_equal.
  all: destruct (Z.compare_spec ex ey), (Z.compare_spec ey ez),
         (Pos.compare_spec mx my), (Pos.compare_spec my mz); try discriminate.
  all: destruct (Z.compare_spec ex ez), (Pos.compare_spec mx mz);
    try reflexivity; try lia.
Qed.

Lemma SFcompare_some_not_nan x y c :
  SFcompare x y = Some c -> SFcompare x x = Some Eq /\ SFcompare y y = Some Eq.
Proof.
  assert (Hrefl : forall u, u <> S754_nan -> SFcompare u u = Some Eq).
  { intros [s|s| |s m e] Hu; simpl; try congruence; f_equal.
    - destruct s; reflexivity.
    - change (Pos.compare_cont Eq m m) with (Pos.compare m m).
      destruct s; rewrite Z.compare_refl, Pos.compare_refl; reflexivity. }
  intros H; split; apply Hrefl; intros Hn; subst;
    [ | destruct x ]; discriminate.
Qed.

Lemma py_lt_compare x y :
  Py.lt x y = true <-> SFcompare (Prim2SF x) (Prim2SF y) = Some Lt.
Proof.
  unfold Py.lt. rewrite FloatAxioms.ltb_spec. unfold SFltb.
  destruct (SFcompare _ _) as [[]|]; split; congruence.
Qed.

Lemma py_lt_not_nan x y :
  Py.lt x y = true -> Py.isnan x = false /\ Py.isnan y = false.
Proof.
  rewrite py_lt_compare. intros H.
  destruct (SFcompare_some_not_nan _ _ _ H) as [Hx Hy].
  unfold Py.isnan, PrimFloat.is_nan. rewrite !FloatAxioms.eqb_spec. unfold SFeqb.
  rewrite Hx, Hy. auto.
Qed.

Lemma py_lt_asym x y : Py.lt x y = true -> Py.lt y x = false.
Proof.
  rewrite py_lt_compare. intros H. apply SFcompare_antisym in H.
  unfold Py.lt. rewrite FloatAxioms.ltb_spec. unfold SFltb. rewrite H. reflexivity.
Qed.

Lemma py_lt_trans x y z : Py.lt x y = true -> Py.lt y z = true -> Py.lt x z = true.
Proof. rewrite !py_lt_compare. apply SFcompare_lt_trans. Qed.

Lemma py_lt_neq x y : Py.lt x y = true -> Py.eq y x = false.
Proof.
  rewrite py_lt_compare. intros H. apply SFcompare_antisym in H.
  unfold Py.eq. rewrite FloatAxioms.eqb_spec. unfold SFeqb. rewrite H. reflexivity.
Qed.

(** ** numpy helpers *)

Lemma np_where_from_lookup (cond : list bool) (i j : nat) :
  j ∈ np_where_from i cond <-> (i <= j)%nat /\ cond !! (j - i)%nat = Some true.
Proof.
  revert i. induction cond as [|b rest IH]; intros i; simpl.
  - rewrite elem_of_nil. split; [tauto | intros [_ H]; discriminate].
  - assert (Hrest : j ∈ np_where_from (S i) rest <->
                    (i < j)%nat /\ (b :: rest) !! (j - i)%nat = Some true).
    { rewrite IH. split.
      - intros [Hle H]. split; [lia|].
        replace (j - i)%nat with (S (j - S i)) by lia. exact H.
      - intros [Hlt H]. split; [lia|].
        replace (j - i)%nat with (S (j - S i)) in H by lia. exact H. }
    destruct b.
    + rewrite elem_of_cons, Hrest. split.
      * intros [-> | [Hlt H]]; [|split; [lia | exact H]].
        split; [lia|]. replace (i - i)%nat with 0%nat by lia. reflexivity.
      * intros [Hle H]. destruct (decide (j = i)) as [->|Hne]; [left; reflexivity|].
        right. split; [lia | exact H].
    + rewrite Hrest. split.
      * intros [Hlt H]. split; [lia | exact H].
      * intros [Hle H]. split; [|exact H].
        destruct (decide (j = i)) as [->|Hne]; [|lia].
        replace (i - i)%nat with 0%nat in H by lia. discriminate.
Qed.

Lemma np_where_lookup (cond : list bool) (j : nat) :
  j ∈ np_where cond <-> cond !! j = Some true.
Proof.
  unfold np_where. rewrite np_where_from_lookup.
  replace (j - 0)%nat with j by lia. split; [tauto | split; [lia | assumption]].
Qed.

Lemma np_set_true_where_from (pre cond : list bool) :
  np_set_true (pre ++ replicate (length cond) false)
              (np_where_from (length pre) cond)
  = Returns (pre ++ cond).
Proof.
  revert pre. induction cond as [|b rest IH]; intros pre; simpl.
  - reflexivity.
  - assert (Hstep : forall c : bool,
      np_set_true (pre ++ c :: replicate (length rest) false)
                  (np_where_from (S (length pre)) rest)
      = Returns (pre ++ c :: rest)).
    { intros c. specialize (IH (pre ++ [c])).
      rewrite length_app in IH. simpl in IH.
      replace (length pre + 1)%nat with (S (length pre)) in IH by lia.
      rewrite <- !app_assoc in IH. exact IH. }
    destruct b; [|apply Hstep].
    simpl. rewrite length_app. simpl.
    destruct (Nat.ltb_spec (length pre) (length pre + S (length (replicate (length rest) false))));
      [|lia].
    rewrite insert_app_r_alt by lia.
    replace (length pre - length pre)%nat with 0%nat by lia. simpl.
    apply Hstep.
Qed.

Lemma np_set_true_where (cond : list bool) :
  np_set_true (replicate (length cond) false) (np_where cond) = Returns cond.
Proof. exact (np_set_true_where_from [] cond). Qed.

Lemma np_where_all_false {A} (l : list A) : np_where (map (fun _ => false) l) = [].
Proof.
  unfold np_where. generalize 0%nat. induction l as [|a l IH]; intros n; simpl; auto.
Qed.

Lemma zip_with_map_same {A B} (op : B -> B -> B) (f g : A -> B) (l : list A) :
  zip_with op (map f l) (map g l) = map (fun a => op (f a) (g a)) l.
Proof. induction l as [|a l IH]; simpl; [reflexivity | rewrite IH; reflexivity]. Qed.

(** ** get_eclipse_indices and get_eclipse_mask *)

Lemma get_eclipse_indices_where phases pos width :
  get_eclipse_indices phases pos width
  = np_where (map (in_eclipse pos width) phases).
Proof.
  unfold get_eclipse_indices, in_eclipse, np_logical_or, np_logical_and, np_ge, np_le.
  destruct (Py.isnan pos || Py.isnan width || Py.eq width 0).
  - symmetry. apply np_where_all_false.
  - destruct (Py.gt pos 0.95); [|destruct (Py.lt pos 0.05)];
      rewrite zip_with_map_same; reflexivity.
Qed.

Lemma get_eclipse_mask_map phases pos width :
  get_eclipse_mask phases pos width = Returns (map (in_eclipse pos width) phases).
Proof.
  unfold get_eclipse_mask, np_zeros_like.
  rewrite get_eclipse_indices_where.
  rewrite <- (length_map (in_eclipse pos width) phases).
  apply np_set_true_where.
Qed.

Lemma get_eclipse_indices_elem phases pos width (i : nat) :
  i ∈ get_eclipse_indices phases pos width
  <-> exists p, phases !! i = Some p /\ in_eclipse pos width p = true.
Proof.
  rewrite get_eclipse_indices_where, np_where_lookup, list_lookup_fmap.
  destruct (phases !! i) as [p|]; simpl; split.
  - intros [= H]. eauto.
  - intros (q & [= <-] & H). rewrite H. reflexivity.
  - discriminate.
  - intros (q & H & _). discriminate.
Qed.

Lemma get_eclipse_mask_lookup phases pos width mask (i : nat) :
  get_eclipse_mask phases pos width = Returns mask ->
  mask !! i = Some true
  <-> exists p, phases !! i = Some p /\ in_eclipse pos width p = true.
Proof.
  rewrite get_eclipse_mask_map. intros [= <-].
  rewrite list_lookup_fmap.
  destruct (phases !! i) as [p|]; simpl; split.
  - intros [= H]. eauto.
  - intros (q & [= <-] & H). rewrite H. reflexivity.
  - discriminate.
  - intros (q & H & _). discriminate.
Qed.

#[local] Open Scope float_scope.

Lemma in_eclipse_no_wrap pos width p :
  Py.isnan pos = false -> Py.isnan width = false -> Py.eq width 0 = false ->
  Py.gt pos 0.95 = false -> Py.lt pos 0.05 = false ->
  in_eclipse pos width p = Py.ge p (pos - width / 2) && Py.le p (pos + width / 2).
Proof.
  intros Hp Hw Hz Hhi Hlo. unfold in_eclipse.
  rewrite Hp, Hw, Hz, Hhi, Hlo. reflexivity.
Qed.

(** C3: for a usable eclipse (neither value [nan], width not zero),
    [get_eclipse_indices] selects exactly the samples with
    [phase >= pos - width/2 or phase <= pos + width/2 - 1] when [pos > 0.95]
    and exactly those with [phase >= pos - width/2 + 1 or
    phase <= pos + width/2] when [pos < 0.05]; for [pos = 0.99],
    [width = 0.1] the sample at phase 0.02 is selected and the one at 0.5 is
    not. *)
Theorem get_eclipse_indices_wraparound
    (phases : list float) (pos width : float) (i : nat) :
  Py.isnan pos = false -> Py.isnan width = false -> Py.eq width 0 = false ->
  (Py.gt pos 0.95 = true ->
     (i ∈ get_eclipse_indices phases pos width <->
      exists p, phases !! i = Some p /\
        (Py.ge p (pos - width / 2) = true \/
         Py.le p (pos + width / 2 - 1) = true)))
  /\ (Py.lt pos 0.05 = true ->
     (i ∈ get_eclipse_indices phases pos width <->
      exists p, phases !! i = Some p /\
        (Py.ge p (pos - width / 2 + 1) = true \/
         Py.le p (pos + width / 2) = true)))
  /\ get_eclipse_indices [0.02; 0.5] 0.99 0.1 = [0%nat]
  /\ get_eclipse_mask [0.02; 0.5] 0.99 0.1 = Returns [true; false].
Proof.
  intros Hp Hw Hz. split; [|split; [|split; reflexivity]].
  - intros Hhi. rewrite get_eclipse_indices_elem. unfold in_eclipse.
    rewrite Hp, Hw, Hz, Hhi. simpl.
    split; intros (p & Hl & H); exists p; split; auto;
      [apply orb_true_iff in H | apply orb_true_iff]; exact H.
  - intros Hlo.
    assert (Hhi : Py.gt pos 0.95 = false).
    { unfold Py.gt. change (Py.lt 0.95 pos = false). apply py_lt_asym.
      apply (py_lt_trans pos 0.05 0.95); [exact Hlo | reflexivity]. }
    rewrite get_eclipse_indices_elem. unfold in_eclipse.
    rewrite Hp, Hw, Hz, Hhi, Hlo. simpl.
    split; intros (p & Hl & H); exists p; split; auto;
      [apply orb_true_iff in H | apply orb_true_iff]; exact H.
Qed.

Lemma get_eclipse_indices_wraparound_witness :
  0%nat ∈ get_eclipse_indices [0.02; 0.5] 0.99 0.1
  <-> exists p, [0.02; 0.5] !! 0%nat = Some p /\
        (Py.ge p (0.99 - 0.1 / 2) = true \/ Py.le p (0.99 + 0.1 / 2 - 1) = true).
Proof.
  exact (proj1 (get_eclipse_indices_wraparound [0.02; 0.5] 0.99 0.1 0%nat
                  eq_refl eq_refl eq_refl) eq_refl).
Defined.

(** C4: when [pos] is [nan], or [width] is [nan], or [width == 0], the index
    set is empty and the mask is returned (nothing is raised), all [False],
    as long as [phases]. *)
Theorem absent_eclipse_selects_nothing (phases : list float) (pos width : float) :
  Py.isnan pos = true \/ Py.isnan width = true \/ Py.eq width 0 = true ->
  get_eclipse_indices phases pos width = []
  /\ get_eclipse_mask phases pos width
     = Returns (replicate (length phases) false).
Proof.
  intros H.
  assert (Hg : Py.isnan pos || Py.isnan width || Py.eq width 0 = true).
  { destruct H as [-> | [-> | ->]]; [reflexivity | |];
      rewrite ?orb_true_r; reflexivity. }
  assert (Hi : get_eclipse_indices phases pos width = []).
  { unfold get_eclipse_indices. rewrite Hg. reflexivity. }
  split; [exact Hi|].
  unfold get_eclipse_mask. rewrite Hi. reflexivity.
Qed.

Lemma absent_eclipse_selects_nothing_witness :
  get_eclipse_indices [0.1; 0.5; 0.5] PrimFloat.nan 0 = []
  /\ get_eclipse_mask [0.1; 0.5; 0.5] PrimFloat.nan 0
     = Returns [false; false; false].
Proof.
  exact (absent_eclipse_selects_nothing [0.1; 0.5; 0.5] PrimFloat.nan 0
           (or_introl eq_refl)).
Defined.

(** C5 as stated fails at [width = 0]: with [pos = 0.5] the closed interval
    [[pos - width/2, pos + width/2]] contains the sample at phase 0.5, but the
    zero-width guard returns an all-[False] mask. *)
Lemma mask_interval_fails_at_zero_width :
  ~ (forall (phases : list float) (pos width : float) (mask : list bool) (i : nat),
       Py.lt 0.05 pos = true -> Py.lt pos 0.95 = true -> Py.ge width 0 = true ->
       get_eclipse_mask phases pos width = Returns mask ->
       (mask !! i = Some true <->
        exists p, phases !! i = Some p /\
          Py.le (pos - width / 2) p = true /\ Py.le p (pos + width / 2) = true)).
Proof.
  intros H.
  specialize (H [0.5] 0.5 0 [false] 0%nat eq_refl eq_refl eq_refl eq_refl).
  destruct H as [_ H].
  assert (Hm : [false] !! 0%nat = Some true).
  { apply H. exists 0.5. repeat split; reflexivity. }
  discriminate Hm.
Qed.

(** C5, amended: for [pos] in the open interval (0.05, 0.95) and
    [width > 0], the mask is returned, is as long as [phases], and marks
    [True] exactly the samples with [pos - width/2 <= phase <= pos +
    width/2]. *)
Theorem mask_marks_closed_interval (phases : list float) (pos width : float) :
  Py.lt 0.05 pos = true -> Py.lt pos 0.95 = true -> Py.lt 0 width = true ->
  exists mask,
    get_eclipse_mask phases pos width = Returns mask
    /\ length mask = length phases
    /\ forall i : nat,
         mask !! i = Some true <->
         exists p, phases !! i = Some p /\
           Py.le (pos - width / 2) p = true /\ Py.le p (pos + width / 2) = true.
Proof.
  intros Hlo Hhi Hw.
  exists (map (in_eclipse pos width) phases).
  split; [apply get_eclipse_mask_map|]. split; [apply length_map|].
  intros i.
  rewrite (get_eclipse_mask_lookup phases pos width _ i (get_eclipse_mask_map _ _ _)).
  destruct (py_lt_not_nan _ _ Hlo) as [_ Hp].
  destruct (py_lt_not_nan _ _ Hw) as [_ Hwn].
  assert (Hrule : forall p, in_eclipse pos width p
            = Py.ge p (pos - width / 2) && Py.le p (pos + width / 2)).
  { intros p. apply in_eclipse_no_wrap; auto.
    - apply py_lt_neq. exact Hw.
    - apply (py_lt_asym pos 0.95). exact Hhi.
    - apply (py_lt_asym 0.05 pos). exact Hlo. }
  split; intros (p & Hl & H); exists p; split; auto.
  - rewrite Hrule in H. apply andb_true_iff in H. exact H.
  - rewrite Hrule. apply andb_true_iff. exact H.
Qed.

Lemma mask_marks_closed_interval_witness :
  exists mask,
    get_eclipse_mask [0.2; 0.45; 0.5; 0.56] 0.5 0.1 = Returns mask
    /\ length mask = 4%nat
    /\ forall i : nat,
         mask !! i = Some true <->
         exists p, [0.2; 0.45; 0.5; 0.56] !! i = Some p /\
           Py.le (0.5 - 0.1 / 2) p = true /\ Py.le p (0.5 + 0.1 / 2) = true.
Proof.
  exact (mask_marks_closed_interval [0.2; 0.45; 0.5; 0.56] 0.5 0.1
           eq_refl eq_refl eq_refl).
Defined.

(** C9: at [pos = 0.95] and at [pos = 0.05] exactly, and for every other
    [pos] that is neither [> 0.95] nor [< 0.05], a usable eclipse selects by
    the rule without wraparound, [phase >= pos - width/2 and
    phase <= pos + width/2]. *)
Theorem boundary_positions_do_not_wrap
    (phases : list float) (pos width : float) (i : nat) :
  Py.isnan width = false -> Py.eq width 0 = false ->
  pos = 0.95 \/ pos = 0.05 \/
    (Py.isnan pos = false /\ Py.gt pos 0.95 = false /\ Py.lt pos 0.05 = false) ->
  i ∈ get_eclipse_indices phases pos width <->
  exists p, phases !! i = Some p /\
    Py.ge p (pos - width / 2) = true /\ Py.le p (pos + width / 2) = true.
Proof.
  intros Hw Hz Hpos.
  assert (H : Py.isnan pos = false /\ Py.gt pos 0.95 = false /\ Py.lt pos 0.05 = false).
  { destruct Hpos as [-> | [-> | H]]; [| | exact H]; repeat split; reflexivity. }
  destruct H as (Hp & Hhi & Hlo).
  rewrite get_eclipse_indices_elem.
  split; intros (p & Hl & H); exists p; split; auto.
  - rewrite in_eclipse_no_wrap in H by assumption. apply andb_true_iff in H. exact H.
  - rewrite in_eclipse_no_wrap by assumption. apply andb_true_iff. exact H.
Qed.

Lemma boundary_positions_do_not_wrap_witness :
  1%nat ∈ get_eclipse_indices [0.01; 0.93; 0.99] 0.95 0.1 <->
  exists p, [0.01; 0.93; 0.99] !! 1%nat = Some p /\
    Py.ge p (0.95 - 0.1 / 2) = true /\ Py.le p (0.95 + 0.1 / 2) = true.
Proof.
  exact (boundary_positions_do_not_wrap [0.01; 0.93; 0.99] 0.95 0.1 1%nat
           eq_refl eq_refl (or_introl eq_refl)).
Defined.

Example boundary_095_selection :
  get_eclipse_indices [0.01; 0.93; 0.99; 1.0] 0.95 0.1 = [1%nat; 2%nat; 3%nat]
  /\ get_eclipse_indices [0.01; 0.93; 0.99; 1.0] 0.96 0.1 = [0%nat; 1%nat; 2%nat; 3%nat]
  /\ get_eclipse_indices [0.01; 0.07; 0.99] 0.05 0.1 = [0%nat; 1%nat]
  /\ get_eclipse_indices [0.01; 0.07; 0.99] 0.04 0.1 = [0%nat; 1%nat; 2%nat].
Proof. repeat split; reflexivity. Qed.

#[local] Close Scope float_scope.


(** ** Rounding in binary64 never leaves [[-1, 1]] *)

Lemma digits2_pos_bounds (p : positive) :
  2 ^ (Z.pos (digits2_pos p) - 1) <= Z.pos p < 2 ^ Z.pos (digits2_pos p).
Proof.
  induction p as [p IH|p IH|]; simpl digits2_pos.
  - rewrite Pos2Z.inj_succ.
    replace (Z.succ (Z.pos (digits2_pos p)) - 1) with (Z.succ (Z.pos (digits2_pos p) - 1)) by lia.
    rewrite !Z.pow_succ_r by lia. lia.
  - rewrite Pos2Z.inj_succ.
    replace (Z.succ (Z.pos (digits2_pos p)) - 1) with (Z.succ (Z.pos (digits2_pos p) - 1)) by lia.
    rewrite !Z.pow_succ_r by lia. lia.
  - simpl. lia.
Qed.

Lemma Zdigits2_le (m d : Z) : 0 <= m -> 0 <= d -> m <= 2 ^ d -> Zdigits2 m <= d + 1.
Proof.
  intros Hm Hd Hle. destruct m as [|p|p]; simpl; try lia.
  pose proof (digits2_pos_bounds p) as [Hlo _].
  destruct (Z_lt_le_dec (d + 1) (Z.pos (digits2_pos p))) as [Hgt|]; [|lia].
  exfalso.
  assert (2 ^ (d + 1) <= 2 ^ (Z.pos (digits2_pos p) - 1)) by (apply Z.pow_le_mono_r; lia).
  rewrite Z.pow_add_r in H by lia. lia.
Qed.

Lemma shr_1_inv m k mrs : 0 <= k -> shr_inv m k mrs -> shr_inv m (k + 1) (shr_1 mrs).
Proof.
  intros Hk (H0 & Hle & Hlt). destruct mrs as [mm r s]. simpl in *.
  assert (Hp : 0 < 2 ^ k) by (apply Z.pow_pos_nonneg; lia).
  assert (Hk1 : 2 ^ (k + 1) = 2 * 2 ^ k) by (rewrite Z.pow_add_r by lia; lia).
  unfold shr_inv. rewrite Hk1.
  destruct mm as [|[p|p|]|p]; simpl; try lia.
  all: repeat split; try lia; try nia.
  all: intros Hrs; specialize (Hlt Hrs); nia.
Qed.

Lemma iter_shr_1_inv m (p : positive) : forall k mrs,
  0 <= k -> shr_inv m k mrs -> shr_inv m (k + Z.pos p) (SpecFloat.iter_pos shr_1 p mrs).
Proof.
  induction p as [p IH|p IH|]; intros k mrs Hk Hinv; simpl SpecFloat.iter_pos.
  - replace (k + Z.pos p~1) with ((k + 1 + Z.pos p) + Z.pos p) by lia.
    apply IH; [lia|]. apply IH; [lia|]. apply shr_1_inv; assumption.
  - replace (k + Z.pos p~0) with ((k + Z.pos p) + Z.pos p) by lia.
    apply IH; [lia|]. apply IH; assumption.
  - apply shr_1_inv; assumption.
Qed.

Lemma fexp_le (z K : Z) :
  z <= K + 1 -> fexp prec emax z <= Z.max (K - 52) (-1074).
Proof. unfold fexp, SpecFloat.emin, prec, emax. lia. Qed.

Lemma shr_fexp_bound (m e K : Z) :
  0 <= m -> e <= K -> m <= 2 ^ (K - e) ->
  exists mrs e',
    shr_fexp prec emax m e loc_Exact = (mrs, e')
    /\ e <= e' /\ e' <= Z.max e (Z.max (K - 52) (-1074))
    /\ shr_inv m (e' - e) mrs.
Proof.
  intros Hm He Hle. unfold shr_fexp, shr. simpl shr_record_of_loc.
  assert (Hinv0 : shr_inv m 0 {| shr_m := m; shr_r := false; shr_s := false |}).
  { unfold shr_inv. simpl. repeat split; try lia; discriminate. }
  destruct (fexp prec emax (Zdigits2 m + e) - e) as [|p|p] eqn:En.
  - eexists _, _. split; [reflexivity|]. replace (e - e) with 0 by lia.
    split; [lia|]. split; [lia|]. exact Hinv0.
  - eexists _, _. split; [reflexivity|].
    assert (Hd : Zdigits2 m + e <= K + 1).
    { pose proof (Zdigits2_le m (K - e) Hm ltac:(lia) Hle). lia. }
    pose proof (fexp_le _ _ Hd) as Hf.
    split; [lia|]. split; [lia|].
    replace (e + Z.pos p - e) with (0 + Z.pos p) by lia.
    apply iter_shr_1_inv; [lia | exact Hinv0].
  - eexists _, _. split; [reflexivity|]. replace (e - e) with 0 by lia.
    split; [lia|]. split; [lia|]. exact Hinv0.
Qed.

Lemma round_nearest_even_bound (m k B : Z) (mrs : shr_record) :
  0 <= k -> shr_inv m k mrs -> m <= B * 2 ^ k ->
  0 <= round_nearest_even (shr_m mrs) (loc_of_shr_record mrs) <= B.
Proof.
  intros Hk (H0 & Hle & Hlt) HB.
  assert (Hp : 0 < 2 ^ k) by (apply Z.pow_pos_nonneg; lia).
  destruct mrs as [q r s]. simpl in *.
  assert (Hq : q <= B) by nia.
  assert (Hq1 : r || s = true -> q + 1 <= B) by (intros Hrs; specialize (Hlt Hrs); nia).
  destruct r, s; simpl; try lia.
  all: specialize (Hq1 eq_refl); try lia.
  all: match goal with |- context [if ?b then _ else _] => destruct b end; lia.
Qed.

(** Rounding a non-negative integer [m * 2^e] of magnitude at most [2^K]
    yields a finite value of the sign asked for and of magnitude at most
    [2^K]. *)
Lemma binary_round_aux_bound (sx : bool) (m e K : Z) :
  0 <= m -> e <= K -> e <= 971 -> -1074 <= K <= 1023 -> m <= 2 ^ (K - e) ->
  mag_le K (binary_round_aux prec emax sx m e loc_Exact)
  /\ sign_is sx (binary_round_aux prec emax sx m e loc_Exact).
Proof.
  intros Hm He He' HK Hle. unfold binary_round_aux.
  destruct (shr_fexp_bound m e K Hm He Hle) as (mrs1 & e1 & -> & Hee1 & He1 & Hinv1).
  set (m1 := round_nearest_even (shr_m mrs1) (loc_of_shr_record mrs1)).
  assert (Hm1 : 0 <= m1 <= 2 ^ (K - e1)).
  { apply (round_nearest_even_bound m (e1 - e)); [lia | exact Hinv1 |].
    rewrite <- Z.pow_add_r by lia. replace (K - e1 + (e1 - e)) with (K - e) by lia.
    exact Hle. }
  destruct (shr_fexp_bound m1 e1 K ltac:(lia) ltac:(lia) ltac:(lia))
    as (mrs2 & e2 & -> & Hee2 & He2 & (H0 & Hle2 & _)).
  assert (Hp : 0 < 2 ^ (e2 - e1)) by (apply Z.pow_pos_nonneg; lia).
  assert (Hm2 : shr_m mrs2 <= 2 ^ (K - e2)).
  { assert (shr_m mrs2 * 2 ^ (e2 - e1) <= 2 ^ (K - e2) * 2 ^ (e2 - e1)).
    { rewrite <- Z.pow_add_r by lia. replace (K - e2 + (e2 - e1)) with (K - e1) by lia. lia. }
    nia. }
  destruct (shr_m mrs2) as [|p|p] eqn:Em; simpl.
  - auto.
  - assert (Hfin : (e2 <=? emax - prec) = true) by (apply Z.leb_le; unfold emax, prec; lia).
    rewrite Hfin. simpl. repeat split; [lia | exact Hm2].
  - lia.
Qed.

Lemma pos_iter_xO (mx d : positive) :
  Z.pos (Pos.iter xO mx d) = Z.pos mx * 2 ^ Z.pos d.
Proof.
  induction d as [|d IH] using Pos.peano_ind.
  - simpl. lia.
  - rewrite Pos.iter_succ, Pos2Z.inj_succ, Z.pow_succ_r by lia.
    rewrite Pos2Z.inj_xO, IH. lia.
Qed.

Lemma shl_align_spec (mx : positive) (ex ex' : Z) :
  ex' <= ex ->
  exists mz, shl_align mx ex ex' = (mz, ex')
             /\ Z.pos mz = Z.pos mx * 2 ^ (ex - ex').
Proof.
  intros Hle. unfold shl_align.
  destruct (ex' - ex) as [|d|d] eqn:Ed; try lia.
  - assert (ex' = ex) by lia. subst. exists mx. split; [reflexivity|].
    replace (ex - ex) with 0 by lia. lia.
  - exists (Pos.iter xO mx d). split; [reflexivity|].
    rewrite pos_iter_xO. f_equal. f_equal. lia.
Qed.

Lemma binary_round_bound (sx : bool) (mx : positive) (ex K : Z) :
  ex <= K -> ex <= 971 -> -1074 <= K <= 1023 -> Z.pos mx <= 2 ^ (K - ex) ->
  mag_le K (binary_round prec emax sx mx ex)
  /\ sign_is sx (binary_round prec emax sx mx ex).
Proof.
  intros He He' HK Hle. unfold binary_round, shl_align.
  destruct (fexp prec emax (Z.pos (digits2_pos mx) + ex) - ex) as [|d|d] eqn:Ed.
  - apply binary_round_aux_bound; lia.
  - apply binary_round_aux_bound; lia.
  - set (ex' := fexp prec emax (Z.pos (digits2_pos mx) + ex)) in *.
    apply binary_round_aux_bound; try lia.
    rewrite pos_iter_xO.
    assert (Hp : 0 < 2 ^ Z.pos d) by (apply Z.pow_pos_nonneg; lia).
    replace (K - ex') with ((K - ex) + Z.pos d) by lia.
    rewrite Z.pow_add_r by lia. nia.
Qed.

Lemma Prim2SF_one : Prim2SF 1%float = SF_one.
Proof. reflexivity. Qed.

Lemma Prim2SF_zero : Prim2SF 0%float = S754_zero false.
Proof. reflexivity. Qed.

Lemma mag_le_mono (K K' : Z) f : K <= K' -> mag_le K f -> mag_le K' f.
Proof.
  intros HK. destruct f as [s|s| |s m e]; simpl; auto.
  intros [He Hm]. split; [lia|].
  assert (2 ^ (K - e) <= 2 ^ (K' - e)) by (apply Z.pow_le_mono_r; lia). lia.
Qed.

(** [-m + 1.0] for a finite [m] with [|m| <= 1]. *)
Lemma SFadd_one_bound (mm : positive) (em : Z) :
  em <= 0 -> Z.pos mm <= 2 ^ (- em) ->
  mag_le 0 (SFadd prec emax (S754_finite true mm em) SF_one)
  /\ sign_is false (SFadd prec emax (S754_finite true mm em) SF_one).
Proof.
  intros Hem Hmm. unfold SFadd, SF_one.
  set (ez := Z.min em (-52)).
  destruct (shl_align_spec mm em ez ltac:(lia)) as (mz1 & -> & H1).
  destruct (shl_align_spec 4503599627370496 (-52) ez ltac:(lia)) as (mz2 & -> & H2).
  simpl fst. simpl cond_Zopp.
  assert (H252 : Z.pos 4503599627370496 = 2 ^ 52) by reflexivity.
  assert (Hz2 : Z.pos mz2 = 2 ^ (- ez)).
  { rewrite H2, H252, <- Z.pow_add_r by lia. f_equal. lia. }
  assert (Hz1 : Z.pos mz1 <= 2 ^ (- ez)).
  { rewrite H1.
    assert (Hp : 0 < 2 ^ (em - ez)) by (apply Z.pow_pos_nonneg; lia).
    replace (- ez) with (- em + (em - ez)) by lia. rewrite Z.pow_add_r by lia. nia. }
  assert (Hn : 0 <= - Z.pos mz1 + Z.pos mz2 <= 2 ^ (0 - ez)).
  { replace (0 - ez) with (- ez) by lia. lia. }
  destruct (- Z.pos mz1 + Z.pos mz2) as [|n|n] eqn:En; simpl binary_normalize.
  - split; [exact I | reflexivity].
  - apply binary_round_bound; lia.
  - lia.
Qed.

Lemma valid_mantissa_lt (s : bool) (m : positive) (e : Z) :
  valid_binary (S754_finite s m e) = true -> Z.pos m < 2 ^ 53.
Proof.
  simpl. unfold bounded, canonical_mantissa. intros H.
  apply andb_true_iff in H. destruct H as [H _]. apply Z.eqb_eq in H.
  unfold fexp, SpecFloat.emin, prec, emax in H.
  pose proof (digits2_pos_bounds m) as [_ Hhi].
  assert (Hd : Z.pos (digits2_pos m) <= 53) by lia.
  assert (2 ^ Z.pos (digits2_pos m) <= 2 ^ 53) by (apply Z.pow_le_mono_r; lia).
  lia.
Qed.

Lemma Pos2Z_le_pos (p q : positive) : Z.pos p <= Z.pos q -> (p <= q)%positive.
Proof. intros H. exact H. Qed.

Lemma SFleb_same_exponent (m1 m2 : positive) (e : Z) :
  (m1 <= m2)%positive ->
  SFleb (S754_finite false m1 e) (S754_finite false m2 e) = true.
Proof.
  intros Hle. unfold SFleb, SFcompare. rewrite Z.compare_refl.
  fold (Pos.compare m1 m2).
  destruct (Pos.compare_spec m1 m2) as [?|?|Hgt]; try reflexivity.
  apply Pos.lt_nle in Hgt. contradiction.
Qed.

Lemma SFleb_lower_exponent (m1 m2 : positive) (e1 e2 : Z) :
  e1 < e2 ->
  SFleb (S754_finite false m1 e1) (S754_finite false m2 e2) = true.
Proof.
  intros Hlt. unfold SFleb, SFcompare.
  apply Z.compare_lt_iff in Hlt. rewrite Hlt. reflexivity.
Qed.

(** A valid, non-negative value of magnitude at most 1 lies between 0 and
    1 in the order of the floats. *)
Lemma sf_unit_interval f :
  valid_binary f = true -> mag_le 0 f -> sign_is false f ->
  SFleb (S754_zero false) f = true /\ SFleb f SF_one = true.
Proof.
  destruct f as [s|s| |s m e]; try contradiction.
  - intros _ _ Hs. simpl in Hs. subst s. split; reflexivity.
  - intros Hv [He Hm] Hs. simpl in Hs. subst s. split; [reflexivity|].
    unfold SF_one.
    assert (H252 : Z.pos 4503599627370496 = 2 ^ 52) by reflexivity.
    destruct (Z.lt_trichotomy e (-52)) as [Hlt|[->|Hgt]].
    + apply SFleb_lower_exponent, Hlt.
    + apply SFleb_same_exponent.
      replace (0 - -52) with 52 in Hm by lia. rewrite <- H252 in Hm.
      apply Pos2Z_le_pos. exact Hm.
    + exfalso.
      pose proof (valid_mantissa_lt _ _ _ Hv) as Hm53.
      unfold valid_binary, bounded, canonical_mantissa in Hv.
      apply andb_true_iff in Hv. destruct Hv as [Hc _]. apply Z.eqb_eq in Hc.
      unfold fexp, SpecFloat.emin, prec, emax in Hc.
      assert (Hd : Z.pos (digits2_pos m) = 53) by lia.
      pose proof (digits2_pos_bounds m) as [Hlo _]. rewrite Hd in Hlo.
      assert (2 ^ (0 - e) < 2 ^ (53 - 1)) by (apply Z.pow_lt_mono_r; lia).
      lia.
Qed.

Lemma SF2Prim_small (s : bool) (r : positive) (e : Z) :
  e < 0 -> Z.pos r < 2 ^ (- e) -> Z.pos r < 2 ^ 53 ->
  mag_le 0 (Prim2SF (SF2Prim (S754_finite s r e))).
Proof.
  intros He Hr Hr53.
  assert (Hcore : mag_le 0 (Prim2SF (Z.ldexp (of_uint63 (Uint63.of_Z (Z.pos r))) e))).
  { rewrite Z_ldexp_spec, of_uint63_spec, Uint63.of_Z_spec.
    assert (HwB : 2 ^ 53 < Uint63.wB) by reflexivity.
    rewrite Z.mod_small by lia.
    simpl binary_normalize.
    set (K0 := Z.min (- e) 53).
    assert (HrK : Z.pos r <= 2 ^ K0).
    { unfold K0. destruct (Z.min_spec (- e) 53) as [[_ ->]|[_ ->]]; lia. }
    destruct (binary_round_bound false r 0 K0) as [Hmag _]; try lia.
    { replace (K0 - 0) with K0 by lia. exact HrK. }
    destruct (binary_round prec emax false r 0) as [s1|s1| |s1 m1 e1];
      simpl in Hmag; try contradiction; simpl SFldexp.
    - exact I.
    - destruct Hmag as [He1 Hm1].
      apply binary_round_bound; try lia.
      assert (2 ^ (K0 - e1) <= 2 ^ (0 - (e1 + e))) by (apply Z.pow_le_mono_r; lia).
      lia. }
  unfold SF2Prim. destruct s; [|exact Hcore].
  rewrite opp_spec.
  destruct (Prim2SF (Z.ldexp (of_uint63 (Uint63.of_Z (Z.pos r))) e)); simpl in *; auto.
Qed.

Lemma in_unit_spec (f : float) :
  Prim2SF f = S754_nan
  \/ (mag_le 0 (Prim2SF f) /\ sign_is false (Prim2SF f)) ->
  in_unit f.
Proof.
  intros [Hnan | [Hmag Hsign]].
  - left. unfold Py.isnan, PrimFloat.is_nan. rewrite FloatAxioms.eqb_spec, Hnan.
    reflexivity.
  - right. unfold Py.le. rewrite !FloatAxioms.leb_spec, Prim2SF_zero, Prim2SF_one.
    apply sf_unit_interval; [apply Prim2SF_valid | exact Hmag | exact Hsign].
Qed.

Lemma fmod1_shape (x : float) :
  Prim2SF (Py.fmod1 x) = S754_nan \/ mag_le 0 (Prim2SF (Py.fmod1 x)).
Proof.
  unfold Py.fmod1.
  pose proof (Prim2SF_valid x) as Hv.
  destruct (Prim2SF x) as [s|s| |s m e].
  - right. destruct s; exact I.
  - left. reflexivity.
  - left. reflexivity.
  - destruct (Z.leb_spec 0 e) as [He|He].
    + right. destruct s; exact I.
    + pose proof (valid_mantissa_lt s m e Hv) as Hm.
      assert (Hp : 0 < 2 ^ (- e)) by (apply Z.pow_pos_nonneg; lia).
      pose proof (Z.mod_pos_bound (Z.pos m) (2 ^ (- e)) Hp) as [Hr0 Hr1].
      assert (Hrm : Z.pos m mod 2 ^ (- e) <= Z.pos m) by (apply Z.mod_le; lia).
      destruct (Z.pos m mod 2 ^ (- e)) as [|r|r].
      * right. destruct s; exact I.
      * right. apply SF2Prim_small; lia.
      * right. destruct s; exact I.
Qed.

(** In binary64 the remainder [x % 1.0] is [nan] or lies in the closed
    interval [[0, 1]]. *)
Lemma mod1_in_unit (x : float) : in_unit (Py.mod1 x).
Proof.
  unfold Py.mod1. set (m := Py.fmod1 x).
  unfold Py.eq, Py.lt.
  rewrite FloatAxioms.eqb_spec, FloatAxioms.ltb_spec, Prim2SF_zero.
  pose proof (Prim2SF_valid m) as Hv.
  destruct (fmod1_shape x) as [Hnan | Hmag]; fold m in Hnan || fold m in Hmag.
  - rewrite Hnan. simpl. apply in_unit_spec. left. exact Hnan.
  - destruct (Prim2SF m) as [s|s| |s mm em] eqn:Em; simpl in Hmag; try contradiction.
    + simpl. apply in_unit_spec. right. split; [exact I | reflexivity].
    + destruct Hmag as [He Hm]. destruct s; simpl.
      * apply in_unit_spec. right.
        rewrite add_spec, Em, Prim2SF_one.
        apply SFadd_one_bound; [exact He|].
        replace (- em) with (0 - em) by lia. exact Hm.
      * apply in_unit_spec. right. rewrite Em. simpl. auto.
Qed.

Lemma in_unit_add_zero (m : float) : in_unit m -> in_unit (m + 0)%float.
Proof.
  intros Hm.
  assert (Hsf : Prim2SF (m + 0)%float = SFadd prec emax (Prim2SF m) (S754_zero false)).
  { rewrite add_spec, Prim2SF_zero. reflexivity. }
  destruct (Prim2SF m) as [s|s| |s mm em] eqn:Em.
  - apply in_unit_spec. right. rewrite Hsf. destruct s; simpl; auto.
  - exfalso. destruct Hm as [Hn | [H0 H1]].
    + unfold Py.isnan, PrimFloat.is_nan in Hn.
      rewrite FloatAxioms.eqb_spec, Em in Hn. destruct s; discriminate Hn.
    + unfold Py.le in H0, H1.
      rewrite FloatAxioms.leb_spec, Em, ?Prim2SF_zero, ?Prim2SF_one in H0, H1.
      destruct s; [discriminate H0 | discriminate H1].
  - left. unfold Py.isnan, PrimFloat.is_nan.
    rewrite FloatAxioms.eqb_spec, Hsf. reflexivity.
  - assert (Heq : (m + 0)%float = m).
    { apply Prim2SF_inj. rewrite Hsf, Em. reflexivity. }
    rewrite Heq. exact Hm.
Qed.

(** X1: with the default [centre = 0.5] every phase [time_to_phase]
    computes in binary64 is [nan] or lies in the closed interval [[0, 1]],
    whatever the times, the period and the epoch. *)
Theorem time_to_phase_default_in_unit (times : list float) (period t0 : float) :
  Forall in_unit (time_to_phase times period t0 0.5%float).
Proof.
  unfold time_to_phase. simpl.
  apply Forall_forall. intros p Hp.
  apply list_elem_of_In, in_map_iff in Hp. destruct Hp as (t & <- & _).
  change (0.5 - 0.5)%float with 0%float.
  apply in_unit_add_zero, mod1_in_unit.
Qed.

(** ** time_to_phase *)

(** C6 as stated fails in binary64: for a tiny negative argument the
    remainder [x % 1.0] rounds to exactly 1.0, so with [centre = 0.5] the
    phase is 1.0, which is not below [centre + 0.5]. *)
Lemma time_to_phase_reaches_upper_end :
  ~ (forall (t period t0 centre p : float),
       Py.lt 0 period = true ->
       time_to_phase [t] period t0 centre = [p] ->
       Py.le (centre - 0.5) p = true /\ Py.lt p (centre + 0.5) = true)%float.
Proof.
  intros H.
  destruct (H (-1e-20)%float 1%float 0%float 0.5%float 1%float eq_refl eq_refl)
    as [_ Hlt].
  discriminate Hlt.
Qed.

(** The remainder on sample values, as the interpreter prints them. *)
Example mod1_values :
  Py.mod1 2.5 = 0.5%float /\ Py.mod1 (-2.5) = 0.5%float
  /\ Py.mod1 (-0.25) = 0.75%float /\ Py.mod1 1e300 = 0%float
  /\ Py.mod1 PrimFloat.neg_zero = PrimFloat.zero
  /\ Py.mod1 (-1e-20) = 1%float /\ Py.mod1 (-5e-324) = 1%float
  /\ Py.mod1 5e-324 = 5e-324%float
  /\ Py.isnan (Py.mod1 PrimFloat.infinity) = true
  /\ Py.isnan (Py.mod1 PrimFloat.nan) = true.
Proof. repeat split; reflexivity. Qed.

Example time_to_phase_binary64 :
  time_to_phase [(-1e-20)%float; 2.25%float; (-0.25)%float] 1%float 0%float 0.5%float
  = [1%float; 0.25%float; 0.75%float].
Proof. reflexivity. Qed.

(** ** The index array and the mask *)

Lemma np_where_from_bounds (i : nat) (cond : list bool) :
  Forall (fun j => (i <= j < i + length cond)%nat) (np_where_from i cond).
Proof.
  apply Forall_forall. intros j Hj. apply np_where_from_lookup in Hj.
  destruct Hj as [Hle Hl]. apply lookup_lt_Some in Hl. lia.
Qed.

Lemma np_where_from_sorted (i : nat) (cond : list bool) :
  StronglySorted lt (np_where_from i cond).
Proof.
  revert i. induction cond as [|b rest IH]; intros i; simpl.
  - constructor.
  - destruct b; [|apply IH].
    constructor; [apply IH|].
    eapply Forall_impl; [apply np_where_from_bounds|].
    simpl. intros j Hj. lia.
Qed.

Lemma StronglySorted_lt_NoDup (l : list nat) : StronglySorted lt l -> NoDup l.
Proof.
  induction 1 as [|x l Hs IH Hall]; constructor; [|exact IH].
  intros Hin. rewrite Forall_forall in Hall. specialize (Hall x Hin). lia.
Qed.

Lemma np_where_from_app (i : nat) (a b : list bool) :
  np_where_from i (a ++ b)
  = np_where_from i a ++ np_where_from (i + length a) b.
Proof.
  revert i. induction a as [|c a IH]; intros i; simpl.
  - replace (i + 0)%nat with i by lia. reflexivity.
  - rewrite IH. replace (S i + length a)%nat with (i + S (length a))%nat by lia.
    destruct c; reflexivity.
Qed.

Lemma np_where_from_shift (k i : nat) (c : list bool) :
  np_where_from (k + i) c = map (Nat.add k) (np_where_from i c).
Proof.
  revert i. induction c as [|b c IH]; intros i; simpl; [reflexivity|].
  replace (S (k + i)) with (k + S i)%nat by lia. rewrite IH.
  destruct b; reflexivity.
Qed.

(** X2: the index array [get_eclipse_indices] returns is strictly
    ascending, hence free of duplicates, and each of its entries is a
    position of [phases]. *)
Theorem get_eclipse_indices_ascending (phases : list float) (pos width : float) :
  StronglySorted lt (get_eclipse_indices phases pos width)
  /\ NoDup (get_eclipse_indices phases pos width)
  /\ Forall (fun j => (j < length phases)%nat) (get_eclipse_indices phases pos width).
Proof.
  rewrite get_eclipse_indices_where. unfold np_where.
  pose proof (np_where_from_sorted 0 (map (in_eclipse pos width) phases)) as Hs.
  split; [exact Hs|]. split; [apply StronglySorted_lt_NoDup; exact Hs|].
  eapply Forall_impl; [apply np_where_from_bounds|].
  simpl. intros j Hj. rewrite length_map in Hj. lia.
Qed.

(** X3: [get_eclipse_mask] raises nothing on any input; the mask is as long
    as [phases], its [True] positions read back with [np.where] are the
    array [get_eclipse_indices] returns, and every position outside that
    array is [False]. *)
Theorem get_eclipse_mask_agrees_with_indices
    (phases : list float) (pos width : float) :
  exists mask,
    get_eclipse_mask phases pos width = Returns mask
    /\ length mask = length phases
    /\ np_where mask = get_eclipse_indices phases pos width
    /\ forall i : nat, (i < length phases)%nat ->
         mask !! i
         = Some (bool_decide (i ∈ get_eclipse_indices phases pos width)).
Proof.
  exists (map (in_eclipse pos width) phases).
  split; [apply get_eclipse_mask_map|]. split; [apply length_map|].
  split; [symmetry; apply get_eclipse_indices_where|].
  intros i Hi. rewrite list_lookup_fmap.
  destruct (lookup_lt_is_Some_2 phases i Hi) as [p Hp]. rewrite Hp. simpl. f_equal.
  destruct (in_eclipse pos width p) eqn:E.
  - symmetry. apply bool_decide_eq_true. apply get_eclipse_indices_elem. eauto.
  - symmetry. apply bool_decide_eq_false. rewrite get_eclipse_indices_elem.
    intros (q & Hq & Hin). congruence.
Qed.

(** X4: masking is pointwise, so a light curve can be masked in pieces: the
    mask of a concatenation is the concatenation of the masks, and its index
    array is the first piece's followed by the second piece's shifted by the
    length of the first. *)
Theorem get_eclipse_mask_app (phases1 phases2 : list float) (pos width : float) :
  get_eclipse_indices (phases1 ++ phases2) pos width
  = get_eclipse_indices phases1 pos width
    ++ map (Nat.add (length phases1)) (get_eclipse_indices phases2 pos width)
  /\ exists mask1 mask2,
       get_eclipse_mask phases1 pos width = Returns mask1
       /\ get_eclipse_mask phases2 pos width = Returns mask2
       /\ get_eclipse_mask (phases1 ++ phases2) pos width = Returns (mask1 ++ mask2).
Proof.
  split.
  - rewrite !get_eclipse_indices_where. unfold np_where.
    rewrite map_app, np_where_from_app, length_map. simpl.
    rewrite <- np_where_from_shift.
    replace (length phases1 + 0)%nat with (length phases1) by lia. reflexivity.
  - exists (map (in_eclipse pos width) phases1), (map (in_eclipse pos width) phases2).
    rewrite !get_eclipse_mask_map, map_app. repeat split.
Qed.

(** ** Values that are not numbers *)

Lemma SFcompare_refl (u : spec_float) : u <> S754_nan -> SFcompare u u = Some Eq.
Proof.
  destruct u as [s|s| |s m e]; intros Hu; simpl; try congruence; f_equal.
  - destruct s; reflexivity.
  - fold (Pos.compare m m).
    destruct s; rewrite Z.compare_refl, Pos.compare_refl; reflexivity.
Qed.

Lemma isnan_spec (x : float) : Py.isnan x = true <-> Prim2SF x = S754_nan.
Proof.
  unfold Py.isnan, PrimFloat.is_nan. rewrite FloatAxioms.eqb_spec. unfold SFeqb.
  split.
  - intros H. destruct (Prim2SF x) as [s|s| |s m e] eqn:E; [| |reflexivity|];
      rewrite SFcompare_refl in H by discriminate; discriminate H.
  - intros ->. reflexivity.
Qed.

Lemma leb_nan (x y : float) :
  Py.isnan x = true \/ Py.isnan y = true -> PrimFloat.leb x y = false.
Proof.
  rewrite !isnan_spec, FloatAxioms.leb_spec. unfold SFleb.
  intros [-> | ->]; [reflexivity|]. destruct (Prim2SF x); reflexivity.
Qed.

Lemma in_eclipse_nan (pos width p : float) :
  Py.isnan p = true -> in_eclipse pos width p = false.
Proof.
  intros Hp. unfold in_eclipse, Py.ge, Py.le.
  destruct (Py.isnan pos || Py.isnan width || Py.eq width 0); [reflexivity|].
  destruct (Py.gt pos 0.95); [|destruct (Py.lt pos 0.05)];
    rewrite !leb_nan by auto; reflexivity.
Qed.

Lemma in_eclipse_all_nan (pos width : float) (phases : list float) :
  Forall (fun p => Py.isnan p = true) phases ->
  map (in_eclipse pos width) phases = replicate (length phases) false.
Proof.
  induction 1 as [|p l Hp _ IH]; simpl; [reflexivity|].
  rewrite in_eclipse_nan by exact Hp. rewrite IH. reflexivity.
Qed.

(** X5: a sample whose phase is [nan] is never in eclipse: whatever [pos]
    and [width], its position is not in the index array and its mask entry
    is [False]. *)
Theorem nan_phase_is_never_masked
    (phases : list float) (pos width : float) (i : nat) (p : float) :
  phases !! i = Some p -> Py.isnan p = true ->
  (i ∉ get_eclipse_indices phases pos width)
  /\ exists mask,
       get_eclipse_mask phases pos width = Returns mask /\ mask !! i = Some false.
Proof.
  intros Hi Hp. split.
  - rewrite get_eclipse_indices_elem. intros (q & Hq & Hin).
    rewrite Hi in Hq. injection Hq as <-.
    rewrite in_eclipse_nan in Hin by exact Hp. discriminate Hin.
  - exists (map (in_eclipse pos width) phases).
    split; [apply get_eclipse_mask_map|].
    rewrite list_lookup_fmap, Hi. simpl. rewrite in_eclipse_nan by exact Hp.
    reflexivity.
Qed.

Lemma nan_phase_is_never_masked_witness :
  (0%nat ∉ get_eclipse_indices [PrimFloat.nan; 0.5%float] 0.5%float 0.2%float)
  /\ exists mask,
       get_eclipse_mask [PrimFloat.nan; 0.5%float] 0.5%float 0.2%float = Returns mask
       /\ mask !! 0%nat = Some false.
Proof.
  exact (nan_phase_is_never_masked [PrimFloat.nan; 0.5%float] 0.5%float 0.2%float
           0%nat PrimFloat.nan eq_refl eq_refl).
Defined.

(** ** Phases of a degenerate ephemeris *)

Lemma Prim2SF_infinity : Prim2SF PrimFloat.infinity = S754_infinity false.
Proof. reflexivity. Qed.

Lemma is_finite_false (x : float) :
  PrimFloat.is_finite x = false -> nonfinite (Prim2SF x).
Proof.
  unfold PrimFloat.is_finite. intros H. apply negb_false_iff, orb_true_iff in H.
  destruct H as [H | H].
  - apply isnan_spec in H. rewrite H. exact I.
  - unfold PrimFloat.is_infinity in H.
    rewrite FloatAxioms.eqb_spec, abs_spec, Prim2SF_infinity in H.
    destruct (Prim2SF x) as [s|s| |s m e]; simpl in *; try exact I; discriminate H.
Qed.

Lemma is_finite_true (x : float) :
  PrimFloat.is_finite x = true -> ~ nonfinite (Prim2SF x).
Proof.
  unfold PrimFloat.is_finite. intros H Hn.
  apply negb_true_iff, orb_false_iff in H. destruct H as [Hnan Hinf].
  unfold PrimFloat.is_infinity in Hinf.
  rewrite FloatAxioms.eqb_spec, abs_spec, Prim2SF_infinity in Hinf.
  destruct (Prim2SF x) as [s|s| |s m e] eqn:E; simpl in Hn; try contradiction.
  - discriminate Hinf.
  - apply isnan_spec in E. unfold Py.isnan in E. congruence.
Qed.

Lemma eq_zero_spec (x : float) :
  Py.eq x 0 = true <-> exists s, Prim2SF x = S754_zero s.
Proof.
  unfold Py.eq. rewrite FloatAxioms.eqb_spec, Prim2SF_zero. unfold SFeqb.
  destruct (Prim2SF x) as [s|s| |s m e]; simpl;
    (split; [intros H | intros [s' H']]);
    try discriminate; try (destruct s; discriminate); eauto.
Qed.

Lemma SFmul_nonfinite (x y : spec_float) :
  nonfinite x \/ nonfinite y -> nonfinite (SFmul prec emax x y).
Proof.
  destruct x as [sx|sx| |sx mx ex], y as [sy|sy| |sy my ey]; simpl;
    intros [H | H]; try contradiction; exact I.
Qed.

Lemma SFadd_nonfinite (x y : spec_float) :
  nonfinite x \/ nonfinite y -> nonfinite (SFadd prec emax x y).
Proof.
  destruct x as [sx|sx| |sx mx ex], y as [sy|sy| |sy my ey]; simpl;
    intros [H | H]; try contradiction; try exact I;
    destruct sx, sy; exact I.
Qed.

Lemma SFsub_nonfinite (x y : spec_float) :
  nonfinite x \/ nonfinite y -> nonfinite (SFsub prec emax x y).
Proof.
  destruct x as [sx|sx| |sx mx ex], y as [sy|sy| |sy my ey]; simpl;
    intros [H | H]; try contradiction; try exact I;
    destruct sx, sy; exact I.
Qed.

Lemma SFdiv_nonfinite (x y : spec_float) :
  nonfinite x \/ (exists s, y = S754_zero s) ->
  nonfinite (SFdiv prec emax x y).
Proof.
  destruct x as [sx|sx| |sx mx ex], y as [sy|sy| |sy my ey]; simpl;
    intros [H | [s H]]; try contradiction; try discriminate H; exact I.
Qed.

Lemma mod1_nonfinite (x : float) :
  nonfinite (Prim2SF x) -> Py.mod1 x = PrimFloat.nan.
Proof.
  unfold Py.mod1, Py.fmod1.
  destruct (Prim2SF x) as [s|s| |s m e]; simpl; try contradiction; reflexivity.
Qed.

Lemma isnan_nan_add (y : float) : Py.isnan (PrimFloat.nan + y)%float = true.
Proof. apply isnan_spec. rewrite add_spec. reflexivity. Qed.

(** The argument of the remainder is not a finite number as soon as the
    period is zero or one of the inputs is not finite. *)
Lemma quotient_nonfinite (t period t0 centre : float) :
  Py.eq period 0 = true \/ PrimFloat.is_finite period = false
  \/ PrimFloat.is_finite t0 = false \/ PrimFloat.is_finite centre = false
  \/ PrimFloat.is_finite t = false ->
  nonfinite (Prim2SF ((t - (t0 + (centre - 0.5) * period)) / period)%float).
Proof.
  intros H. rewrite div_spec. apply SFdiv_nonfinite.
  destruct H as [H | H]; [right; apply eq_zero_spec; exact H|]. left.
  rewrite sub_spec. apply SFsub_nonfinite.
  destruct H as [H | [H | [H | H]]]; apply is_finite_false in H.
  - right. rewrite add_spec. apply SFadd_nonfinite. right.
    rewrite mul_spec. apply SFmul_nonfinite. right. exact H.
  - right. rewrite add_spec. apply SFadd_nonfinite. left. exact H.
  - right. rewrite add_spec. apply SFadd_nonfinite. right.
    rewrite mul_spec. apply SFmul_nonfinite. left.
    rewrite sub_spec. apply SFsub_nonfinite. left. exact H.
  - left. exact H.
Qed.

Lemma time_to_phase_lookup (times : list float) (period t0 centre : float) (i : nat) :
  time_to_phase times period t0 centre !! i
  = (fun t => Py.mod1 ((t - (t0 + (centre - 0.5) * period)) / period)
              + (centre - 0.5))%float <$> times !! i.
Proof. unfold time_to_phase. simpl. apply list_lookup_fmap. Qed.

(** X6: when the period is zero, or the period, the epoch [t0] or [centre]
    is not a finite number, every phase [time_to_phase] returns is [nan]
    (nothing is raised), and a mask computed from these phases is [False]
    everywhere. *)
Theorem degenerate_ephemeris_masks_nothing
    (times : list float) (period t0 centre : float) :
  Py.eq period 0 = true \/ PrimFloat.is_finite period = false
  \/ PrimFloat.is_finite t0 = false \/ PrimFloat.is_finite centre = false ->
  Forall (fun p => Py.isnan p = true) (time_to_phase times period t0 centre)
  /\ forall pos width,
       get_eclipse_mask (time_to_phase times period t0 centre) pos width
       = Returns (replicate (length times) false).
Proof.
  intros H.
  assert (Hnan : Forall (fun p => Py.isnan p = true)
                        (time_to_phase times period t0 centre)).
  { apply Forall_lookup. intros i p Hp. rewrite time_to_phase_lookup in Hp.
    destruct (times !! i) as [t|]; [|discriminate Hp]. injection Hp as <-.
    rewrite (mod1_nonfinite _ (quotient_nonfinite t period t0 centre ltac:(tauto))).
    apply isnan_nan_add. }
  split; [exact Hnan|]. intros pos width.
  rewrite get_eclipse_mask_map, (in_eclipse_all_nan _ _ _ Hnan).
  unfold time_to_phase. rewrite length_map. reflexivity.
Qed.

Lemma degenerate_ephemeris_masks_nothing_witness :
  Forall (fun p => Py.isnan p = true)
         (time_to_phase [1.5%float; 2.5%float] 0%float 1%float 0.5%float)
  /\ forall pos width,
       get_eclipse_mask (time_to_phase [1.5%float; 2.5%float] 0%float 1%float 0.5%float)
                        pos width
       = Returns (replicate 2 false).
Proof.
  exact (degenerate_ephemeris_masks_nothing [1.5%float; 2.5%float] 0%float 1%float
           0.5%float (or_introl eq_refl)).
Defined.

(** X7: a time stamp that is [nan] or infinite gets a [nan] phase, whatever
    the ephemeris, and is therefore in no eclipse. *)
Theorem nonfinite_time_is_never_masked
    (times : list float) (period t0 centre : float) (i : nat) (t : float) :
  times !! i = Some t -> PrimFloat.is_finite t = false ->
  (exists p, time_to_phase times period t0 centre !! i = Some p
             /\ Py.isnan p = true)
  /\ forall pos width,
       i ∉ get_eclipse_indices (time_to_phase times period t0 centre) pos width.
Proof.
  intros Hi Ht.
  assert (Hp : exists p, time_to_phase times period t0 centre !! i = Some p
                         /\ Py.isnan p = true).
  { rewrite time_to_phase_lookup, Hi. simpl. eexists. split; [reflexivity|].
    rewrite (mod1_nonfinite _ (quotient_nonfinite t period t0 centre ltac:(tauto))).
    apply isnan_nan_add. }
  split; [exact Hp|]. intros pos width.
  destruct Hp as (p & Hl & Hn).
  rewrite get_eclipse_indices_elem. intros (q & Hq & Hin).
  rewrite Hl in Hq. injection Hq as <-.
  rewrite in_eclipse_nan in Hin by exact Hn. discriminate Hin.
Qed.

Lemma nonfinite_time_is_never_masked_witness :
  (exists p, time_to_phase [0.25%float; PrimFloat.infinity] 2%float 0%float 0.5%float
               !! 1%nat = Some p
             /\ Py.isnan p = true)
  /\ forall pos width,
       1%nat ∉ get_eclipse_indices
                 (time_to_phase [0.25%float; PrimFloat.infinity] 2%float 0%float 0.5%float)
                 pos width.
Proof.
  exact (nonfinite_time_is_never_masked [0.25%float; PrimFloat.infinity] 2%float
           0%float 0.5%float 1%nat PrimFloat.infinity eq_refl eq_refl).
Defined.

(** ** The reference epoch *)

Lemma mod1_of_zero (q : float) (s : bool) :
  Prim2SF q = S754_zero s -> Py.mod1 q = 0%float.
Proof.
  intros Hq. unfold Py.mod1, Py.fmod1. rewrite Hq. destruct s; reflexivity.
Qed.

Lemma SFsub_diag (x : spec_float) :
  x <> S754_nan -> ~ nonfinite x -> exists s, SFsub prec emax x x = S754_zero s.
Proof.
  destruct x as [sx|sx| |sx mx ex]; simpl; intros Hn Hf; try contradiction.
  - destruct sx; eauto.
  - rewrite Z.sub_diag. simpl. eauto.
Qed.

(** X8: with the default [centre = 0.5], a sample taken exactly at the
    epoch [t0] has phase [0.0] exactly, for every finite [t0] and every
    finite non-zero period. *)
Theorem reference_epoch_has_phase_zero
    (times : list float) (period t0 : float) (i : nat) :
  PrimFloat.is_finite t0 = true -> PrimFloat.is_finite period = true ->
  Py.eq period 0 = false ->
  times !! i = Some t0 ->
  time_to_phase times period t0 0.5%float !! i = Some 0%float.
Proof.
  intros Ht0 Hper Hnz Hi.
  rewrite time_to_phase_lookup, Hi. simpl. f_equal.
  change (0.5 - 0.5)%float with 0%float.
  apply is_finite_true in Ht0. apply is_finite_true in Hper.
  assert (Hp : exists sp mp ep, Prim2SF period = S754_finite sp mp ep).
  { destruct (Prim2SF period) as [s|s| |s m e] eqn:E; simpl in Hper;
      try (exfalso; apply Hper; exact I); [|eauto].
    exfalso. assert (Py.eq period 0 = true) by (apply eq_zero_spec; eauto).
    congruence. }
  destruct Hp as (sp & mp & ep & Ep).
  assert (Hshift : (t0 + 0 * period)%float = t0
                   \/ exists s s', Prim2SF t0 = S754_zero s
                                   /\ Prim2SF (t0 + 0 * period)%float = S754_zero s').
  { assert (Hm : Prim2SF (t0 + 0 * period)%float
                 = SFadd prec emax (Prim2SF t0) (S754_zero (xorb false sp))).
    { rewrite add_spec, mul_spec, Prim2SF_zero, Ep. reflexivity. }
    destruct (Prim2SF t0) as [s|s| |s m e] eqn:E; simpl in Ht0;
      try (exfalso; apply Ht0; exact I).
    - right. exists s. rewrite Hm. simpl. destruct s, sp; simpl; eauto.
    - left. apply Prim2SF_inj. rewrite Hm, E. reflexivity. }
  assert (Hdiff : exists s, Prim2SF (t0 - (t0 + 0 * period))%float = S754_zero s).
  { destruct Hshift as [-> | (s & s' & E & E')].
    - rewrite sub_spec. apply SFsub_diag; [|exact Ht0].
      intros Hn. apply Ht0. rewrite Hn. exact I.
    - rewrite sub_spec, E, E'. simpl. destruct s, s'; eauto. }
  destruct Hdiff as (s & Hd).
  assert (Hq : Prim2SF ((t0 - (t0 + 0 * period)) / period)%float
               = S754_zero (xorb s sp)).
  { rewrite div_spec, Hd, Ep. reflexivity. }
  rewrite (mod1_of_zero _ _ Hq). reflexivity.
Qed.

Lemma reference_epoch_has_phase_zero_witness :
  time_to_phase [1683.25%float; 1684.5%float] 3.7%float 1684.5%float 0.5%float
    !! 1%nat
  = Some 0%float.
Proof.
  exact (reference_epoch_has_phase_zero [1683.25%float; 1684.5%float] 3.7%float
           1684.5%float 1%nat eq_refl eq_refl eq_refl eq_refl).
Defined.

(** ** An eclipse is one stretch of phase *)

Lemma SFcompare_le_trans x y z :
  SFleb x y = true -> SFleb y z = true -> SFleb x z = true.
Proof.
  unfold SFleb.
  destruct x as [sx|sx| |sx mx ex], y as [sy|sy| |sy my ey], z as [sz|sz| |sz mz ez];
    simpl; try discriminate;
    repeat match goal with s : bool |- _ => destruct s end; simpl;
    try discriminate; try reflexivity.
  all: fold (Pos.compare mx my); fold (Pos.compare my mz); fold (Pos.compare mx mz).
  all: destruct (Z.compare_spec ex ey), (Z.compare_spec ey ez),
         (Pos.compare_spec mx my), (Pos.compare_spec my mz); simpl; try discriminate.
  all: intros _ _.
  all: destruct (Z.compare_spec ex ez), (Pos.compare_spec mx mz);
    simpl; try reflexivity; try lia.
Qed.

Lemma py_le_trans x y z : Py.le x y = true -> Py.le y z = true -> Py.le x z = true.
Proof. unfold Py.le. rewrite !FloatAxioms.leb_spec. apply SFcompare_le_trans. Qed.

(** X10: for an eclipse away from the fold ([0.05 <= pos <= 0.95]) the
    selected samples fill one interval of phase: a sample whose phase lies
    between the phases of two selected samples is selected.  For an eclipse
    at the fold ([pos > 0.95] or [pos < 0.05]) it is the samples left out
    that fill one interval: a sample whose phase lies between the phases of
    two samples that are not selected is not selected. *)
Theorem eclipse_is_one_stretch_of_phase
    (phases : list float) (pos width : float) (i1 i i2 : nat) (p1 p p2 : float) :
  phases !! i1 = Some p1 -> phases !! i = Some p -> phases !! i2 = Some p2 ->
  Py.le p1 p = true -> Py.le p p2 = true ->
  (Py.gt pos 0.95 = false -> Py.lt pos 0.05 = false ->
     i1 ∈ get_eclipse_indices phases pos width ->
     i2 ∈ get_eclipse_indices phases pos width ->
     i ∈ get_eclipse_indices phases pos width)
  /\ (Py.gt pos 0.95 = true \/ Py.lt pos 0.05 = true ->
      i1 ∉ get_eclipse_indices phases pos width ->
      i2 ∉ get_eclipse_indices phases pos width ->
      i ∉ get_eclipse_indices phases pos width).
Proof.
  intros H1 H H2 Hle1 Hle2.
  assert (Hin : forall j q, phases !! j = Some q ->
            (j ∈ get_eclipse_indices phases pos width <-> in_eclipse pos width q = true)).
  { intros j q Hq. rewrite get_eclipse_indices_elem. split.
    - intros (q' & Hq' & Hi). congruence.
    - eauto. }
  rewrite (Hin _ _ H1), (Hin _ _ H), (Hin _ _ H2).
  unfold in_eclipse, Py.ge.
  destruct (Py.isnan pos || Py.isnan width || Py.eq width 0).
  { split; intros; discriminate. }
  split.
  - intros -> ->. rewrite !andb_true_iff. fold (Py.le (pos - width / 2) p1).
    fold (Py.le (pos - width / 2) p). fold (Py.le (pos - width / 2) p2).
    intros [Ha1 Hb1] [Ha2 Hb2]. split.
    + exact (py_le_trans _ _ _ Ha1 Hle1).
    + exact (py_le_trans _ _ _ Hle2 Hb2).
  - assert (Hwrap : forall a b : float,
              (PrimFloat.leb a p1 || Py.le p1 b) <> true ->
              (PrimFloat.leb a p2 || Py.le p2 b) <> true ->
              (PrimFloat.leb a p || Py.le p b) <> true).
    { intros a b Hn1 Hn2 Hp. apply orb_true_iff in Hp. destruct Hp as [Hp | Hp].
      - apply Hn2. apply orb_true_iff. left.
        exact (py_le_trans a p p2 Hp Hle2).
      - apply Hn1. apply orb_true_iff. right.
        exact (py_le_trans p1 p b Hle1 Hp). }
    intros [-> | Hlo].
    + apply Hwrap.
    + destruct (Py.gt pos 0.95); [apply Hwrap|]. rewrite Hlo. apply Hwrap.
Qed.

Lemma eclipse_is_one_stretch_of_phase_witness :
  (1%nat ∈ get_eclipse_indices [0.45; 0.5; 0.55; 0.9]%float 0.5%float 0.2%float)
  /\ (1%nat ∉ get_eclipse_indices [0.3; 0.5; 0.7; 0.99]%float 0.99%float 0.1%float).
Proof.
  split.
  - refine (proj1 (eclipse_is_one_stretch_of_phase [0.45; 0.5; 0.55; 0.9]%float
                     0.5%float 0.2%float 0%nat 1%nat 2%nat 0.45%float 0.5%float
                     0.55%float eq_refl eq_refl eq_refl eq_refl eq_refl)
                  eq_refl eq_refl _ _);
      vm_compute; repeat constructor.
  - refine (proj2 (eclipse_is_one_stretch_of_phase [0.3; 0.5; 0.7; 0.99]%float
                     0.99%float 0.1%float 0%nat 1%nat 2%nat 0.3%float 0.5%float
                     0.7%float eq_refl eq_refl eq_refl eq_refl eq_refl)
                  (or_introl eq_refl) _ _);
      vm_compute; intros Hx;
      repeat (apply elem_of_cons in Hx; destruct Hx as [Hx|Hx]; [discriminate Hx|]);
      apply elem_of_nil in Hx; exact Hx.
Defined.

(** ** Rounding does not cross a binary64 number *)

Lemma shr_1_floor m k mrs :
  0 <= k -> shr_floor m k mrs -> shr_floor m (k + 1) (shr_1 mrs).
Proof.
  intros Hk (H0 & Hle & Hlt). destruct mrs as [mm r s]. simpl in *.
  assert (Hp : 0 < 2 ^ k) by (apply Z.pow_pos_nonneg; lia).
  assert (Hk1 : 2 ^ (k + 1) = 2 * 2 ^ k) by (rewrite Z.pow_add_r by lia; lia).
  unfold shr_floor. rewrite Hk1.
  destruct mm as [|[p|p|]|p]; simpl; try lia.
  all: repeat split; try lia; try nia.
Qed.

Lemma iter_shr_1_floor m (p : positive) : forall k mrs,
  0 <= k -> shr_floor m k mrs ->
  shr_floor m (k + Z.pos p) (SpecFloat.iter_pos shr_1 p mrs).
Proof.
  induction p as [p IH|p IH|]; intros k mrs Hk Hinv; simpl SpecFloat.iter_pos.
  - replace (k + Z.pos p~1) with ((k + 1 + Z.pos p) + Z.pos p) by lia.
    apply IH; [lia|]. apply IH; [lia|]. apply shr_1_floor; assumption.
  - replace (k + Z.pos p~0) with ((k + Z.pos p) + Z.pos p) by lia.
    apply IH; [lia|]. apply IH; assumption.
  - apply shr_1_floor; assumption.
Qed.

(** Shifting to the exponent the format asks for: the exponent reached and
    the quotient kept. *)
Lemma shr_fexp_spec (m e : Z) :
  0 <= m ->
  exists mrs e',
    shr_fexp prec emax m e loc_Exact = (mrs, e')
    /\ e' = Z.max e (fexp prec emax (Zdigits2 m + e))
    /\ shr_inv m (e' - e) mrs
    /\ shr_floor m (e' - e) mrs.
Proof.
  intros Hm. unfold shr_fexp, shr. simpl shr_record_of_loc.
  assert (Hinv0 : shr_inv m 0 {| shr_m := m; shr_r := false; shr_s := false |}).
  { unfold shr_inv. simpl. repeat split; try lia; discriminate. }
  assert (Hfl0 : shr_floor m 0 {| shr_m := m; shr_r := false; shr_s := false |}).
  { unfold shr_floor. simpl. lia. }
  destruct (fexp prec emax (Zdigits2 m + e) - e) as [|p|p] eqn:En.
  - eexists _, _. split; [reflexivity|]. split; [lia|].
    replace (e - e) with 0 by lia. split; assumption.
  - eexists _, _. split; [reflexivity|]. split; [lia|].
    replace (e + Z.pos p - e) with (0 + Z.pos p) by lia.
    split; [apply iter_shr_1_inv | apply iter_shr_1_floor]; (lia || assumption).
  - eexists _, _. split; [reflexivity|]. split; [lia|].
    replace (e - e) with 0 by lia. split; assumption.
Qed.

Lemma Zdigits2_bounds (m : Z) :
  0 < m -> 2 ^ (Zdigits2 m - 1) <= m < 2 ^ Zdigits2 m.
Proof.
  destruct m as [|p|p]; try lia. intros _. simpl. apply digits2_pos_bounds.
Qed.

Lemma Zdigits2_pos (m : Z) : 0 < m -> 0 < Zdigits2 m.
Proof. destruct m; simpl; lia. Qed.

Lemma fexp_mono (z1 z2 : Z) : z1 <= z2 -> fexp prec emax z1 <= fexp prec emax z2.
Proof. unfold fexp, SpecFloat.emin, prec, emax. lia. Qed.

Lemma fexp_lt (z1 z2 : Z) : fexp prec emax z1 < fexp prec emax z2 -> z1 < z2.
Proof. unfold fexp, SpecFloat.emin, prec, emax. lia. Qed.

Lemma fexp_ge (z : Z) : -1074 <= fexp prec emax z.
Proof. unfold fexp, SpecFloat.emin, prec, emax. lia. Qed.

Lemma valid_finite_inv (s : bool) (m : positive) (e : Z) :
  valid_binary (S754_finite s m e) = true ->
  fexp prec emax (Z.pos (digits2_pos m) + e) = e /\ e <= 971 /\ -1074 <= e.
Proof.
  simpl. unfold bounded, canonical_mantissa. intros H.
  apply andb_true_iff in H. destruct H as [Hc Hb].
  apply Z.eqb_eq in Hc. apply Z.leb_le in Hb. unfold emax, prec in Hb.
  split; [exact Hc|]. split; [lia|]. rewrite <- Hc. apply fexp_ge.
Qed.

Lemma ulps_pos (m e : Z) : 0 < m -> -1074 <= e -> 0 < ulps m e.
Proof.
  intros Hm He. unfold ulps.
  assert (0 < 2 ^ (e + 1074)) by (apply Z.pow_pos_nonneg; lia). nia.
Qed.

Lemma ulps_bounds (m e : Z) :
  0 < m -> -1074 <= e ->
  2 ^ (Zdigits2 m - 1 + (e + 1074)) <= ulps m e < 2 ^ (Zdigits2 m + (e + 1074)).
Proof.
  intros Hm He. unfold ulps.
  pose proof (Zdigits2_bounds m Hm) as [Hlo Hhi].
  pose proof (Zdigits2_pos m Hm) as Hd.
  assert (Hp : 0 < 2 ^ (e + 1074)) by (apply Z.pow_pos_nonneg; lia).
  rewrite (Z.pow_add_r 2 (Zdigits2 m - 1) (e + 1074)) by lia.
  rewrite (Z.pow_add_r 2 (Zdigits2 m) (e + 1074)) by lia.
  split; nia.
Qed.

(** A smaller value has no more digits above the binary point. *)
Lemma ulps_le_digits (m e m' e' : Z) :
  0 < m -> 0 < m' -> -1074 <= e -> -1074 <= e' ->
  ulps m e <= ulps m' e' -> Zdigits2 m + e <= Zdigits2 m' + e'.
Proof.
  intros Hm Hm' He He' Hle.
  pose proof (ulps_bounds m e Hm He) as [Hlo _].
  pose proof (ulps_bounds m' e' Hm' He') as [_ Hhi].
  assert (Hlt : 2 ^ (Zdigits2 m - 1 + (e + 1074)) < 2 ^ (Zdigits2 m' + (e' + 1074))) by lia.
  apply Z.pow_lt_mono_r_iff in Hlt; [lia | lia |].
  pose proof (Zdigits2_pos m' Hm'). lia.
Qed.

Lemma ulps_mono (m m' e : Z) : -1074 <= e -> m <= m' -> ulps m e <= ulps m' e.
Proof.
  intros He Hm. unfold ulps.
  assert (0 < 2 ^ (e + 1074)) by (apply Z.pow_pos_nonneg; lia). nia.
Qed.

Lemma ulps_shift (m e k : Z) :
  -1074 <= e -> 0 <= k -> ulps m (e + k) = ulps (m * 2 ^ k) e.
Proof.
  intros He Hk. unfold ulps.
  replace (e + k + 1074) with (k + (e + 1074)) by lia.
  rewrite Z.pow_add_r by lia. ring.
Qed.

Lemma ulps_rescale (m e e' : Z) :
  -1074 <= e -> e <= e' -> ulps m e' = ulps (m * 2 ^ (e' - e)) e.
Proof.
  intros He Hee. rewrite <- ulps_shift by lia. f_equal. lia.
Qed.

Lemma ulps_cancel (m m' e : Z) : -1074 <= e -> ulps m e <= ulps m' e -> m <= m'.
Proof.
  intros He H. unfold ulps in H.
  assert (0 < 2 ^ (e + 1074)) by (apply Z.pow_pos_nonneg; lia). nia.
Qed.

Lemma round_nearest_even_ge (q : Z) (l : location) : q <= round_nearest_even q l.
Proof.
  destruct l as [|[| |]]; simpl; try lia. destruct (Z.even q); lia.
Qed.

(** Dropping the low bits of a value that is at least a binary64 number
    [mx * 2^ex] leaves a value that is still at least that number. *)
Lemma floor_step_lower (m e : Z) (s : bool) (mx : positive) (ex : Z)
    (mrs : shr_record) (e' : Z) :
  0 < m -> -1074 <= e -> valid_binary (S754_finite s mx ex) = true ->
  ulps (Z.pos mx) ex <= ulps m e ->
  e' = Z.max e (fexp prec emax (Zdigits2 m + e)) ->
  shr_floor m (e' - e) mrs ->
  ulps (Z.pos mx) ex <= ulps (shr_m mrs) e'.
Proof.
  intros Hm He Hv Hle He' (H0 & Hlo & Hhi).
  destruct (valid_finite_inv s mx ex Hv) as (Hcan & Hex & Hex').
  set (q := shr_m mrs) in *.
  destruct (Z.eq_dec e' e) as [Heq|Hne].
  { rewrite Heq in *. replace (e - e) with 0 in Hlo, Hhi by lia.
    simpl in Hlo, Hhi. assert (q = m) by lia. subst q. rewrite H. exact Hle. }
  assert (Hn : 0 < e' - e) by lia.
  assert (He1 : e' = fexp prec emax (Zdigits2 m + e)) by lia.
  pose proof (ulps_le_digits (Z.pos mx) ex m e ltac:(lia) Hm Hex' He Hle) as Hd.
  simpl Zdigits2 in Hd.
  assert (Hexe' : ex <= e').
  { rewrite He1, <- Hcan. apply fexp_mono. exact Hd. }
  assert (Hpn : 0 < 2 ^ (e' - e)) by (apply Z.pow_pos_nonneg; lia).
  rewrite (ulps_rescale q e e') by lia.
  destruct (Z.eq_dec ex e') as [Hsame|Hdiff].
  - (* the number lies on the grid of the quotient *)
    assert (Hmx : ulps (Z.pos mx * 2 ^ (e' - e)) e <= ulps m e).
    { rewrite <- (ulps_rescale (Z.pos mx) e e') by lia. rewrite <- Hsame. exact Hle. }
    apply ulps_cancel in Hmx; [|exact He].
    assert (Z.pos mx <= q) by nia.
    rewrite Hsame. rewrite (ulps_rescale (Z.pos mx) e e') by lia.
    apply ulps_mono; [exact He|]. nia.
  - (* the number lies in a lower binade *)
    assert (Hlt : ex < e') by lia.
    assert (Hdlt : Z.pos (digits2_pos mx) + ex < Zdigits2 m + e).
    { apply fexp_lt. rewrite Hcan, <- He1. exact Hlt. }
    assert (He53 : e' = Zdigits2 m + e - 53).
    { rewrite He1. unfold fexp, SpecFloat.emin, prec, emax in *. lia. }
    pose proof (Zdigits2_bounds m Hm) as [Hmlo _].
    assert (Hq : 2 ^ 52 <= q).
    { assert (Hpow : 2 ^ (Zdigits2 m - 1) = 2 ^ 52 * 2 ^ (e' - e)).
      { rewrite <- Z.pow_add_r by lia. f_equal. lia. }
      rewrite Hpow in Hmlo. nia. }
    pose proof (ulps_bounds (Z.pos mx) ex ltac:(lia) Hex') as [_ Hxhi].
    simpl Zdigits2 in Hxhi.
    assert (Hchain : 2 ^ (Z.pos (digits2_pos mx) + (ex + 1074))
                     <= 2 ^ (52 + (e' + 1074))).
    { apply Z.pow_le_mono_r; lia. }
    assert (Hval : 2 ^ (52 + (e' + 1074)) <= ulps (q * 2 ^ (e' - e)) e).
    { rewrite <- (ulps_rescale q e e') by lia.
      unfold ulps. rewrite Z.pow_add_r by lia.
      assert (0 < 2 ^ (e' + 1074)) by (apply Z.pow_pos_nonneg; lia). nia. }
    lia.
Qed.

(** Rounding a value that is at least a binary64 number gives that number
    or more (possibly infinity). *)
Lemma binary_round_aux_lower (sx s : bool) (m e : Z) (mx : positive) (ex : Z) :
  0 < m -> -1074 <= e -> valid_binary (S754_finite s mx ex) = true ->
  ulps (Z.pos mx) ex <= ulps m e ->
  binary_round_aux prec emax sx m e loc_Exact = S754_infinity sx
  \/ exists m2 e2,
       binary_round_aux prec emax sx m e loc_Exact = S754_finite sx m2 e2
       /\ ulps (Z.pos mx) ex <= ulps (Z.pos m2) e2.
Proof.
  intros Hm He Hv Hle. unfold binary_round_aux.
  destruct (valid_finite_inv s mx ex Hv) as (Hcan & Hex & Hex').
  pose proof (ulps_pos (Z.pos mx) ex ltac:(lia) Hex') as HX.
  destruct (shr_fexp_spec m e ltac:(lia)) as (mrs1 & e1 & -> & He1 & _ & Hfl1).
  pose proof (floor_step_lower m e s mx ex mrs1 e1 Hm He Hv Hle He1 Hfl1) as H1.
  assert (He1' : -1074 <= e1) by lia.
  set (m1 := round_nearest_even (shr_m mrs1) (loc_of_shr_record mrs1)).
  assert (Hm1 : ulps (Z.pos mx) ex <= ulps m1 e1).
  { etransitivity; [exact H1|]. apply ulps_mono; [exact He1'|].
    apply round_nearest_even_ge. }
  assert (Hm1pos : 0 < m1).
  { destruct (Z_lt_le_dec 0 m1) as [|Hnp]; [assumption|].
    exfalso. assert (ulps m1 e1 <= ulps 0 e1) by (apply ulps_mono; lia).
    unfold ulps in H at 2. simpl in H. lia. }
  destruct (shr_fexp_spec m1 e1 ltac:(lia)) as (mrs2 & e2 & -> & He2 & _ & Hfl2).
  pose proof (floor_step_lower m1 e1 s mx ex mrs2 e2 Hm1pos He1' Hv Hm1 He2 Hfl2) as H2.
  destruct (shr_m mrs2) as [|p|p] eqn:Em.
  - exfalso. unfold ulps in H2 at 2. simpl in H2. lia.
  - destruct (e2 <=? emax - prec); [right; eauto | left; reflexivity].
  - exfalso. destruct Hfl2 as (H0 & _). rewrite Em in H0. lia.
Qed.

(** Rounding a normalised value that is at most a binary64 number gives
    that number or less. *)
Lemma binary_round_aux_upper (sx s : bool) (m e : Z) (mx : positive) (ex : Z) :
  0 < m -> -1074 <= e -> e <= fexp prec emax (Zdigits2 m + e) ->
  valid_binary (S754_finite s mx ex) = true ->
  ulps m e <= ulps (Z.pos mx) ex ->
  binary_round_aux prec emax sx m e loc_Exact = S754_zero sx
  \/ exists m2 e2,
       binary_round_aux prec emax sx m e loc_Exact = S754_finite sx m2 e2
       /\ ulps (Z.pos m2) e2 <= ulps (Z.pos mx) ex.
Proof.
  intros Hm He Hnorm Hv Hle. unfold binary_round_aux.
  destruct (valid_finite_inv s mx ex Hv) as (Hcan & Hex & Hex').
  destruct (shr_fexp_spec m e ltac:(lia)) as (mrs1 & e1 & -> & He1 & Hinv1 & _).
  assert (He1f : e1 = fexp prec emax (Zdigits2 m + e)) by lia.
  pose proof (ulps_le_digits m e (Z.pos mx) ex Hm ltac:(lia) He Hex' Hle) as Hd.
  simpl Zdigits2 in Hd.
  assert (He1x : e1 <= ex).
  { rewrite He1f, <- Hcan. apply fexp_mono. exact Hd. }
  assert (He1' : -1074 <= e1) by lia.
  set (B := Z.pos mx * 2 ^ (ex - e1)).
  assert (HB : ulps B e1 = ulps (Z.pos mx) ex).
  { unfold B. symmetry. apply ulps_rescale; lia. }
  set (m1 := round_nearest_even (shr_m mrs1) (loc_of_shr_record mrs1)).
  assert (Hm1 : 0 <= m1 <= B).
  { apply (round_nearest_even_bound m (e1 - e)); [lia | exact Hinv1 |].
    apply (ulps_cancel _ _ e He). rewrite <- (ulps_rescale B e e1) by lia.
    rewrite HB. exact Hle. }
  destruct (shr_fexp_spec m1 e1 ltac:(lia)) as (mrs2 & e2 & -> & He2 & _ & (H0 & Hlo2 & _)).
  destruct (shr_m mrs2) as [|p|p] eqn:Em; [left; reflexivity| |lia].
  assert (Hp2 : 0 < 2 ^ (e2 - e1)) by (apply Z.pow_pos_nonneg; lia).
  assert (Hm1pos : 0 < m1) by nia.
  assert (Hval1 : ulps m1 e1 <= ulps (Z.pos mx) ex).
  { rewrite <- HB. apply ulps_mono; lia. }
  assert (Hval2 : ulps (Z.pos p) e2 <= ulps (Z.pos mx) ex).
  { etransitivity; [|exact Hval1].
    rewrite (ulps_rescale (Z.pos p) e1 e2) by lia.
    apply ulps_mono; lia. }
  pose proof (ulps_le_digits m1 e1 (Z.pos mx) ex Hm1pos ltac:(lia) He1' Hex' Hval1) as Hd1.
  simpl Zdigits2 in Hd1.
  assert (He2x : e2 <= 971).
  { pose proof (fexp_mono _ _ Hd1) as Hf. rewrite Hcan in Hf. lia. }
  assert (Hfin : (e2 <=? emax - prec) = true) by (apply Z.leb_le; unfold emax, prec; lia).
  rewrite Hfin. right. eauto.
Qed.

(** *** The sign of a rounded value *)

Lemma shr_1_nonneg (mrs : shr_record) : 0 <= shr_m mrs -> 0 <= shr_m (shr_1 mrs).
Proof. destruct mrs as [[|[p|p|]|p] r s]; simpl; lia. Qed.

Lemma iter_shr_1_nonneg (p : positive) : forall mrs,
  0 <= shr_m mrs -> 0 <= shr_m (SpecFloat.iter_pos shr_1 p mrs).
Proof.
  induction p as [p IH|p IH|]; intros mrs H; simpl.
  - apply IH, IH, shr_1_nonneg, H.
  - apply IH, IH, H.
  - apply shr_1_nonneg, H.
Qed.

Lemma shr_fexp_nonneg (m e : Z) (l : location) :
  0 <= m -> 0 <= shr_m (fst (shr_fexp prec emax m e l)).
Proof.
  intros Hm. unfold shr_fexp, shr.
  assert (H0 : 0 <= shr_m (shr_record_of_loc m l)) by (destruct l as [|[| |]]; exact Hm).
  destruct (fexp prec emax (Zdigits2 m + e) - e); cbn [fst]; auto using iter_shr_1_nonneg.
Qed.

Lemma binary_round_aux_sign (sx : bool) (m e : Z) (l : location) :
  0 <= m -> has_sign sx (binary_round_aux prec emax sx m e l).
Proof.
  intros Hm. unfold binary_round_aux.
  pose proof (shr_fexp_nonneg m e l Hm) as H1.
  destruct (shr_fexp prec emax m e l) as [mrs1 e1]. cbn [fst] in H1.
  pose proof (round_nearest_even_ge (shr_m mrs1) (loc_of_shr_record mrs1)) as Hr.
  pose proof (shr_fexp_nonneg (round_nearest_even (shr_m mrs1) (loc_of_shr_record mrs1))
                e1 loc_Exact ltac:(lia)) as H2.
  destruct (shr_fexp prec emax _ e1 loc_Exact) as [mrs2 e2]. cbn [fst] in H2.
  destruct (shr_m mrs2) as [|p|p]; [reflexivity| |lia].
  destruct (e2 <=? emax - prec); reflexivity.
Qed.

Lemma binary_round_sign (sx : bool) (m0 : positive) (e0 : Z) :
  has_sign sx (binary_round prec emax sx m0 e0).
Proof.
  unfold binary_round. destruct (shl_align m0 e0 _) as [mz ez].
  apply binary_round_aux_sign. lia.
Qed.

Lemma has_sign_nonneg (f : spec_float) : has_sign false f -> nonneg f.
Proof. destruct f; simpl; auto. Qed.

(** *** Rounding an exact sum or difference *)

Lemma digits2_pos_iter_xO (m d : positive) :
  Z.pos (digits2_pos (Pos.iter xO m d)) = Z.pos (digits2_pos m) + Z.pos d.
Proof.
  induction d as [|d IH] using Pos.peano_ind.
  - simpl. lia.
  - rewrite Pos.iter_succ. cbn [digits2_pos]. rewrite !Pos2Z.inj_succ, IH. lia.
Qed.

(** [binary_round] first brings its argument to the exponent of its binade
    (when that is lower), which changes neither the value nor the result. *)
Lemma binary_round_normalises (sx : bool) (m0 : positive) (e0 : Z) :
  -1074 <= e0 ->
  exists (mz : positive) (ez : Z),
    binary_round prec emax sx m0 e0
    = binary_round_aux prec emax sx (Z.pos mz) ez loc_Exact
    /\ ulps (Z.pos mz) ez = ulps (Z.pos m0) e0
    /\ -1074 <= ez
    /\ ez <= fexp prec emax (Zdigits2 (Z.pos mz) + ez).
Proof.
  intros He. unfold binary_round.
  pose proof (fexp_ge (Z.pos (digits2_pos m0) + e0)) as Hf.
  set (f := fexp prec emax (Z.pos (digits2_pos m0) + e0)) in *.
  unfold shl_align. destruct (f - e0) as [|d|d] eqn:Ed.
  - exists m0, e0. split; [reflexivity|]. split; [reflexivity|]. split; [exact He|].
    cbn [Zdigits2]. fold f. lia.
  - exists m0, e0. split; [reflexivity|]. split; [reflexivity|]. split; [exact He|].
    cbn [Zdigits2]. fold f. lia.
  - exists (Pos.iter xO m0 d), f. split; [reflexivity|].
    split.
    { rewrite pos_iter_xO, (ulps_rescale (Z.pos m0) f e0) by lia.
      f_equal. f_equal. f_equal. lia. }
    split; [exact Hf|].
    cbn [Zdigits2]. rewrite digits2_pos_iter_xO.
    replace (Z.pos (digits2_pos m0) + Z.pos d + f)
      with (Z.pos (digits2_pos m0) + e0) by lia.
    fold f. lia.
Qed.

Lemma binary_round_lower (sx s : bool) (m0 : positive) (e0 : Z) (mx : positive) (ex : Z) :
  -1074 <= e0 -> valid_binary (S754_finite s mx ex) = true ->
  ulps (Z.pos mx) ex <= ulps (Z.pos m0) e0 ->
  binary_round prec emax sx m0 e0 = S754_infinity sx
  \/ exists m2 e2,
       binary_round prec emax sx m0 e0 = S754_finite sx m2 e2
       /\ ulps (Z.pos mx) ex <= ulps (Z.pos m2) e2.
Proof.
  intros He Hv Hle.
  destruct (binary_round_normalises sx m0 e0 He) as (mz & ez & -> & Hu & Hez & _).
  apply (binary_round_aux_lower sx s); [lia | exact Hez | exact Hv |].
  rewrite Hu. exact Hle.
Qed.

Lemma binary_round_upper (sx s : bool) (m0 : positive) (e0 : Z) (mx : positive) (ex : Z) :
  -1074 <= e0 -> valid_binary (S754_finite s mx ex) = true ->
  ulps (Z.pos m0) e0 <= ulps (Z.pos mx) ex ->
  binary_round prec emax sx m0 e0 = S754_zero sx
  \/ exists m2 e2,
       binary_round prec emax sx m0 e0 = S754_finite sx m2 e2
       /\ ulps (Z.pos m2) e2 <= ulps (Z.pos mx) ex.
Proof.
  intros He Hv Hle.
  destruct (binary_round_normalises sx m0 e0 He) as (mz & ez & -> & Hu & Hez & Hn).
  apply (binary_round_aux_upper sx s); [lia | exact Hez | exact Hn | exact Hv |].
  rewrite Hu. exact Hle.
Qed.

(** Binary64 numbers of one sign are ordered as their values are. *)
Lemma SFleb_of_ulps (s : bool) (m1 : positive) (e1 : Z) (m2 : positive) (e2 : Z) :
  valid_binary (S754_finite s m1 e1) = true ->
  valid_binary (S754_finite s m2 e2) = true ->
  ulps (Z.pos m1) e1 <= ulps (Z.pos m2) e2 ->
  SFleb (S754_finite false m1 e1) (S754_finite false m2 e2) = true
  /\ SFleb (S754_finite true m2 e2) (S754_finite true m1 e1) = true.
Proof.
  intros Hv1 Hv2 Hle.
  destruct (valid_finite_inv s m1 e1 Hv1) as (Hc1 & _ & He1).
  destruct (valid_finite_inv s m2 e2 Hv2) as (Hc2 & _ & He2).
  pose proof (ulps_le_digits (Z.pos m1) e1 (Z.pos m2) e2
                ltac:(lia) ltac:(lia) He1 He2 Hle) as Hd.
  cbn [Zdigits2] in Hd. apply fexp_mono in Hd. rewrite Hc1, Hc2 in Hd.
  destruct (Z.eq_dec e1 e2) as [<-|Hne].
  - apply ulps_cancel in Hle; [|exact He1]. apply Pos2Z_le_pos in Hle.
    split; [apply SFleb_same_exponent; exact Hle|].
    unfold SFleb, SFcompare. rewrite Z.compare_refl. fold (Pos.compare m2 m1).
    destruct (Pos.compare_spec m2 m1) as [?|Hlt|?]; try reflexivity.
    apply Pos.lt_nle in Hlt. contradiction.
  - split; [apply SFleb_lower_exponent; lia|].
    unfold SFleb, SFcompare.
    assert (Hgt : (e2 ?= e1) = Gt) by (apply Z.compare_gt_iff; lia).
    rewrite Hgt. reflexivity.
Qed.

Lemma shl_align_ulps (mx : positive) (ex ez : Z) :
  -1074 <= ez -> ez <= ex ->
  ulps (Z.pos (fst (shl_align mx ex ez))) ez = ulps (Z.pos mx) ex.
Proof.
  intros Hz Hle. destruct (shl_align_spec mx ex ez Hle) as (mz & -> & Hm).
  cbn [fst]. rewrite Hm. symmetry. apply ulps_rescale; lia.
Qed.

(** Adding a non-negative value to a finite one never gives less. *)
Lemma SFadd_nonneg_ge (x h : spec_float) :
  valid_binary x = true -> valid_binary h = true ->
  ~ nonfinite x -> nonneg h ->
  valid_binary (SFadd prec emax x h) = true ->
  SFleb x (SFadd prec emax x h) = true.
Proof.
  intros Hvx Hvh Hfx Hh.
  destruct x as [sx|sx| |sx mx ex]; try (exfalso; apply Hfx; exact I);
    destruct h as [sh|sh| |sh mh eh]; simpl in Hh; try contradiction; subst.
  - intros _. destruct sx, sh; reflexivity.
  - intros _. reflexivity.
  - intros _. reflexivity.
  - intros _. cbn [SFadd]. unfold SFleb. rewrite SFcompare_refl by discriminate.
    reflexivity.
  - intros _. destruct sx; reflexivity.
  - destruct (valid_finite_inv _ _ _ Hvx) as (_ & _ & Hex).
    destruct (valid_finite_inv _ _ _ Hvh) as (_ & _ & Heh).
    cbn [SFadd].
    set (ez := Z.min ex eh).
    pose proof (shl_align_ulps mx ex ez ltac:(lia) ltac:(lia)) as Hux.
    pose proof (shl_align_ulps mh eh ez ltac:(lia) ltac:(lia)) as Huh.
    set (mx' := fst (shl_align mx ex ez)) in *.
    set (mh' := fst (shl_align mh eh ez)) in *.
    remember (cond_Zopp sx (Z.pos mx') + cond_Zopp false (Z.pos mh')) as M eqn:EM.
    destruct sx.
    + assert (HM : M = Z.pos mh' - Z.pos mx') by (subst M; unfold cond_Zopp; lia).
      clear EM. destruct M as [|p|p]; unfold binary_normalize.
      * intros _. reflexivity.
      * intros _. pose proof (binary_round_sign false p ez) as Hs.
        destruct (binary_round prec emax false p ez); simpl in Hs;
          try contradiction; subst; reflexivity.
      * destruct (binary_round_upper true true p ez mx ex ltac:(lia) Hvx) as
          [-> | (m2 & e2 & -> & Hle)].
        { rewrite <- Hux. apply ulps_mono; lia. }
        { intros _. reflexivity. }
        intros Hvr.
        exact (proj2 (SFleb_of_ulps true m2 e2 mx ex Hvr Hvx Hle)).
    + assert (HM : M = Z.pos mx' + Z.pos mh') by (subst M; unfold cond_Zopp; lia).
      clear EM. destruct M as [|p|p]; try lia. unfold binary_normalize.
      destruct (binary_round_lower false false p ez mx ex ltac:(lia) Hvx) as
        [-> | (m2 & e2 & -> & Hle)].
      { rewrite <- Hux. apply ulps_mono; lia. }
      { intros _. reflexivity. }
      intros Hvr.
      exact (proj1 (SFleb_of_ulps false mx ex m2 e2 Hvx Hvr Hle)).
Qed.

(** Subtracting a non-negative value from a finite one never gives more. *)
Lemma SFsub_nonneg_le (x h : spec_float) :
  valid_binary x = true -> valid_binary h = true ->
  ~ nonfinite x -> nonneg h ->
  valid_binary (SFsub prec emax x h) = true ->
  SFleb (SFsub prec emax x h) x = true.
Proof.
  intros Hvx Hvh Hfx Hh.
  destruct x as [sx|sx| |sx mx ex]; try (exfalso; apply Hfx; exact I);
    destruct h as [sh|sh| |sh mh eh]; simpl in Hh; try contradiction; subst.
  - intros _. destruct sx, sh; reflexivity.
  - intros _. reflexivity.
  - intros _. reflexivity.
  - intros _. cbn [SFsub]. unfold SFleb. rewrite SFcompare_refl by discriminate.
    reflexivity.
  - intros _. destruct sx; reflexivity.
  - destruct (valid_finite_inv _ _ _ Hvx) as (_ & _ & Hex).
    destruct (valid_finite_inv _ _ _ Hvh) as (_ & _ & Heh).
    cbn [SFsub].
    set (ez := Z.min ex eh).
    pose proof (shl_align_ulps mx ex ez ltac:(lia) ltac:(lia)) as Hux.
    pose proof (shl_align_ulps mh eh ez ltac:(lia) ltac:(lia)) as Huh.
    set (mx' := fst (shl_align mx ex ez)) in *.
    set (mh' := fst (shl_align mh eh ez)) in *.
    remember (cond_Zopp sx (Z.pos mx') - cond_Zopp false (Z.pos mh')) as M eqn:EM.
    destruct sx.
    + assert (HM : M = - (Z.pos mx' + Z.pos mh')) by (subst M; unfold cond_Zopp; lia).
      clear EM. destruct M as [|p|p]; try lia. unfold binary_normalize.
      destruct (binary_round_lower true true p ez mx ex ltac:(lia) Hvx) as
        [-> | (m2 & e2 & -> & Hle)].
      { rewrite <- Hux. apply ulps_mono; lia. }
      { intros _. reflexivity. }
      intros Hvr.
      exact (proj2 (SFleb_of_ulps true mx ex m2 e2 Hvx Hvr Hle)).
    + assert (HM : M = Z.pos mx' - Z.pos mh') by (subst M; unfold cond_Zopp; lia).
      clear EM. destruct M as [|p|p]; unfold binary_normalize.
      * intros _. reflexivity.
      * destruct (binary_round_upper false false p ez mx ex ltac:(lia) Hvx) as
          [-> | (m2 & e2 & -> & Hle)].
        { rewrite <- Hux. apply ulps_mono; lia. }
        { intros _. reflexivity. }
        intros Hvr.
        exact (proj1 (SFleb_of_ulps false m2 e2 mx ex Hvr Hvx Hle)).
      * intros _. pose proof (binary_round_sign true p ez) as Hs.
        destruct (binary_round prec emax true p ez); simpl in Hs;
          try contradiction; subst; reflexivity.
Qed.

(** The quotient of a positive value by a positive finite one is not
    negative. *)
Lemma SFdiv_nonneg (w : spec_float) (my : positive) (ey : Z) :
  SFltb (S754_zero false) w = true ->
  nonneg (SFdiv prec emax w (S754_finite false my ey)).
Proof.
  intros Hw. destruct w as [s|s| |s mw ew]; try discriminate Hw.
  - destruct s; [discriminate Hw | reflexivity].
  - destruct s; [discriminate Hw|]. apply has_sign_nonneg.
    cbn [SFdiv xorb]. unfold SFdiv_core_binary.
    set (sh := ew - ey - _).
    set (m' := match sh with Z.pos _ => Z.shiftl (Z.pos mw) sh | 0 => Z.pos mw | Z.neg _ => 0 end).
    assert (Hm' : 0 <= m').
    { unfold m'. destruct sh; try lia. apply Z.shiftl_nonneg. lia. }
    destruct (Z.div_eucl m' (Z.pos my)) as [q r] eqn:Ed.
    assert (Hq : q = m' / Z.pos my) by (unfold Z.div; rewrite Ed; reflexivity).
    apply binary_round_aux_sign. rewrite Hq. apply Z.div_pos; lia.
Qed.

(** *** The mid-eclipse sample *)

Lemma py_lt_zero_positive (w : float) :
  Py.lt 0%float w = true -> SFltb (S754_zero false) (Prim2SF w) = true.
Proof. unfold Py.lt. rewrite FloatAxioms.ltb_spec. intros H. exact H. Qed.

Lemma half_width_nonneg (width : float) :
  Py.lt 0%float width = true -> nonneg (Prim2SF (width / 2)%float).
Proof.
  intros H. apply py_lt_zero_positive in H. rewrite FloatAxioms.div_spec.
  assert (H2 : exists m2 e2, Prim2SF 2%float = S754_finite false m2 e2)
    by (eexists; eexists; reflexivity).
  destruct H2 as (m2 & e2 & ->). apply SFdiv_nonneg. exact H.
Qed.

Lemma add_nonneg_ge (x h : float) :
  PrimFloat.is_finite x = true -> nonneg (Prim2SF h) ->
  Py.le x (x + h)%float = true.
Proof.
  intros Hx Hh. unfold Py.le. rewrite FloatAxioms.leb_spec.
  pose proof (Prim2SF_valid (x + h)) as Hv. rewrite FloatAxioms.add_spec in *.
  apply SFadd_nonneg_ge; auto using Prim2SF_valid, is_finite_true.
Qed.

Lemma sub_nonneg_le (x h : float) :
  PrimFloat.is_finite x = true -> nonneg (Prim2SF h) ->
  Py.le (x - h)%float x = true.
Proof.
  intros Hx Hh. unfold Py.le. rewrite FloatAxioms.leb_spec.
  pose proof (Prim2SF_valid (x - h)) as Hv. rewrite FloatAxioms.sub_spec in *.
  apply SFsub_nonneg_le; auto using Prim2SF_valid, is_finite_true.
Qed.

(** X11: the sample at mid-eclipse is always in eclipse.  For a finite
    [pos] and a [width] greater than zero, every position of [phases] that
    holds the value [pos] is in the index array and is [True] in the mask,
    in each of the three branches and whatever the rounding of
    [pos - width/2] and [pos + width/2] gives. *)
Theorem mid_eclipse_sample_is_masked
    (phases : list float) (pos width : float) (i : nat) :
  phases !! i = Some pos ->
  PrimFloat.is_finite pos = true -> Py.lt 0%float width = true ->
  i ∈ get_eclipse_indices phases pos width
  /\ exists mask,
       get_eclipse_mask phases pos width = Returns mask /\ mask !! i = Some true.
Proof.
  intros Hi Hfin Hw.
  assert (Hin : in_eclipse pos width pos = true).
  { unfold in_eclipse.
    assert (Hpn : Py.isnan pos = false).
    { unfold PrimFloat.is_finite in Hfin.
      apply negb_true_iff, orb_false_iff in Hfin. exact (proj1 Hfin). }
    destruct (py_lt_not_nan _ _ Hw) as [_ Hwn].
    rewrite Hpn, Hwn, (py_lt_neq _ _ Hw). cbn [orb].
    pose proof (half_width_nonneg width Hw) as Hh.
    pose proof (add_nonneg_ge pos _ Hfin Hh) as Hup.
    pose proof (sub_nonneg_le pos _ Hfin Hh) as Hdn.
    unfold Py.ge, Py.le in *.
    destruct (Py.gt pos 0.95); [|destruct (Py.lt pos 0.05)].
    - rewrite Hdn. reflexivity.
    - rewrite Hup. apply orb_true_r.
    - rewrite Hdn, Hup. reflexivity. }
  split.
  - apply get_eclipse_indices_elem. eauto.
  - exists (map (in_eclipse pos width) phases).
    split; [apply get_eclipse_mask_map|].
    rewrite list_lookup_fmap, Hi. simpl. rewrite Hin. reflexivity.
Qed.

Lemma mid_eclipse_sample_is_masked_witness :
  1%nat ∈ get_eclipse_indices [0.2%float; 0.97%float] 0.97%float 0.1%float
  /\ exists mask,
       get_eclipse_mask [0.2%float; 0.97%float] 0.97%float 0.1%float = Returns mask
       /\ mask !! 1%nat = Some true.
Proof.
  exact (mid_eclipse_sample_is_masked [0.2%float; 0.97%float] 0.97%float 0.1%float
           1%nat eq_refl eq_refl eq_refl).
Defined.

(** ** The range of the phases *)

Lemma SFadd_comm (x y : spec_float) : SFadd prec emax x y = SFadd prec emax y x.
Proof.
  destruct x as [sx|sx| |sx mx ex], y as [sy|sy| |sy my ey]; try reflexivity.
  - destruct sx, sy; reflexivity.
  - destruct sx, sy; reflexivity.
  - cbn [SFadd]. rewrite (Z.min_comm ey ex), Z.add_comm. reflexivity.
Qed.

Lemma float_add_comm (x y : float) : (x + y = y + x)%float.
Proof. apply Prim2SF_inj. rewrite !add_spec. apply SFadd_comm. Qed.

Lemma nonneg_of_le_zero (m : float) :
  Py.le 0%float m = true -> nonneg (Prim2SF m).
Proof.
  unfold Py.le. rewrite FloatAxioms.leb_spec. intros H.
  assert (H' : SFleb (S754_zero false) (Prim2SF m) = true) by exact H.
  destruct (Prim2SF m) as [s|s| |s mm em]; try exact I; try discriminate H';
    destruct s; try reflexivity; discriminate H'.
Qed.

(** Adding [start_phase] to a remainder in [[0, 1]] gives [nan] or a value
    that is at least [start_phase]. *)
Lemma add_unit_ge (m d : float) :
  in_unit m -> Py.isnan (m + d)%float = true \/ Py.le d (m + d)%float = true.
Proof.
  intros [Hn | [H0 H1]].
  - left. apply isnan_spec. apply isnan_spec in Hn.
    rewrite add_spec, Hn. reflexivity.
  - rewrite float_add_comm.
    destruct (PrimFloat.is_finite d) eqn:Hfin.
    + right. apply add_nonneg_ge; [exact Hfin|]. apply nonneg_of_le_zero. exact H0.
    + apply is_finite_false in Hfin.
      unfold Py.le in H1. rewrite FloatAxioms.leb_spec in H1.
      assert (H1' : SFleb (Prim2SF m) (S754_finite false 4503599627370496 (-52)) = true)
        by exact H1.
      apply nonneg_of_le_zero in H0.
      destruct (Prim2SF d) as [s|s| |s md ed] eqn:Ed; simpl in Hfin; try contradiction.
      * right. unfold Py.le. rewrite FloatAxioms.leb_spec, add_spec, Ed.
        destruct (Prim2SF m) as [sm|sm| |sm mm em]; simpl in H0; try contradiction.
        -- destruct s; reflexivity.
        -- subst sm. discriminate H1'.
        -- destruct s; reflexivity.
      * left. apply isnan_spec. rewrite add_spec, Ed. reflexivity.
Qed.

(** *** Rounding is monotone *)

Lemma shr_1_exact m k mrs :
  0 <= k -> shr_exact m k mrs -> shr_exact m (k + 1) (shr_1 mrs).
Proof.
  intros Hk. unfold shr_exact. destruct mrs as [q r s]. cbn [shr_m shr_r shr_s].
  assert (Hp : 0 < 2 ^ k) by (apply Z.pow_pos_nonneg; lia).
  assert (Hk1 : 2 ^ (k + 1) = 2 * 2 ^ k) by (rewrite Z.pow_add_r by lia; lia).
  rewrite Hk1. set (P := 2 ^ k) in *. clearbody P.
  intros (H0 & Hrem & -> & ->).
  destruct q as [|[p|p|]|p]; cbn [shr_1 shr_m shr_r shr_s]; try lia.
  all: repeat split; try lia.
  all: repeat match goal with
       | |- context [?a <=? ?b] => destruct (Z.leb_spec a b)
       | |- context [?a =? ?b] => destruct (Z.eqb_spec a b)
       end; cbn [negb andb orb]; try reflexivity; try lia.
Qed.

Lemma iter_shr_1_exact m (p : positive) : forall k mrs,
  0 <= k -> shr_exact m k mrs ->
  shr_exact m (k + Z.pos p) (SpecFloat.iter_pos shr_1 p mrs).
Proof.
  induction p as [p IH|p IH|]; intros k mrs Hk Hinv; simpl SpecFloat.iter_pos.
  - replace (k + Z.pos p~1) with ((k + 1 + Z.pos p) + Z.pos p) by lia.
    apply IH; [lia|]. apply IH; [lia|]. apply shr_1_exact; assumption.
  - replace (k + Z.pos p~0) with ((k + Z.pos p) + Z.pos p) by lia.
    apply IH; [lia|]. apply IH; assumption.
  - apply shr_1_exact; assumption.
Qed.

Lemma shr_fexp_exact (m e : Z) :
  0 <= m ->
  exists mrs e',
    shr_fexp prec emax m e loc_Exact = (mrs, e')
    /\ e' = Z.max e (fexp prec emax (Zdigits2 m + e))
    /\ shr_exact m (e' - e) mrs
    /\ shr_floor m (e' - e) mrs.
Proof.
  intros Hm. unfold shr_fexp, shr. simpl shr_record_of_loc.
  assert (Hex0 : shr_exact m 0 {| shr_m := m; shr_r := false; shr_s := false |}).
  { unfold shr_exact. cbn [shr_m shr_r shr_s]. simpl (2 ^ 0).
    replace (m - m * 1) with 0 by lia. repeat split; try lia; reflexivity. }
  assert (Hfl0 : shr_floor m 0 {| shr_m := m; shr_r := false; shr_s := false |}).
  { unfold shr_floor. simpl. lia. }
  destruct (fexp prec emax (Zdigits2 m + e) - e) as [|p|p] eqn:En.
  - eexists _, _. split; [reflexivity|]. split; [lia|].
    replace (e - e) with 0 by lia. split; assumption.
  - eexists _, _. split; [reflexivity|]. split; [lia|].
    replace (e + Z.pos p - e) with (0 + Z.pos p) by lia.
    split; [apply iter_shr_1_exact | apply iter_shr_1_floor]; (lia || assumption).
  - eexists _, _. split; [reflexivity|]. split; [lia|].
    replace (e - e) with 0 by lia. split; assumption.
Qed.

(** Round-to-nearest-even of two values brought to one exponent keeps their
    order. *)
Lemma round_nearest_even_mono (m1 k1 : Z) (mrs1 : shr_record)
    (m2 k2 : Z) (mrs2 : shr_record) :
  0 <= k1 -> 0 <= k2 ->
  shr_exact m1 k1 mrs1 -> shr_exact m2 k2 mrs2 ->
  m1 * 2 ^ k2 <= m2 * 2 ^ k1 ->
  round_nearest_even (shr_m mrs1) (loc_of_shr_record mrs1)
  <= round_nearest_even (shr_m mrs2) (loc_of_shr_record mrs2).
Proof.
  intros Hk1 Hk2. unfold shr_exact.
  destruct mrs1 as [q1 r1 s1], mrs2 as [q2 r2 s2]. cbn [shr_m shr_r shr_s].
  assert (HP1 : 0 < 2 ^ k1) by (apply Z.pow_pos_nonneg; lia).
  assert (HP2 : 0 < 2 ^ k2) by (apply Z.pow_pos_nonneg; lia).
  set (P1 := 2 ^ k1) in *. set (P2 := 2 ^ k2) in *. clearbody P1 P2.
  intros (H01 & Hr1 & -> & ->) (H02 & Hr2 & -> & ->) Hle.
  assert (Hq : q1 <= q2).
  { assert (Ha : q1 * (P1 * P2) <= m1 * P2) by nia.
    assert (Hb : m2 * P1 < (q2 + 1) * (P1 * P2)) by nia.
    assert (Hc : 0 < P1 * P2) by nia.
    assert (Hd : q1 * (P1 * P2) < (q2 + 1) * (P1 * P2)) by lia.
    apply Z.mul_lt_mono_pos_r in Hd; lia. }
  destruct (Z.eq_dec q1 q2) as [<-|Hne].
  - assert (Hrem : (m1 - q1 * P1) * P2 <= (m2 - q1 * P2) * P1) by lia.
    set (a := m1 - q1 * P1) in *. set (b := m2 - q1 * P2) in *. clearbody a b.
    assert (Hgt : P1 < 2 * a -> P2 < 2 * b) by (intros; nia).
    assert (Hge : P1 <= 2 * a -> P2 <= 2 * b) by (intros; nia).
    unfold loc_of_shr_record, round_nearest_even.
    repeat match goal with
       | |- context [?x <=? ?y] => destruct (Z.leb_spec x y)
       | |- context [?x =? ?y] => destruct (Z.eqb_spec x y)
       end; cbn [negb andb orb]; try lia;
      destruct (Z.even q1); lia.
  - assert (Hlt : q1 + 1 <= q2) by lia.
    assert (Hup : round_nearest_even q1
                    (loc_of_shr_record
                       {| shr_m := q1; shr_r := P1 <=? 2 * (m1 - q1 * P1);
                          shr_s := negb (m1 - q1 * P1 =? 0)
                                   && negb (2 * (m1 - q1 * P1) =? P1) |}) <= q1 + 1).
    { unfold loc_of_shr_record, round_nearest_even.
      destruct (P1 <=? _), (negb _ && negb _); try lia; destruct (Z.even q1); lia. }
    pose proof (round_nearest_even_ge q2
                  (loc_of_shr_record
                     {| shr_m := q2; shr_r := P2 <=? 2 * (m2 - q2 * P2);
                        shr_s := negb (m2 - q2 * P2 =? 0)
                                 && negb (2 * (m2 - q2 * P2) =? P2) |})) as Hlo.
    lia.
Qed.

Lemma round_nearest_even_le (q : Z) (l : location) : round_nearest_even q l <= q + 1.
Proof.
  destruct l as [|[| |]]; simpl; try lia. destruct (Z.even q); lia.
Qed.

Lemma binary_round_aux_finish (sx : bool) (m e : Z) :
  binary_round_aux prec emax sx m e loc_Exact
  = round_finish sx
      (round_nearest_even (shr_m (fst (shr_fexp prec emax m e loc_Exact)))
         (loc_of_shr_record (fst (shr_fexp prec emax m e loc_Exact))))
      (snd (shr_fexp prec emax m e loc_Exact)).
Proof.
  unfold binary_round_aux, round_finish.
  destruct (shr_fexp prec emax m e loc_Exact) as [mrs e1]. reflexivity.
Qed.

Lemma round_finish_sign (sx : bool) (m e : Z) :
  0 <= m -> has_sign sx (round_finish sx m e).
Proof.
  intros Hm. unfold round_finish.
  pose proof (shr_fexp_nonneg m e loc_Exact Hm) as H.
  destruct (shr_fexp prec emax m e loc_Exact) as [mrs e']. cbn [fst] in H.
  destruct (shr_m mrs) as [|p|p]; [reflexivity| |lia].
  destruct (e' <=? emax - prec); reflexivity.
Qed.

Lemma zero_le_has_sign_false (s : bool) (y : spec_float) :
  has_sign false y -> SFleb (S754_zero s) y = true.
Proof. destruct y as [s'|s'| |s' m e]; simpl; intros H; try contradiction; subst; reflexivity. Qed.

Lemma has_sign_true_le (x y : spec_float) :
  has_sign true x -> y = S754_zero false \/ has_sign false y -> SFleb x y = true.
Proof.
  destruct x as [s|s| |s m e]; simpl; intros Hx; try contradiction; subst;
    intros [-> | Hy]; try reflexivity;
    destruct y as [s'|s'| |s' m' e']; simpl in Hy; try contradiction; subst; reflexivity.
Qed.

Lemma ulps_zero (e : Z) : ulps 0 e = 0.
Proof. reflexivity. Qed.

Lemma valid_min_subnormal : valid_binary (S754_finite false 1 (-1074)) = true.
Proof. reflexivity. Qed.

(** Bringing a rounded mantissa to its binade keeps the order of the
    values. *)
Lemma round_finish_mono (a f1 b f2 : Z) :
  0 <= a -> 0 <= b -> -1074 <= f1 -> -1074 <= f2 ->
  (0 < a -> f1 <= fexp prec emax (Zdigits2 a + f1)) ->
  ulps a f1 <= ulps b f2 ->
  valid_binary (round_finish false a f1) = true ->
  valid_binary (round_finish false b f2) = true ->
  SFleb (round_finish false a f1) (round_finish false b f2) = true.
Proof.
  intros Ha Hb Hf1 Hf2 Hnorm Hle.
  pose proof (round_finish_sign false b f2 Hb) as HsB.
  unfold round_finish at 1 3.
  destruct (shr_fexp_spec a f1 Ha) as (mrsA & eA & -> & HeA & _ & (HA0 & HAlo & HAhi)).
  destruct (shr_m mrsA) as [|p|p] eqn:EA; [| |lia].
  { intros _ _. apply zero_le_has_sign_false. exact HsB. }
  assert (HeA' : -1074 <= eA) by lia.
  assert (HpA : 0 < 2 ^ (eA - f1)) by (apply Z.pow_pos_nonneg; lia).
  assert (Hapos : 0 < a) by nia.
  assert (HpX : ulps (Z.pos p) eA <= ulps a f1).
  { rewrite (ulps_rescale (Z.pos p) f1 eA) by lia. apply ulps_mono; lia. }
  assert (Hbpos : 0 < b).
  { destruct (Z_lt_le_dec 0 b) as [|Hb0]; [assumption|]. exfalso.
    assert (b = 0) by lia. subst b. rewrite ulps_zero in Hle.
    pose proof (ulps_pos a f1 Hapos Hf1). lia. }
  unfold round_finish.
  destruct (shr_fexp_spec b f2 Hb) as (mrsB & eB & -> & HeB & _ & HflB).
  pose proof (ulps_le_digits a f1 b f2 Hapos Hbpos Hf1 Hf2 Hle) as Hd.
  pose proof (fexp_mono _ _ Hd) as Hfe.
  destruct (Z.leb_spec eA (emax - prec)) as [HA|HA].
  - intros HvA.
    pose proof (floor_step_lower b f2 false p eA mrsB eB Hbpos Hf2 HvA
                  ltac:(lia) HeB HflB) as HX.
    pose proof (ulps_pos (Z.pos p) eA ltac:(lia) HeA') as HXpos.
    destruct (shr_m mrsB) as [|p'|p'] eqn:EB.
    + rewrite ulps_zero in HX. lia.
    + destruct (eB <=? emax - prec); [|intros _; reflexivity].
      intros HvB. exact (proj1 (SFleb_of_ulps false p eA p' eB HvA HvB HX)).
    + destruct HflB as (H0 & _). lia.
  - intros _.
    pose proof (floor_step_lower b f2 false 1 (-1074) mrsB eB Hbpos Hf2
                  valid_min_subnormal) as HX.
    assert (H1 : ulps (Z.pos 1) (-1074) <= ulps b f2).
    { change (ulps (Z.pos 1) (-1074)) with 1.
      pose proof (ulps_pos b f2 Hbpos Hf2). lia. }
    specialize (HX H1 HeB HflB). change (ulps (Z.pos 1) (-1074)) with 1 in HX.
    specialize (Hnorm Hapos).
    assert (HeBbig : emax - prec < eB) by lia.
    destruct (shr_m mrsB) as [|p'|p'] eqn:EB.
    + rewrite ulps_zero in HX. lia.
    + destruct (Z.leb_spec eB (emax - prec)); [lia|]. intros _. reflexivity.
    + destruct HflB as (H0 & _). lia.
Qed.

Lemma Zdigits2_ge (a n : Z) : 0 < a -> 2 ^ (n - 1) <= a -> n <= Zdigits2 a.
Proof.
  intros Ha Hn. pose proof (Zdigits2_bounds a Ha) as [_ Hhi].
  pose proof (Zdigits2_pos a Ha) as Hd.
  destruct (Z_le_gt_dec n (Zdigits2 a)) as [|Hgt]; [assumption|]. exfalso.
  assert (2 ^ Zdigits2 a <= 2 ^ (n - 1)) by (apply Z.pow_le_mono_r; lia). lia.
Qed.

(** The mantissa rounded at the exponent of its binade stays within the
    binade (its upper end included) and is normalised. *)
Lemma first_round_bounds (m e : Z) (mrs : shr_record) :
  0 < m -> -1074 <= e ->
  e <= fexp prec emax (Zdigits2 m + e) ->
  shr_exact m (fexp prec emax (Zdigits2 m + e) - e) mrs ->
  let f := fexp prec emax (Zdigits2 m + e) in
  let a := round_nearest_even (shr_m mrs) (loc_of_shr_record mrs) in
  0 < a
  /\ f <= fexp prec emax (Zdigits2 a + f)
  /\ 2 ^ (Zdigits2 m + e - 1 + 1074) <= ulps a f <= 2 ^ (Zdigits2 m + e + 1074).
Proof.
  intros Hm He Hnorm Hex. cbv zeta.
  pose proof (Zdigits2_bounds m Hm) as [Hlo Hhi].
  pose proof (Zdigits2_pos m Hm) as Hd.
  pose proof (fexp_ge (Zdigits2 m + e)) as Hf.
  assert (Hk : 0 <= fexp prec emax (Zdigits2 m + e) - e <= Zdigits2 m - 1).
  { unfold fexp, SpecFloat.emin, prec, emax in *. lia. }
  remember (Zdigits2 m) as d eqn:Ed.
  remember (fexp prec emax (d + e)) as f eqn:Ef.
  destruct Hex as (Hq0 & Hrem & _).
  pose proof (round_nearest_even_ge (shr_m mrs) (loc_of_shr_record mrs)) as Hage.
  pose proof (round_nearest_even_le (shr_m mrs) (loc_of_shr_record mrs)) as Hale.
  remember (round_nearest_even (shr_m mrs) (loc_of_shr_record mrs)) as a eqn:Ea.
  clear Ea. remember (shr_m mrs) as q eqn:Eq. clear Eq.
  remember (f - e) as k eqn:Ek.
  assert (HK : 0 < 2 ^ k) by (apply Z.pow_pos_nonneg; lia).
  assert (Hd1 : 2 ^ (d - 1) = 2 ^ (d - 1 - k) * 2 ^ k).
  { rewrite <- Z.pow_add_r by lia. f_equal. lia. }
  assert (Hd2 : 2 ^ d = 2 ^ (d - k) * 2 ^ k).
  { rewrite <- Z.pow_add_r by lia. f_equal. lia. }
  assert (HL : 0 < 2 ^ (d - 1 - k)) by (apply Z.pow_pos_nonneg; lia).
  assert (Hqlo : 2 ^ (d - 1 - k) <= q).
  { rewrite Hd1 in Hlo. nia. }
  assert (Hqhi : q + 1 <= 2 ^ (d - k)).
  { rewrite Hd2 in Hhi. nia. }
  assert (Hapos : 0 < a) by lia.
  split; [exact Hapos|]. split.
  - assert (Hda : d - k <= Zdigits2 a).
    { apply Zdigits2_ge; [exact Hapos|].
      replace (d - k - 1) with (d - 1 - k) by lia. lia. }
    rewrite Ef at 1. apply fexp_mono. lia.
  - assert (HF : 0 < 2 ^ (f + 1074)) by (apply Z.pow_pos_nonneg; lia).
    unfold ulps. split.
    + replace (d + e - 1 + 1074) with ((d - 1 - k) + (f + 1074)) by lia.
      rewrite (Z.pow_add_r 2 (d - 1 - k) (f + 1074)) by lia.
      apply Z.mul_le_mono_nonneg_r; lia.
    + replace (d + e + 1074) with ((d - k) + (f + 1074)) by lia.
      rewrite (Z.pow_add_r 2 (d - k) (f + 1074)) by lia.
      apply Z.mul_le_mono_nonneg_r; lia.
Qed.

(** Rounding to nearest even is monotone on positive values. *)
Lemma binary_round_aux_mono (m1 e1 m2 e2 : Z) :
  0 < m1 -> 0 < m2 -> -1074 <= e1 -> -1074 <= e2 ->
  e1 <= fexp prec emax (Zdigits2 m1 + e1) ->
  e2 <= fexp prec emax (Zdigits2 m2 + e2) ->
  ulps m1 e1 <= ulps m2 e2 ->
  valid_binary (binary_round_aux prec emax false m1 e1 loc_Exact) = true ->
  valid_binary (binary_round_aux prec emax false m2 e2 loc_Exact) = true ->
  SFleb (binary_round_aux prec emax false m1 e1 loc_Exact)
        (binary_round_aux prec emax false m2 e2 loc_Exact) = true.
Proof.
  intros Hm1 Hm2 He1 He2 Hn1 Hn2 Hle.
  rewrite !binary_round_aux_finish.
  destruct (shr_fexp_exact m1 e1 ltac:(lia)) as (mrs1 & f1 & -> & Hf1 & Hex1 & _).
  destruct (shr_fexp_exact m2 e2 ltac:(lia)) as (mrs2 & f2 & -> & Hf2 & Hex2 & _).
  cbn [fst snd].
  assert (Hf1' : f1 = fexp prec emax (Zdigits2 m1 + e1)) by lia.
  assert (Hf2' : f2 = fexp prec emax (Zdigits2 m2 + e2)) by lia.
  pose proof Hex1 as Hb1. rewrite Hf1' in Hb1.
  apply (first_round_bounds m1 e1 mrs1 Hm1 He1 Hn1) in Hb1.
  pose proof Hex2 as Hb2. rewrite Hf2' in Hb2.
  apply (first_round_bounds m2 e2 mrs2 Hm2 He2 Hn2) in Hb2.
  cbv zeta in Hb1, Hb2. rewrite <- Hf1' in Hb1. rewrite <- Hf2' in Hb2.
  destruct Hb1 as (Ha & Hna & Ha1 & Ha2). destruct Hb2 as (Hb & Hnb & Hb1 & Hb2).
  pose proof (ulps_le_digits m1 e1 m2 e2 Hm1 Hm2 He1 He2 Hle) as Hd.
  pose proof (fexp_mono _ _ Hd) as Hfe. rewrite <- Hf1', <- Hf2' in Hfe.
  apply round_finish_mono; [lia | lia | lia | lia | intros _; exact Hna |].
  destruct (Z.eq_dec f1 f2) as [Heq|Hne].
  -
    assert (Hge1 : e1 <= f1) by lia. assert (Hge2 : e2 <= f2) by lia.
      clear Hf2 Hf2' Hfe. subst f2.
      apply ulps_mono; [lia|].
      apply (round_nearest_even_mono m1 (f1 - e1) mrs1 m2 (f1 - e2) mrs2);
        try lia; try assumption.
      unfold ulps in Hle.
      assert (HE1 : 0 < 2 ^ (e1 + 1074)) by (apply Z.pow_pos_nonneg; lia).
      assert (HE2 : 0 < 2 ^ (e2 + 1074)) by (apply Z.pow_pos_nonneg; lia).
      assert (HF1 : 2 ^ (f1 + 1074) = 2 ^ (f1 - e1) * 2 ^ (e1 + 1074)).
      { rewrite <- Z.pow_add_r by lia. f_equal. lia. }
      assert (HF2 : 2 ^ (f1 + 1074) = 2 ^ (f1 - e2) * 2 ^ (e2 + 1074)).
      { rewrite <- Z.pow_add_r by lia. f_equal. lia. }
      assert (HF : 0 < 2 ^ (f1 + 1074)) by (apply Z.pow_pos_nonneg; lia).
      set (E1 := 2 ^ (e1 + 1074)) in *. set (E2 := 2 ^ (e2 + 1074)) in *.
      set (K1 := 2 ^ (f1 - e1)) in *. set (K2 := 2 ^ (f1 - e2)) in *.
      set (F := 2 ^ (f1 + 1074)) in *.
      assert (Hx : (m1 * K2) * (E1 * E2) <= (m2 * K1) * (E1 * E2)).
      { replace (m1 * K2 * (E1 * E2)) with (m1 * E1 * (K2 * E2)) by ring.
        replace (m2 * K1 * (E1 * E2)) with (m2 * E2 * (K1 * E1)) by ring.
        rewrite <- HF1, <- HF2. apply Z.mul_le_mono_nonneg_r; lia. }
      apply Z.mul_le_mono_pos_r in Hx; [exact Hx | nia].
  - assert (Hlt : f1 < f2) by lia.
      rewrite Hf1', Hf2' in Hlt. apply fexp_lt in Hlt.
      assert (Hp : 2 ^ (Zdigits2 m1 + e1 + 1074) <= 2 ^ (Zdigits2 m2 + e2 - 1 + 1074)).
      { apply Z.pow_le_mono_r; lia. }
      lia.
Qed.

Lemma binary_round_mono (m1 : positive) (e1 : Z) (m2 : positive) (e2 : Z) :
  -1074 <= e1 -> -1074 <= e2 ->
  ulps (Z.pos m1) e1 <= ulps (Z.pos m2) e2 ->
  valid_binary (binary_round prec emax false m1 e1) = true ->
  valid_binary (binary_round prec emax false m2 e2) = true ->
  SFleb (binary_round prec emax false m1 e1) (binary_round prec emax false m2 e2) = true.
Proof.
  intros He1 He2 Hle.
  destruct (binary_round_normalises false m1 e1 He1) as (mz1 & ez1 & -> & Hu1 & Hz1 & Hn1).
  destruct (binary_round_normalises false m2 e2 He2) as (mz2 & ez2 & -> & Hu2 & Hz2 & Hn2).
  apply binary_round_aux_mono; try lia; try assumption.
Qed.

Lemma binary_round_opp (m : positive) (e : Z) :
  binary_round prec emax true m e = SFopp (binary_round prec emax false m e).
Proof.
  unfold binary_round. destruct (shl_align m e _) as [mz ez].
  unfold binary_round_aux.
  destruct (shr_fexp prec emax (Z.pos mz) ez loc_Exact) as [mrs1 e1].
  destruct (shr_fexp prec emax _ e1 loc_Exact) as [mrs2 e2].
  destruct (shr_m mrs2); try reflexivity.
  destruct (e2 <=? emax - prec); reflexivity.
Qed.

Lemma valid_opp (x : spec_float) : valid_binary (SFopp x) = valid_binary x.
Proof. destruct x; reflexivity. Qed.

(** The order of two positive binary64 numbers is the order of their
    values. *)
Lemma ulps_of_SFleb (m1 : positive) (e1 : Z) (m2 : positive) (e2 : Z) :
  valid_binary (S754_finite false m1 e1) = true ->
  valid_binary (S754_finite false m2 e2) = true ->
  SFleb (S754_finite false m1 e1) (S754_finite false m2 e2) = true ->
  ulps (Z.pos m1) e1 <= ulps (Z.pos m2) e2.
Proof.
  intros Hv1 Hv2. unfold SFleb, SFcompare.
  destruct (valid_finite_inv false m1 e1 Hv1) as (Hc1 & _ & He1).
  destruct (valid_finite_inv false m2 e2 Hv2) as (Hc2 & _ & He2).
  destruct (Z.compare_spec e1 e2) as [Heq|Hlt|Hgt].
  - subst e2. fold (Pos.compare m1 m2).
    destruct (Pos.compare_spec m1 m2) as [Hm|Hm|Hm]; intros H; try discriminate H;
      apply ulps_mono; lia.
  - intros _.
    assert (Hd : Z.pos (digits2_pos m1) + e1 < Z.pos (digits2_pos m2) + e2).
    { apply fexp_lt. rewrite Hc1, Hc2. exact Hlt. }
    pose proof (ulps_bounds (Z.pos m1) e1 ltac:(lia) He1) as [_ H1].
    pose proof (ulps_bounds (Z.pos m2) e2 ltac:(lia) He2) as [H2 _].
    cbn [Zdigits2] in H1, H2.
    assert (Hp : 2 ^ (Z.pos (digits2_pos m1) + (e1 + 1074))
                 <= 2 ^ (Z.pos (digits2_pos m2) - 1 + (e2 + 1074))).
    { apply Z.pow_le_mono_r; lia. }
    lia.
  - intros H. discriminate H.
Qed.

Lemma SFleb_opp (x y : spec_float) :
  has_sign false x -> has_sign false y ->
  valid_binary x = true -> valid_binary y = true ->
  SFleb x y = true -> SFleb (SFopp y) (SFopp x) = true.
Proof.
  intros Hx Hy Hvx Hvy H.
  destruct x as [sx|sx| |sx mx ex]; simpl in Hx; try contradiction; subst;
    destruct y as [sy|sy| |sy my ey]; simpl in Hy; try contradiction; subst;
    try reflexivity; try discriminate H.
  apply ulps_of_SFleb in H; try assumption.
  exact (proj2 (SFleb_of_ulps false mx ex my ey Hvx Hvy H)).
Qed.

Lemma ulps_neg (p : positive) (e : Z) : ulps (Z.neg p) e = - ulps (Z.pos p) e.
Proof. unfold ulps. rewrite <- Pos2Z.opp_pos. ring. Qed.

Lemma ulps_add (x y e : Z) : ulps (x + y) e = ulps x e + ulps y e.
Proof. unfold ulps. ring. Qed.

Lemma ulps_cond_Zopp (s : bool) (x e : Z) :
  ulps (cond_Zopp s x) e = cond_Zopp s (ulps x e).
Proof. destruct s; unfold ulps, cond_Zopp; ring. Qed.

(** Rounding a signed value to nearest even is monotone. *)
Lemma binary_normalize_mono (M1 e1 M2 e2 : Z) :
  -1074 <= e1 -> -1074 <= e2 ->
  ulps M1 e1 <= ulps M2 e2 ->
  valid_binary (binary_normalize prec emax M1 e1 false) = true ->
  valid_binary (binary_normalize prec emax M2 e2 false) = true ->
  SFleb (binary_normalize prec emax M1 e1 false)
        (binary_normalize prec emax M2 e2 false) = true.
Proof.
  intros He1 He2 Hle.
  destruct M1 as [|p1|p1], M2 as [|p2|p2]; unfold binary_normalize;
    rewrite ?ulps_neg, ?ulps_zero in Hle;
    try pose proof (ulps_pos (Z.pos p1) e1 ltac:(lia) He1);
    try pose proof (ulps_pos (Z.pos p2) e2 ltac:(lia) He2);
    try lia.
  - intros _ _. reflexivity.
  - intros _ _. apply zero_le_has_sign_false, binary_round_sign.
  - apply binary_round_mono; assumption.
  - intros _ _. apply has_sign_true_le; [apply binary_round_sign | left; reflexivity].
  - intros _ _.
    apply has_sign_true_le; [apply binary_round_sign | right; apply binary_round_sign].
  - rewrite !binary_round_opp, !valid_opp. intros Hv1 Hv2.
    apply SFleb_opp; try apply binary_round_sign; try assumption.
    apply binary_round_mono; try assumption. lia.
Qed.

Lemma SFadd_finite_ulps (sx : bool) (mx : positive) (ex : Z)
    (sy : bool) (my : positive) (ey : Z) :
  -1074 <= ex -> -1074 <= ey ->
  exists M ez,
    SFadd prec emax (S754_finite sx mx ex) (S754_finite sy my ey)
    = binary_normalize prec emax M ez false
    /\ -1074 <= ez
    /\ ulps M ez = cond_Zopp sx (ulps (Z.pos mx) ex) + cond_Zopp sy (ulps (Z.pos my) ey).
Proof.
  intros Hx Hy. eexists _, (Z.min ex ey). split; [reflexivity|]. split; [lia|].
  rewrite ulps_add, !ulps_cond_Zopp, !shl_align_ulps by lia. reflexivity.
Qed.

(** Binary64 addition is monotone in its first argument, here for
    non-negative values. *)
Lemma SFadd_mono_nonneg (a b d : spec_float) :
  valid_binary a = true -> valid_binary b = true -> valid_binary d = true ->
  nonneg a -> ~ nonfinite b -> SFleb a b = true ->
  valid_binary (SFadd prec emax a d) = true ->
  valid_binary (SFadd prec emax b d) = true ->
  SFadd prec emax a d = S754_nan
  \/ SFleb (SFadd prec emax a d) (SFadd prec emax b d) = true.
Proof.
  intros Hva Hvb Hvd Ha Hb Hab.
  destruct d as [sd|sd| |sd md ed].
  4:{ (* a finite addend *)
    destruct (valid_finite_inv _ _ _ Hvd) as (_ & _ & Hed).
    destruct a as [sa|sa| |sa ma ea]; simpl in Ha; try contradiction; subst;
      destruct b as [sb|sb| |sb mb eb]; try (exfalso; apply Hb; exact I);
      try discriminate Hab.
    - intros _ _. right. cbn [SFadd]. unfold SFleb.
      rewrite SFcompare_refl by discriminate. reflexivity.
    - intros _ Hv. right.
      change (SFadd prec emax (S754_zero sa) (S754_finite sd md ed))
        with (S754_finite sd md ed).
      rewrite SFadd_comm in Hv |- *.
      assert (Hsb : sb = false) by (destruct sb; [discriminate Hab | reflexivity]).
      subst sb.
      apply SFadd_nonneg_ge; first [assumption | intros [] | reflexivity].
    - assert (Hsb : sb = false) by (destruct sb; [discriminate Hab | reflexivity]).
      subst sb.
      destruct (valid_finite_inv _ _ _ Hva) as (_ & _ & Hea).
      destruct (valid_finite_inv _ _ _ Hvb) as (_ & _ & Heb).
      pose proof (ulps_of_SFleb ma ea mb eb Hva Hvb Hab) as Hu.
      destruct (SFadd_finite_ulps false ma ea sd md ed Hea Hed) as (M1 & z1 & -> & Hz1 & HM1).
      destruct (SFadd_finite_ulps false mb eb sd md ed Heb Hed) as (M2 & z2 & -> & Hz2 & HM2).
      intros Hv1 Hv2. right.
      apply binary_normalize_mono; try assumption.
      rewrite HM1, HM2. cbn [cond_Zopp]. lia. }
  - (* adding a zero *)
    intros _ _. right.
    destruct a as [sa|sa| |sa ma ea]; simpl in Ha; try contradiction; subst;
      destruct b as [sb|sb| |sb mb eb]; try (exfalso; apply Hb; exact I);
      try discriminate Hab.
    + destruct sa, sb, sd; reflexivity.
    + destruct sb; [discriminate Hab|]. destruct sa, sd; reflexivity.
    + exact Hab.
  - (* adding an infinity *)
    intros _ _. right.
    destruct a as [sa|sa| |sa ma ea]; simpl in Ha; try contradiction; subst;
      destruct b as [sb|sb| |sb mb eb]; try (exfalso; apply Hb; exact I);
      try discriminate Hab; destruct sd; reflexivity.
  - intros _ _. left. destruct a; reflexivity.
Qed.

(** Adding [start_phase] to a remainder in [[0, 1]] gives [nan] or at most
    what adding it to 1.0 gives. *)
Lemma add_unit_le (m d : float) :
  in_unit m ->
  Py.isnan (m + d)%float = true \/ Py.le (m + d)%float (1 + d)%float = true.
Proof.
  intros [Hn | [H0 H1]].
  - left. apply isnan_spec. apply isnan_spec in Hn.
    rewrite add_spec, Hn. reflexivity.
  - assert (Hle : SFleb (Prim2SF m) (Prim2SF 1%float) = true).
    { unfold Py.le in H1. rewrite FloatAxioms.leb_spec in H1. exact H1. }
    destruct (SFadd_mono_nonneg (Prim2SF m) (Prim2SF 1%float) (Prim2SF d)
                (Prim2SF_valid m) (Prim2SF_valid 1%float) (Prim2SF_valid d)
                (nonneg_of_le_zero m H0) (is_finite_true 1%float eq_refl) Hle)
      as [H | H].
    + rewrite <- add_spec. apply Prim2SF_valid.
    + rewrite <- add_spec. apply Prim2SF_valid.
    + left. apply isnan_spec. rewrite add_spec. exact H.
    + right. unfold Py.le. rewrite FloatAxioms.leb_spec, !add_spec. exact H.
Qed.

Lemma time_to_phase_length (times : list float) (period t0 centre : float) :
  length (time_to_phase times period t0 centre) = length times.
Proof. unfold time_to_phase. simpl. apply length_map. Qed.

(** C6, amended: [time_to_phase] returns one phase per time, the phase of
    [t] being [((t - t0') / period) % 1.0 + (centre - 0.5)] with
    [t0' = t0 + (centre - 0.5) * period], every operation the binary64 one.
    Whatever the period, the epoch and the centre, each phase is [nan] or
    lies in the closed interval from [centre - 0.5] to
    [1.0 + (centre - 0.5)], both ends computed in binary64; with the default
    [centre = 0.5] this is the closed interval [[0, 1]]. *)
Theorem time_to_phase_contract (times : list float) (period t0 centre : float) :
  length (time_to_phase times period t0 centre) = length times
  /\ (forall (i : nat) (t : float), times !! i = Some t ->
        time_to_phase times period t0 centre !! i
        = Some (Py.mod1 ((t - (t0 + (centre - 0.5) * period)) / period)
                + (centre - 0.5))%float)
  /\ Forall (fun p => Py.isnan p = true
                      \/ (Py.le (centre - 0.5)%float p = true
                          /\ Py.le p (1 + (centre - 0.5))%float = true))
            (time_to_phase times period t0 centre)
  /\ Forall in_unit (time_to_phase times period t0 0.5%float).
Proof.
  split; [apply time_to_phase_length|]. split.
  { intros i t Ht. rewrite time_to_phase_lookup, Ht. reflexivity. }
  assert (Hrange : forall c : float,
            Forall (fun p => Py.isnan p = true
                             \/ (Py.le (c - 0.5)%float p = true
                                 /\ Py.le p (1 + (c - 0.5))%float = true))
                   (time_to_phase times period t0 c)).
  { intros c. apply Forall_forall. intros p Hp.
    apply list_elem_of_lookup in Hp. destruct Hp as [i Hi].
    rewrite time_to_phase_lookup in Hi.
    destruct (times !! i) as [t|]; [|discriminate Hi].
    injection Hi as <-.
    pose proof (mod1_in_unit ((t - (t0 + (c - 0.5) * period)) / period)%float) as Hm.
    destruct (add_unit_ge _ (c - 0.5)%float Hm) as [Hn | Hlo]; [left; exact Hn|].
    destruct (add_unit_le _ (c - 0.5)%float Hm) as [Hn | Hhi]; [left; exact Hn|].
    right. split; assumption. }
  split; [apply Hrange|].
  eapply Forall_impl; [apply (Hrange 0.5%float)|].
  intros p [Hn | [Hlo Hhi]]; [left; exact Hn|]. right. split; assumption.
Qed.

(** The closed interval cannot be stated with the upper end [centre + 0.5]
    for every centre: where the spacing of binary64 numbers exceeds 1, the
    sum [1.0 + (centre - 0.5)] rounds above [centre + 0.5]. *)
Example time_to_phase_large_centre :
  time_to_phase [(-1e-20)%float] 1%float (-9007199254740994)%float
                9007199254740994%float
  = [9007199254740996%float]
  /\ Py.le 9007199254740996%float (9007199254740994 + 0.5)%float = false.
Proof. split; reflexivity. Qed.

(** ** The pipeline: effects of the methods *)

Section PipelineFacts.

Context {World Table Snippet MaskKw : Type}.
Context (col : collaborators World Table Snippet MaskKw).

Abbreviation obj := (pipeline World Table).
Abbreviation ev := (event Snippet MaskKw).
Abbreviation meth := (M World Table Snippet MaskKw).

Lemma same_setup_refl (s : obj) : same_setup s s.
Proof. repeat split. Qed.

Lemma same_setup_trans (s1 s2 s3 : obj) :
  same_setup s1 s2 -> same_setup s2 s3 -> same_setup s1 s3.
Proof.
  unfold same_setup. intros (a1 & a2 & a3 & a4) (b1 & b2 & b3 & b4).
  repeat split; congruence.
Qed.

Lemma stores_app (e1 e2 : list ev) : stores (e1 ++ e2) = stores e1 ++ stores e2.
Proof. apply omap_app. Qed.

Lemma stages_app (e1 e2 : list ev) : stages (e1 ++ e2) = stages e1 ++ stages e2.
Proof. apply omap_app. Qed.

Lemma raised_app (e1 e2 : list ev) : raised (e1 ++ e2) = raised e1 ++ raised e2.
Proof. apply omap_app. Qed.

Lemma vet_sources_app (e1 e2 : list ev) :
  vet_sources (e1 ++ e2) = vet_sources e1 ++ vet_sources e2.
Proof. apply omap_app. Qed.

Lemma effects_nil (s : obj) : effects s s ([] : list ev).
Proof.
  split; [apply same_setup_refl|]. split; [reflexivity|].
  intros k Hk. cbn in Hk. apply elem_of_nil in Hk. destruct Hk.
Qed.

Lemma effects_app (s1 s2 s3 : obj) (e1 e2 : list ev) :
  effects s1 s2 e1 -> effects s2 s3 e2 -> effects s1 s3 (e1 ++ e2).
Proof.
  intros (F1 & U1 & S1) (F2 & U2 & S2).
  split; [eapply same_setup_trans; eassumption|].
  split; intros k; rewrite stores_app, elem_of_app.
  - intros Hk. rewrite U2, U1; tauto.
  - intros Hk. destruct (decide (k ∈ stores e2)) as [H2|H2].
    + apply S2. exact H2.
    + rewrite U2 by exact H2. apply S1. tauto.
Qed.

Lemma has_effects_bind {A B} (m : meth A) (k : A -> meth B) :
  has_effects m -> (forall a, has_effects (k a)) -> has_effects (bind m k).
Proof.
  intros Hm Hk s r s' evs. unfold bind.
  destruct (m s) as [[[a|e] s1] e1] eqn:E1.
  - destruct (k a s1) as [[r2 s2] e2] eqn:E2. intros [= <- <- <-].
    eapply effects_app; [eapply Hm | eapply Hk]; eassumption.
  - intros [= <- <- <-]. eapply Hm; eassumption.
Qed.

Lemma has_effects_ret {A} (a : A) : has_effects (ret (Snippet:=Snippet) (MaskKw:=MaskKw) a : meth A).
Proof. intros s r s' evs [= <- <- <-]. apply effects_nil. Qed.

Lemma has_effects_raise {A} e : has_effects (raise e : meth A).
Proof. intros s r s' evs [= <- <- <-]. apply effects_nil. Qed.

Lemma has_effects_get_self : has_effects (get_self : meth obj).
Proof. intros s r s' evs [= <- <- <-]. apply effects_nil. Qed.

Lemma has_effects_logger lvl msg : has_effects (logger lvl msg : meth unit).
Proof.
  intros s r s' evs [= <- <- <-].
  split; [apply same_setup_refl|]. split; [reflexivity|].
  intros k Hk. cbn in Hk. apply elem_of_nil in Hk. destruct Hk.
Qed.

Lemma has_effects_store key table : has_effects (store key table : meth unit).
Proof.
  intros s r s' evs [= <- <- <-].
  split; [repeat split|]. cbn. split; intros k Hk.
  - rewrite lookup_insert_ne; [reflexivity|]. intros ->. apply Hk. left.
  - apply list_elem_of_singleton in Hk. subst. rewrite lookup_insert_eq. eauto.
Qed.

Lemma has_effects_invoke {A} c (f : World -> outcome A * World) :
  has_effects (invoke c f : meth A).
Proof.
  intros s r s' evs. unfold invoke. destruct (f (world s)) as [r0 w].
  intros [= <- <- <-].
  split; [repeat split|].
  split; [reflexivity|].
  intros k Hk. destruct r0; cbn in Hk; apply elem_of_nil in Hk; destruct Hk.
Qed.


Ltac effects_auto :=
  repeat first
    [ apply has_effects_bind; [|intros ?]
    | apply has_effects_ret | apply has_effects_raise | apply has_effects_get_self
    | apply has_effects_logger | apply has_effects_store | apply has_effects_invoke
    | match goal with
      | |- has_effects (match ?x with _ => _ end) => destruct x
      end ].

Lemma has_effects_mask_eclipses kw : has_effects (mask_eclipses col kw).
Proof. unfold mask_eclipses. effects_auto. Qed.

Lemma has_effects_find_transits o d p : has_effects (find_transits col o d p).
Proof. unfold find_transits. effects_auto. Qed.

Lemma has_effects_vet_candidates es d o od :
  has_effects (vet_candidates col es d o od).
Proof. unfold vet_candidates. effects_auto. Qed.

Lemma has_effects_run_injection_retrieval n o d :
  has_effects (run_injection_retrieval col n o d).
Proof. unfold run_injection_retrieval. effects_auto. Qed.

Lemma has_effects_prepare_vet_kwargs fs vk :
  has_effects (prepare_vet_kwargs fs vk : meth _).
Proof. unfold prepare_vet_kwargs. effects_auto. Qed.

Lemma has_effects_run_transit_finding f kw :
  has_effects (run_transit_finding col f kw).
Proof.
  unfold run_transit_finding, find_transits_with. effects_auto.
Qed.

Lemma has_effects_run_vetting f v kw : has_effects (run_vetting col f v kw).
Proof.
  unfold run_vetting, vet_candidates_with. effects_auto.
  apply has_effects_prepare_vet_kwargs.
Qed.

Lemma has_effects_run_injection i kw : has_effects (run_injection col i kw).
Proof.
  unfold run_injection, run_injection_retrieval_with. effects_auto.
Qed.

Lemma has_effects_run f v i kw : has_effects (run col f v i kw).
Proof.
  unfold run. effects_auto.
  all: first [ apply has_effects_mask_eclipses | apply has_effects_run_transit_finding
             | apply has_effects_run_vetting | apply has_effects_run_injection ].
Qed.

(** Every public operation has these effects. *)
Lemma exec_effects op (s : obj) :
  effects s (fst (exec col op s)) (snd (exec col op s)).
Proof.
  destruct op as [f v i kw|kw|o d p|es d o od|n o d]; simpl.
  - destruct (run col f v i kw s) as [[r s'] evs] eqn:E.
    exact (has_effects_run _ _ _ _ _ _ _ _ E).
  - destruct (mask_eclipses col kw s) as [[r s'] evs] eqn:E.
    exact (has_effects_mask_eclipses _ _ _ _ _ E).
  - destruct (find_transits col o d p s) as [[r s'] evs] eqn:E.
    exact (has_effects_find_transits _ _ _ _ _ _ _ E).
  - destruct (vet_candidates col es d o od s) as [[r s'] evs] eqn:E.
    exact (has_effects_vet_candidates _ _ _ _ _ _ _ _ E).
  - destruct (run_injection_retrieval col n o d s) as [[r s'] evs] eqn:E.
    exact (has_effects_run_injection_retrieval _ _ _ _ _ _ _ E).
Qed.

(** *** What each method leaves in the event list *)

Lemma mask_eclipses_events kw (s : obj) r s' (evs : list ev) :
  mask_eclipses col kw s = (r, s', evs) ->
  stages evs = [Masking] /\ stores evs = [] /\ vet_sources evs = []
  /\ raised evs = exn_of r.
Proof.
  unfold mask_eclipses, bind, get_self, invoke, logger.
  destruct (mask_all col (data_dir s) kw (world s)) as [[[]|e] w];
    intros [= <- <- <-]; repeat split.
Qed.

Lemma find_transits_events o d p (s : obj) r s' (evs : list ev) :
  find_transits col o d p s = (r, s', evs) ->
  stages evs = [TransitSearch] /\ stores evs = [] /\ vet_sources evs = []
  /\ raised evs = exn_of r.
Proof.
  unfold find_transits, bind, get_self, invoke, logger, ret.
  destruct (process_directory col _ _ _ _ _) as [[t|e] w];
    intros [= <- <- <-]; repeat split.
Qed.

Lemma vet_candidates_events es d o od (s : obj) r s' (evs : list ev) :
  vet_candidates col es d o od s = (r, s', evs) ->
  stages evs = [Vetting] /\ stores evs = []
  /\ vet_sources evs = [vet_source_of s es d]
  /\ raised evs = exn_of r.
Proof.
  unfold vet_candidates, bind, get_self, invoke, logger, ret, vet_source_of.
  destruct es as [l|]; [|destruct d as [dir|]]; simpl;
    destruct (compare_events col _ _ _ _) as [[t|e] w];
    intros [= <- <- <-]; repeat split.
Qed.

Lemma run_injection_retrieval_events n o d (s : obj) r s' (evs : list ev) :
  run_injection_retrieval col n o d s = (r, s', evs) ->
  stores evs = [] /\ vet_sources evs = []
  /\ match transit_injector s with
     | None =>
         r = Raises (ValueError
               "Transit injector not initialized - provide transit_models_path")
         /\ s' = s /\ evs = []
     | Some _ => stages evs = [InjectionRetrieval] /\ raised evs = exn_of r
     end.
Proof.
  unfold run_injection_retrieval, bind, get_self, invoke, logger, ret, raise.
  destruct (transit_injector s) as [models|].
  - destruct (injector_run col _ _ _ _ _ _) as [[t|e] w];
      intros [= <- <- <-]; repeat split.
  - intros [= <- <- <-]. repeat split.
Qed.


Lemma bind_inv {A B} (m : meth A) (k : A -> meth B) (s : obj) r s' evs :
  bind m k s = (r, s', evs) ->
  (exists a s1 e1 e2,
      m s = (Returns a, s1, e1) /\ k a s1 = (r, s', e2) /\ evs = e1 ++ e2)
  \/ (exists e, m s = (Raises e, s', evs) /\ r = Raises e).
Proof.
  unfold bind. destruct (m s) as [[[a|e] s1] e1].
  - destruct (k a s1) as [[r2 s2] e2] eqn:E. intros [= <- <- <-].
    left. exists a, s1, e1, e2. repeat split. exact E.
  - intros [= <- <- <-]. right. exists e. repeat split.
Qed.

Lemma prepare_vet_kwargs_events fs vk (s : obj) r s' (evs : list ev) :
  prepare_vet_kwargs fs vk s = (r, s', evs) ->
  s' = s /\ stages evs = [] /\ stores evs = [] /\ vet_sources evs = []
  /\ raised evs = []
  /\ r = Returns (if bool_decide (0 < length fs)%nat
                     && bool_decide (vc_event_snippets vk = None)
                  then set_event_snippets fs vk else vk).
Proof.
  unfold prepare_vet_kwargs, bind, logger, ret.
  destruct (bool_decide (0 < length fs)%nat && bool_decide (vc_event_snippets vk = None));
    [|destruct (bool_decide (length fs = 0%nat))];
    intros [= <- <- <-]; repeat split.
Qed.

Ltac events_simpl :=
  unfold stages, stores, vet_sources, raised in *;
  repeat (rewrite ?omap_app; simpl).

Ltac inv_bind H :=
  let H1 := fresh "Hm" in
  apply bind_inv in H;
  destruct H as [(? & ? & ? & ? & H1 & H & ->) | (? & H & ->)].

Lemma run_transit_finding_events f kw (s : obj) r s' (evs : list ev) :
  run_transit_finding col f kw s = (r, s', evs) ->
  stages evs = (if f then [TransitSearch] else [])
  /\ stores evs
     = (if f then match r with Returns _ => ["transit_finding"] | Raises _ => [] end
        else [])
  /\ vet_sources evs = [] /\ raised evs = exn_of r
  /\ (f = false -> r = Returns tt /\ s' = s /\ evs = []).
Proof.
  unfold run_transit_finding. destruct f.
  - intros H. inv_bind H; [|discriminate H].
    injection Hm as <- <- <-.
    inv_bind H.
    + injection H as <- <- <-.
      apply find_transits_events in Hm. destruct Hm as (Hs & Hst & Hv & Hr).
      events_simpl. rewrite Hs, Hst, Hv, Hr. repeat split; discriminate.
    + apply find_transits_events in H. destruct H as (Hs & Hst & Hv & Hr).
      events_simpl. rewrite Hs, Hst, Hv, Hr. repeat split; discriminate.
  - intros [= <- <- <-]. repeat split.
Qed.

Lemma run_vetting_events f v kw (s : obj) r s' (evs : list ev) :
  run_vetting col f v kw s = (r, s', evs) ->
  stages evs = (if v && f then [Vetting] else [])
  /\ stores evs
     = (if v && f then match r with Returns _ => ["vetting"] | Raises _ => [] end
        else [])
  /\ vet_sources evs = (if v && f then [vetting_source col s kw] else [])
  /\ raised evs = exn_of r
  /\ (v && f = false -> r = Returns tt /\ s' = s /\ evs = []).
Proof.
  unfold run_vetting. destruct (v && f).
  - intros H. inv_bind H; [|discriminate H].
    injection Hm as <- <- <-.
    inv_bind H; [|discriminate H].
    injection Hm as <- <- <-.
    inv_bind H.
    2:{ apply prepare_vet_kwargs_events in H. destruct H as (_ & _ & _ & _ & _ & H).
        discriminate H. }
    apply prepare_vet_kwargs_events in Hm.
    destruct Hm as (-> & Hs0 & Hst0 & Hv0 & Hr0 & [= ->]).
    fold (passed_vet_kwargs col s kw) in H.
    inv_bind H.
    + injection H as <- <- <-.
      apply vet_candidates_events in Hm. destruct Hm as (Hs & Hst & Hv & Hr).
      fold (vetting_source col s kw) in Hv.
      events_simpl. rewrite Hs0, Hst0, Hv0, Hr0, Hs, Hst, Hv, Hr.
      repeat split; discriminate.
    + apply vet_candidates_events in H. destruct H as (Hs & Hst & Hv & Hr).
      fold (vetting_source col s kw) in Hv.
      events_simpl. rewrite Hs0, Hst0, Hv0, Hr0, Hs, Hst, Hv, Hr.
      repeat split; discriminate.
  - intros [= <- <- <-]. repeat split.
Qed.

Lemma run_injection_events i kw (s : obj) r s' (evs : list ev) :
  run_injection col i kw s = (r, s', evs) ->
  vet_sources evs = [] /\ raised evs = exn_of r
  /\ match transit_injector s with
     | None =>
         r = Returns tt /\ s' = s
         /\ evs = (if i then [Log WARNING skip_warning] else [])
     | Some _ =>
         stages evs = (if i then [InjectionRetrieval] else [])
         /\ stores evs
            = (if i then
                 match r with Returns _ => ["injection_retrieval"] | Raises _ => [] end
               else [])
     end.
Proof.
  unfold run_injection. destruct i.
  - intros H. inv_bind H; [|discriminate H].
    injection Hm as <- <- <-.
    destruct (transit_injector s) as [models|] eqn:Einj.
    + inv_bind H; [|discriminate H].
      injection Hm as <- <- <-.
      inv_bind H.
      * injection H as <- <- <-.
        apply run_injection_retrieval_events in Hm.
        rewrite Einj in Hm. destruct Hm as (Hst & Hv & Hs & Hr).
        events_simpl. rewrite Hs, Hst, Hv, Hr. repeat split.
      * apply run_injection_retrieval_events in H.
        rewrite Einj in H. destruct H as (Hst & Hv & Hs & Hr).
        events_simpl. rewrite Hs, Hst, Hv, Hr. repeat split.
    + injection H as <- <- <-. repeat split.
  - intros [= <- <- <-]. destruct (transit_injector s); repeat split.
Qed.


Lemma run_summary f v i kw (s : obj) r s' (evs : list ev) :
  run col f v i kw s = (r, s', evs) ->
  raised evs = exn_of r
  /\ stages evs `prefix_of` planned_stages f v (injection_runs i s)
  /\ (exists rest, stages evs = Masking :: rest)
  /\ stores evs `prefix_of` omap stage_key (stages evs)
  /\ (forall reg, r = Returns reg ->
        reg = results s'
        /\ stages evs = planned_stages f v (injection_runs i s)
        /\ stores evs = omap stage_key (planned_stages f v (injection_runs i s)))
  /\ (i = true -> transit_injector s = None -> returned r ->
        Log WARNING skip_warning ∈ evs).
Proof.
  intros H. unfold run in H.
  inv_bind H; [|discriminate H]. injection Hm as <- <- <-.
  inv_bind H; [|discriminate H]. injection Hm as <- <- <-.
  inv_bind H.
  2:{ apply mask_eclipses_events in H. destruct H as (Hs & Hst & Hv & Hr).
      events_simpl. rewrite Hs, Hst, Hr. unfold planned_stages.
      repeat split; try discriminate; try (intros; contradiction).
      - eexists; reflexivity.
      - eexists; reflexivity.
      - apply prefix_nil. }
  pose proof (has_effects_mask_eclipses _ _ _ _ _ Hm) as (F1 & _).
  apply mask_eclipses_events in Hm. destruct Hm as (Hs1 & Hst1 & Hv1 & Hr1).
  inv_bind H.
  2:{ apply run_transit_finding_events in H.
      destruct H as (Hs & Hst & Hv & Hr & _).
      events_simpl. rewrite Hs1, Hst1, Hr1, Hs, Hst, Hr. unfold planned_stages.
      destruct f; simpl; repeat split; try discriminate; try (intros; contradiction).
      all: try (eexists; reflexivity). all: try apply prefix_nil. }
  pose proof (has_effects_run_transit_finding _ _ _ _ _ _ Hm) as (F2 & _).
  apply run_transit_finding_events in Hm. destruct Hm as (Hs2 & Hst2 & Hv2 & Hr2 & _).
  inv_bind H.
  2:{ apply run_vetting_events in H.
      destruct H as (Hs & Hst & Hv & Hr & _).
      events_simpl. rewrite Hs1, Hst1, Hr1, Hs2, Hst2, Hr2, Hs, Hst, Hr.
      unfold planned_stages.
      destruct f, v; simpl; repeat split; try discriminate; try (intros; contradiction).
      all: try (eexists; reflexivity). all: try apply prefix_nil. }
  pose proof (has_effects_run_vetting _ _ _ _ _ _ _ Hm) as (F3 & _).
  apply run_vetting_events in Hm. destruct Hm as (Hs3 & Hst3 & Hv3 & Hr3 & _).
  match type of H with
  | bind _ _ ?s3 = _ =>
      assert (Hinj : transit_injector s3 = transit_injector s)
  end.
  { destruct F1 as (_ & _ & _ & E1), F2 as (_ & _ & _ & E2), F3 as (_ & _ & _ & E3).
    congruence. }
  unfold injection_runs.
  inv_bind H.
  2:{ apply run_injection_events in H.
      destruct H as (Hv & Hr & H). rewrite Hinj in H.
      destruct (transit_injector s) as [models|]; [|destruct H as (H & _); discriminate H].
      destruct H as (Hs & Hst).
      events_simpl. rewrite Hs1, Hst1, Hr1, Hs2, Hst2, Hr2, Hs3, Hst3, Hr3, Hs, Hst, Hr.
      unfold planned_stages.
      destruct f, v, i; simpl; repeat split; try discriminate; try (intros; contradiction).
      all: try (eexists; reflexivity). all: try apply prefix_nil. }
  apply run_injection_events in Hm. destruct Hm as (Hv4 & Hr4 & H4). rewrite Hinj in H4.
  inv_bind H; [|discriminate H]. injection Hm as <- <- <-.
  inv_bind H; [|discriminate H]. injection Hm as <- <- <-.
  injection H as <- <- <-.
  destruct (transit_injector s) as [models|].
  - destruct H4 as (Hs4 & Hst4).
    events_simpl.
    rewrite Hs1, Hst1, Hr1, Hs2, Hst2, Hr2, Hs3, Hst3, Hr3, Hs4, Hst4, Hr4.
    unfold planned_stages.
    destruct f, v, i; simpl; repeat split; try discriminate; try (intros; contradiction).
    all: try (eexists; reflexivity). all: try apply prefix_nil.
    all: try (injection H as <-; reflexivity).
  - destruct H4 as (_ & -> & ->).
    events_simpl.
    rewrite Hs1, Hst1, Hr1, Hs2, Hst2, Hr2, Hs3, Hst3, Hr3.
    unfold planned_stages.
    destruct f, v, i; simpl; repeat split; try discriminate; try (intros; contradiction).
    all: try (eexists; reflexivity). all: try apply prefix_nil.
    all: try (injection H as <-; reflexivity).
    all: intros _ _ _; repeat (rewrite elem_of_cons || rewrite elem_of_app); tauto.
Qed.

Lemma stored_key_has_stage (evs : list ev) (k : string) :
  stores evs `prefix_of` omap stage_key (stages evs) ->
  k ∈ stores evs -> exists st, stage_key st = Some k /\ st ∈ stages evs.
Proof.
  intros [rest Hp] Hk.
  assert (Hin : k ∈ omap stage_key (stages evs)).
  { rewrite Hp. apply elem_of_app. left. exact Hk. }
  apply list_elem_of_omap in Hin. destruct Hin as (st & Hst & Hkey).
  exists st. auto.
Qed.

Lemma prefix_elem {A} (l1 l2 : list A) (x : A) :
  l1 `prefix_of` l2 -> x ∈ l1 -> x ∈ l2.
Proof. intros [rest ->] H. apply elem_of_app. left. exact H. Qed.

(** Which events each operation can leave: only [run] writes the registry,
    and each write follows the execution of the stage that owns the key. *)
Lemma exec_stores op (s : obj) :
  stores (snd (exec col op s)) `prefix_of` omap stage_key (stages (snd (exec col op s))).
Proof.
  destruct op as [f v i kw|kw|o d p|es d o od|n o d]; simpl.
  - destruct (run col f v i kw s) as [[r s'] evs] eqn:E; cbn [fst snd].
    apply run_summary in E. simpl. tauto.
  - destruct (mask_eclipses col kw s) as [[r s'] evs] eqn:E; cbn [fst snd].
    apply mask_eclipses_events in E. destruct E as (_ & -> & _). apply prefix_nil.
  - destruct (find_transits col o d p s) as [[r s'] evs] eqn:E; cbn [fst snd].
    apply find_transits_events in E. destruct E as (_ & -> & _). apply prefix_nil.
  - destruct (vet_candidates col es d o od s) as [[r s'] evs] eqn:E; cbn [fst snd].
    apply vet_candidates_events in E. destruct E as (_ & -> & _). apply prefix_nil.
  - destruct (run_injection_retrieval col n o d s) as [[r s'] evs] eqn:E; cbn [fst snd].
    apply run_injection_retrieval_events in E. destruct E as (-> & _). apply prefix_nil.
Qed.

Lemma exec_injection_stage op (s : obj) :
  transit_injector s = None ->
  InjectionRetrieval ∉ stages (snd (exec col op s)).
Proof.
  intros Hinj.
  destruct op as [f v i kw|kw|o d p|es d o od|n o d]; simpl.
  - destruct (run col f v i kw s) as [[r s'] evs] eqn:E; cbn [fst snd].
    apply run_summary in E. destruct E as (_ & Hp & _). simpl.
    intros Hin. apply (prefix_elem _ _ _ Hp) in Hin.
    unfold planned_stages, injection_runs in Hin. rewrite Hinj in Hin.
    destruct f, v; simpl in Hin;
      repeat (apply elem_of_cons in Hin; destruct Hin as [Hin|Hin]; [discriminate Hin|]);
      apply elem_of_nil in Hin; exact Hin.
  - destruct (mask_eclipses col kw s) as [[r s'] evs] eqn:E; cbn [fst snd].
    apply mask_eclipses_events in E. destruct E as (-> & _). simpl.
    intros Hin. apply list_elem_of_singleton in Hin. discriminate Hin.
  - destruct (find_transits col o d p s) as [[r s'] evs] eqn:E; cbn [fst snd].
    apply find_transits_events in E. destruct E as (-> & _). simpl.
    intros Hin. apply list_elem_of_singleton in Hin. discriminate Hin.
  - destruct (vet_candidates col es d o od s) as [[r s'] evs] eqn:E; cbn [fst snd].
    apply vet_candidates_events in E. destruct E as (-> & _). simpl.
    intros Hin. apply list_elem_of_singleton in Hin. discriminate Hin.
  - destruct (run_injection_retrieval col n o d s) as [[r s'] evs] eqn:E; cbn [fst snd].
    apply run_injection_retrieval_events in E. rewrite Hinj in E.
    destruct E as (_ & _ & _ & _ & ->). simpl. apply not_elem_of_nil.
Qed.

(** An instance built without transit models never holds an
    [injection_retrieval] entry. *)
Lemma no_injector_no_entry (s : obj) :
  reachable col s -> transit_injector s = None ->
  results s !! "injection_retrieval" = None.
Proof.
  induction 1 as [d o m n w | op s Hreach IH]; intros Hinj.
  - apply lookup_empty.
  - pose proof (exec_effects op s) as (F & U & _).
    destruct F as (_ & _ & _ & Fi). rewrite Fi in Hinj.
    rewrite U; [apply IH; exact Hinj|].
    intros Hk.
    destruct (stored_key_has_stage _ _ (exec_stores op s) Hk) as (st & Hkey & Hst).
    destruct st; try discriminate Hkey.
    exact (exec_injection_stage op s Hinj Hst).
Qed.

Lemma elem_of_planned_stages st f v i :
  st ∈ planned_stages f v i <->
  st = Masking \/ (st = TransitSearch /\ f = true)
  \/ (st = Vetting /\ v = true /\ f = true)
  \/ (st = InjectionRetrieval /\ i = true).
Proof.
  unfold planned_stages.
  destruct f, v, i; simpl;
    repeat (rewrite elem_of_cons); rewrite elem_of_nil;
    destruct st; intuition congruence.
Qed.

Lemma elem_of_planned_keys k f v i :
  k ∈ omap stage_key (planned_stages f v i) <->
  (k = "transit_finding" /\ f = true)
  \/ (k = "vetting" /\ v = true /\ f = true)
  \/ (k = "injection_retrieval" /\ i = true).
Proof.
  rewrite list_elem_of_omap. split.
  - intros (st & Hst & Hk). apply elem_of_planned_stages in Hst.
    destruct st; simpl in Hk; try discriminate Hk; injection Hk as <-;
      intuition congruence.
  - intros [[-> ->] | [(-> & -> & ->) | [-> ->]]];
      [exists TransitSearch | exists Vetting | exists InjectionRetrieval];
      rewrite elem_of_planned_stages; simpl; intuition congruence.
Qed.

Lemma bind_sim {A B} (m : meth A) (k1 k2 : A -> meth B) (s : obj) :
  (forall a s1 e1, m s = (Returns a, s1, e1) -> fst (k1 a s1) = fst (k2 a s1)) ->
  fst (bind m k1 s) = fst (bind m k2 s).
Proof.
  intros Hk. unfold bind. destruct (m s) as [[[a|e] s1] e1]; [|reflexivity].
  specialize (Hk a s1 e1 eq_refl).
  destruct (k1 a s1) as [[r1 t1] x1], (k2 a s1) as [[r2 t2] x2].
  simpl in *. exact Hk.
Qed.

(** Without an injector the injection flag changes the log only. *)
Lemma run_injection_flag (s : obj) f v kw :
  transit_injector s = None ->
  fst (run col f v false kw s) = fst (run col f v true kw s).
Proof.
  intros Hinj. unfold run.
  apply bind_sim. intros a0 s0 e0 H0. injection H0 as _ <- _.
  apply bind_sim. intros a1 s1 e1 H1. injection H1 as _ <- _.
  apply bind_sim. intros a2 s2 e2 H2.
  pose proof (has_effects_mask_eclipses _ _ _ _ _ H2) as ((_ & _ & _ & F2) & _).
  apply bind_sim. intros a3 s3 e3 H3.
  pose proof (has_effects_run_transit_finding _ _ _ _ _ _ H3) as ((_ & _ & _ & F3) & _).
  apply bind_sim. intros a4 s4 e4 H4.
  pose proof (has_effects_run_vetting _ _ _ _ _ _ _ H4) as ((_ & _ & _ & F4) & _).
  assert (Hnone : transit_injector s4 = None) by congruence.
  unfold bind at 1 3. unfold run_injection, bind, get_self, logger, ret.
  rewrite Hnone. reflexivity.
Qed.

(** C2: on an instance built without transit models, a direct call of
    [run_injection_retrieval] raises the configuration error and touches
    nothing, whereas [run] with [injection_retrieval=True] raises nothing of
    its own (an exception can only be one that a collaborator of an earlier
    stage raised; when none does, the call returns, exactly as the same call
    without the flag), never calls the injector, and a call that returns
    has logged the warning and returns a registry without an
    [injection_retrieval] key. *)
Theorem missing_injector_hard_error_soft_skip (s : obj) :
  reachable col s -> transit_injector s = None ->
  (forall n o d,
      run_injection_retrieval col n o d s
      = (Raises (ValueError
           "Transit injector not initialized - provide transit_models_path"),
         s, []))
  /\ (forall f v kw r s' (evs : list ev),
        run col f v true kw s = (r, s', evs) ->
        (forall e, r = Raises e -> CallRaised e ∈ evs)
        /\ ((forall e, CallRaised e ∉ evs) -> returned r)
        /\ (InjectionRetrieval ∉ stages evs)
        /\ ("injection_retrieval" ∉ stores evs)
        /\ results s' !! "injection_retrieval" = None
        /\ (forall reg, r = Returns reg ->
              (Log WARNING skip_warning ∈ evs)
              /\ reg !! "injection_retrieval" = None)
        /\ fst (fst (run col f v false kw s)) = r
        /\ snd (fst (run col f v false kw s)) = s').
Proof.
  intros Hreach Hinj. split.
  - intros n o d.
    destruct (run_injection_retrieval col n o d s) as [[r s'] evs] eqn:E.
    apply run_injection_retrieval_events in E. rewrite Hinj in E.
    destruct E as (_ & _ & -> & -> & ->). reflexivity.
  - intros f v kw r s' evs H.
    pose proof (exec_injection_stage (OpRun f v true kw) s Hinj) as Hstage.
    pose proof (exec_stores (OpRun f v true kw) s) as Hst.
    pose proof (exec_effects (OpRun f v true kw) s) as (_ & U & _).
    simpl in Hstage, Hst, U. rewrite H in Hstage, Hst, U. cbn [fst snd] in *.
    assert (Hno : "injection_retrieval" ∉ stores evs).
    { intros Hk. destruct (stored_key_has_stage _ _ Hst Hk) as (st & Hkey & Hin).
      destruct st; try discriminate Hkey. exact (Hstage Hin). }
    assert (Hres : results s' !! "injection_retrieval" = None).
    { rewrite U by exact Hno. apply no_injector_no_entry; assumption. }
    pose proof (run_summary _ _ _ _ _ _ _ _ H) as (Hr & _ & _ & _ & Hret & Hw).
    assert (Hexn : forall e, r = Raises e -> CallRaised e ∈ evs).
    { intros e ->.
      assert (Hin : e ∈ raised evs) by (rewrite Hr; left).
      apply list_elem_of_omap in Hin. destruct Hin as (x & Hx & Hm).
      destruct x; try discriminate Hm. injection Hm as ->. exact Hx. }
    split; [exact Hexn|]. split.
    { intros Hnone. destruct r as [reg|e]; [exact I|].
      exfalso. exact (Hnone e (Hexn e eq_refl)). }
    split; [exact Hstage|]. split; [exact Hno|]. split; [exact Hres|].
    split.
    { intros reg ->. split; [apply Hw; auto; exact I|].
      destruct (Hret reg eq_refl) as (-> & _). exact Hres. }
    rewrite (run_injection_flag s f v kw Hinj), H. split; reflexivity.
Qed.


(** C8: the registry starts empty; no operation removes a key; an entry
    changes only when [run] writes it, which it does only after executing the
    stage that owns the key in that same call; and [run] returns the registry
    as accumulated, every entry it did not write being the one from before
    the call. *)
Theorem registry_append_only op (s : obj) :
  let s' := fst (exec col op s) in
  let evs := snd (exec col op s) in
  (forall data output models n (w : World),
      results (init data output models n w) = (∅ : gmap string Table))
  /\ (forall k, is_Some (results s !! k) -> is_Some (results s' !! k))
  /\ (forall k, results s' !! k <> results s !! k ->
        k ∈ stores evs
        /\ (exists f v i kw, op = OpRun f v i kw)
        /\ exists st, stage_key st = Some k /\ st ∈ stages evs)
  /\ (forall f v i kw reg,
        op = OpRun f v i kw ->
        fst (fst (run col f v i kw s)) = Returns reg ->
        reg = results s'
        /\ forall k, k ∉ stores evs -> reg !! k = results s !! k).
Proof.
  intros s' evs.
  pose proof (exec_effects op s) as (_ & U & S).
  fold s' evs in U, S.
  assert (Hchg : forall k, results s' !! k <> results s !! k -> k ∈ stores evs).
  { intros k Hk. destruct (decide (k ∈ stores evs)) as [Hin|Hout]; [exact Hin|].
    exfalso. apply Hk, U, Hout. }
  split; [reflexivity|]. split; [|split].
  - intros k Hk. destruct (decide (k ∈ stores evs)) as [Hin|Hout].
    + apply S, Hin.
    + rewrite U by exact Hout. exact Hk.
  - intros k Hk. apply Hchg in Hk. split; [exact Hk|]. split.
    + subst evs. destruct op as [f v i kw|kw|o d p|es d o od|n o d];
        [eauto | exfalso ..]; simpl in Hk.
      * destruct (mask_eclipses col kw s) as [[r0 s0] e0] eqn:E; cbn [snd] in Hk.
        apply mask_eclipses_events in E. destruct E as (_ & E & _).
        rewrite E in Hk. apply elem_of_nil in Hk. exact Hk.
      * destruct (find_transits col o d p s) as [[r0 s0] e0] eqn:E; cbn [snd] in Hk.
        apply find_transits_events in E. destruct E as (_ & E & _).
        rewrite E in Hk. apply elem_of_nil in Hk. exact Hk.
      * destruct (vet_candidates col es d o od s) as [[r0 s0] e0] eqn:E; cbn [snd] in Hk.
        apply vet_candidates_events in E. destruct E as (_ & E & _).
        rewrite E in Hk. apply elem_of_nil in Hk. exact Hk.
      * destruct (run_injection_retrieval col n o d s) as [[r0 s0] e0] eqn:E;
          cbn [snd] in Hk.
        apply run_injection_retrieval_events in E. destruct E as (E & _).
        rewrite E in Hk. apply elem_of_nil in Hk. exact Hk.
    + exact (stored_key_has_stage _ _ (exec_stores op s) Hk).
  - intros f v i kw reg -> Hreg. subst s' evs. simpl in *.
    destruct (run col f v i kw s) as [[r0 s0] e0] eqn:E. cbn [fst snd] in *. subst r0.
    apply run_summary in E. destruct E as (_ & _ & _ & _ & Hret & _).
    destruct (Hret reg eq_refl) as (-> & _). split; [reflexivity|]. exact U.
Qed.


(** *** A call of [run] that fails *)



(** *** What construction fixes *)

Lemma after_same_setup (ops : list (operation Snippet MaskKw)) (s : obj) :
  same_setup s (after col ops s).
Proof.
  revert s. induction ops as [|op ops IH]; intros s; simpl.
  - apply same_setup_refl.
  - eapply same_setup_trans; [|apply IH]. apply exec_effects.
Qed.



(** X13: no sequence of operations changes what the constructor set: the
    data directory, the output directory, the configured number of
    injections and whether an injector exists (one exists exactly when
    [transit_models_path] was a non-empty path). *)
Theorem setup_is_fixed_at_construction
    (data output : string) (models : option string) (n : Z) (w : World)
    (ops : list (operation Snippet MaskKw)) :
  let s := after col ops (init data output models n w) in
  data_dir s = data /\ output_dir s = output /\ config_n_injections s = n
  /\ (is_Some (transit_injector s) <->
      exists path, models = Some path /\ path <> EmptyString).
Proof.
  destruct (after_same_setup ops (init data output models n w)) as (H1 & H2 & H3 & H4).
  cbv zeta. rewrite H1, H2, H3, H4. simpl. repeat split; try reflexivity.
  - intros [x Hx]. destruct models as [[|c p]|]; simpl in Hx; try discriminate Hx.
    exists (String c p). split; [reflexivity | discriminate].
  - intros (path & -> & Hne). destruct path; [contradiction|]. simpl. eauto.
Qed.


(** *** The arguments the collaborators receive *)











(** *** What a successful run stores *)

Lemma mask_eclipses_returns kw (s : obj) a s' (evs : list ev) :
  mask_eclipses col kw s = (Returns a, s', evs) ->
  exists w, mask_all col (data_dir s) kw (world s) = (Returns tt, w)
            /\ s' = set_world w s.
Proof.
  unfold mask_eclipses, bind, get_self, invoke, logger.
  destruct (mask_all col (data_dir s) kw (world s)) as [[[]|e] w]; intros H;
    [|discriminate H].
  injection H as <- <-. eauto.
Qed.

Lemma find_transits_returns o d p (s : obj) t s' (evs : list ev) :
  find_transits col o d p s = (Returns t, s', evs) ->
  exists w,
    process_directory col (data_dir s) o (default (output_dir s) d) p (world s)
    = (Returns t, w)
    /\ s' = set_world w s.
Proof.
  unfold find_transits, bind, get_self, invoke, logger, ret.
  destruct (process_directory col _ _ _ _ _) as [[t0|e] w]; intros H;
    [|discriminate H].
  injection H as <- <- <-. eauto.
Qed.

Lemma vet_candidates_returns es d o od (s : obj) t s' (evs : list ev) :
  vet_candidates col es d o od s = (Returns t, s', evs) ->
  exists w,
    compare_events col (vet_source_of s es d) o (default (output_dir s) od) (world s)
    = (Returns t, w)
    /\ s' = set_world w s.
Proof.
  unfold vet_candidates, bind, get_self, invoke, logger, ret, vet_source_of.
  destruct es as [l|]; [|destruct d as [dir|]]; simpl;
    destruct (compare_events col _ _ _ _) as [[t0|e] w]; intros H;
    try discriminate H; injection H as <- <- <-; eauto.
Qed.

Lemma run_transit_finding_returns kw (s : obj) r s' (evs : list ev) :
  run_transit_finding col true kw s = (r, s', evs) -> returned r ->
  let ft := default no_find_transits_kwargs (find_transits_kw kw) in
  exists t w,
    process_directory col (data_dir s)
      (default "transit_events.txt" (ft_output_file ft))
      (default (output_dir s) (default None (ft_output_dir ft)))
      (default None (ft_plot_output_dir ft)) (world s)
    = (Returns t, w)
    /\ s' = set_results (insert "transit_finding" t) (set_world w s).
Proof.
  unfold run_transit_finding. intros H Hr.
  inv_bind H; [|discriminate H]. injection Hm as <- <- <-.
  unfold find_transits_with in H.
  inv_bind H; [|destruct Hr].
  injection H as <- <- <-.
  apply find_transits_returns in Hm. destruct Hm as (w & Hw & ->).
  cbv zeta. eauto.
Qed.

Lemma run_vetting_returns kw (s : obj) r s' (evs : list ev) :
  run_vetting col true true kw s = (r, s', evs) -> returned r ->
  let vc := default no_vet_candidates_kwargs (vet_candidates_kw kw) in
  exists t w,
    compare_events col (vetting_source col s kw)
      (default "vetting_results.csv" (vc_output_file vc))
      (default (output_dir s) (default None (vc_output_dir vc))) (world s)
    = (Returns t, w)
    /\ s' = set_results (insert "vetting" t) (set_world w s).
Proof.
  unfold run_vetting. simpl. intros H Hr.
  inv_bind H; [|discriminate H]. injection Hm as <- <- <-.
  inv_bind H; [|discriminate H]. injection Hm as <- <- <-.
  inv_bind H.
  2:{ apply prepare_vet_kwargs_events in H. destruct H as (_ & _ & _ & _ & _ & H).
      discriminate H. }
  apply prepare_vet_kwargs_events in Hm.
  destruct Hm as (-> & _ & _ & _ & _ & [= ->]).
  fold (passed_vet_kwargs col s kw) in H.
  unfold vet_candidates_with in H.
  inv_bind H; [|destruct Hr].
  injection H as <- <- <-.
  apply vet_candidates_returns in Hm. destruct Hm as (w & Hw & ->).
  fold (vetting_source col s kw) in Hw.
  match type of Hw with _ = (Returns ?t, _) => exists t, w end.
  split; [|reflexivity].
  rewrite <- Hw. unfold passed_vet_kwargs.
  destruct (bool_decide _ && bool_decide _); reflexivity.
Qed.

Lemma default_run_anatomy
    kw (s : obj) r s' (evs : list ev) :
  run col true true false kw s = (r, s', evs) -> returned r ->
  let ft := default no_find_transits_kwargs (find_transits_kw kw) in
  let vc := default no_vet_candidates_kwargs (vet_candidates_kw kw) in
  exists w1 t1 w2 t2 w3,
    mask_all col (data_dir s)
      (default (no_mask_kwargs col) (mask_eclipses_kwargs kw)) (world s)
    = (Returns tt, w1)
    /\ process_directory col (data_dir s)
         (default "transit_events.txt" (ft_output_file ft))
         (default (output_dir s) (default None (ft_output_dir ft)))
         (default None (ft_plot_output_dir ft)) w1
       = (Returns t1, w2)
    /\ compare_events col (vetting_source col (set_world w2 s) kw)
         (default "vetting_results.csv" (vc_output_file vc))
         (default (output_dir s) (default None (vc_output_dir vc))) w2
       = (Returns t2, w3)
    /\ r = Returns (<["vetting" := t2]> (<["transit_finding" := t1]> (results s)))
    /\ results s' = <["vetting" := t2]> (<["transit_finding" := t1]> (results s))
    /\ world s' = w3.
Proof.
  intros H Hr. unfold run in H.
  inv_bind H; [|discriminate H]. injection Hm as <- <- <-.
  inv_bind H; [|discriminate H]. injection Hm as <- <- <-.
  inv_bind H; [|destruct Hr].
  destruct x. apply mask_eclipses_returns in Hm. destruct Hm as (w1 & Hw1 & ->).
  inv_bind H; [|destruct Hr].
  apply run_transit_finding_returns in Hm; [|exact I].
  destruct Hm as (t1 & w2 & Hw2 & ->).
  inv_bind H; [|destruct Hr].
  apply run_vetting_returns in Hm; [|exact I].
  destruct Hm as (t2 & w3 & Hw3 & ->).
  unfold run_injection in H.
  inv_bind H; [|discriminate H]. injection Hm as <- <- <-.
  inv_bind H; [|discriminate H]. injection Hm as <- <- <-.
  inv_bind H; [|discriminate H]. injection Hm as <- <- <-.
  injection H as <- <- <-.
  exists w1, t1, w2, t2, w3. cbv zeta. repeat split; assumption || reflexivity.
Qed.

(** *** What a returning run leaves in the registry *)

Lemma run_injection_keeps i kw (s : obj) r s' (evs : list ev) (k : string) :
  run_injection col i kw s = (r, s', evs) -> k <> "injection_retrieval" ->
  results s' !! k = results s !! k.
Proof.
  intros H Hk.
  pose proof (has_effects_run_injection _ _ _ _ _ _ H) as (_ & U & _).
  apply U. apply run_injection_events in H. destruct H as (_ & _ & H).
  destruct (transit_injector s) as [models|].
  - destruct H as (_ & ->). destruct i; [destruct r|]; simpl;
      rewrite ?elem_of_cons, ?elem_of_nil; intuition congruence.
  - destruct H as (_ & _ & ->). destruct i; simpl;
      rewrite ?elem_of_cons, ?elem_of_nil; intuition congruence.
Qed.

Lemma run_returns_registry f v i kw (s : obj) r reg s' (evs : list ev) :
  run col f v i kw s = (r, s', evs) -> r = Returns reg ->
  let ft := default no_find_transits_kwargs (find_transits_kw kw) in
  let vc := default no_vet_candidates_kwargs (vet_candidates_kw kw) in
  reg = results s'
  /\ exists w1,
       mask_all col (data_dir s)
         (default (no_mask_kwargs col) (mask_eclipses_kwargs kw)) (world s)
       = (Returns tt, w1)
       /\ (f = true ->
           exists t1 w2,
             process_directory col (data_dir s)
               (default "transit_events.txt" (ft_output_file ft))
               (default (output_dir s) (default None (ft_output_dir ft)))
               (default None (ft_plot_output_dir ft)) w1
             = (Returns t1, w2)
             /\ reg !! "transit_finding" = Some t1
             /\ (v = true ->
                 exists t2 w3,
                   compare_events col (vetting_source col (set_world w2 s) kw)
                     (default "vetting_results.csv" (vc_output_file vc))
                     (default (output_dir s) (default None (vc_output_dir vc))) w2
                   = (Returns t2, w3)
                   /\ reg !! "vetting" = Some t2)).
Proof.
  intros H Hr. cbv zeta. unfold run in H.
  inv_bind H; [|discriminate H]. injection Hm as <- <- <-.
  inv_bind H; [|discriminate H]. injection Hm as <- <- <-.
  inv_bind H; [|discriminate Hr].
  destruct x. apply mask_eclipses_returns in Hm. destruct Hm as (w1 & Hw1 & ->).
  inv_bind H; [|discriminate Hr]. rename Hm into H2.
  inv_bind H; [|discriminate Hr]. rename Hm into H3.
  inv_bind H; [|discriminate Hr]. rename Hm into H4.
  inv_bind H; [|discriminate H]. injection Hm as <- <- <-.
  inv_bind H; [|discriminate H]. injection Hm as <- <- <-.
  injection H as <- <- <-. injection Hr as <-.
  split; [reflexivity|]. exists w1. split; [exact Hw1|].
  intros ->.
  apply run_transit_finding_returns in H2; [|exact I].
  destruct H2 as (t1 & w2 & Hw2 & ->).
  exists t1, w2. split; [exact Hw2|].
  pose proof (run_injection_keeps _ _ _ _ _ _ "transit_finding" H4 ltac:(discriminate))
    as K1.
  pose proof (run_injection_keeps _ _ _ _ _ _ "vetting" H4 ltac:(discriminate)) as K2.
  destruct v.
  - apply run_vetting_returns in H3; [|exact I].
    destruct H3 as (t2 & w3 & Hw3 & ->).
    split.
    + rewrite K1. cbn. rewrite lookup_insert_ne by discriminate.
      apply lookup_insert_eq.
    + intros _. exists t2, w3. split; [exact Hw3|].
      rewrite K2. cbn. apply lookup_insert_eq.
  - apply run_vetting_events in H3. destruct H3 as (_ & _ & _ & _ & H3).
    destruct (H3 eq_refl) as (_ & -> & _).
    split; [|discriminate].
    rewrite K1. cbn. apply lookup_insert_eq.
Qed.

(** C1, amended: in every call of [run] eclipse masking is the first stage
    executed; the transit search is executed and [transit_finding] written
    only if [find_transits], vetting is executed and [vetting] written only
    if [vet_candidates] and [find_transits], and in a call that returns these
    are equivalences.  In the registry itself: a call that returns with
    [find_transits] holds under [transit_finding] the table the finder
    returned in this call and, with [vet_candidates] too, under [vetting]
    the table the comparator returned in this call; whether or not the call
    returns, without [find_transits] the [transit_finding] entry, and
    without [find_transits] or without [vet_candidates] the [vetting]
    entry, is what the registry held before the call (nothing on a fresh
    instance). *)
Theorem run_stage_gating f v i kw (s : obj) r s' (evs : list ev) :
  run col f v i kw s = (r, s', evs) ->
  (exists rest, stages evs = Masking :: rest)
  /\ (TransitSearch ∈ stages evs -> f = true)
  /\ ("transit_finding" ∈ stores evs -> f = true)
  /\ (Vetting ∈ stages evs -> v = true /\ f = true)
  /\ ("vetting" ∈ stores evs -> v = true /\ f = true)
  /\ (returned r ->
        (TransitSearch ∈ stages evs <-> f = true)
        /\ ("transit_finding" ∈ stores evs <-> f = true)
        /\ (Vetting ∈ stages evs <-> v = true /\ f = true)
        /\ ("vetting" ∈ stores evs <-> v = true /\ f = true))
  /\ (f = false ->
        (Vetting ∉ stages evs) /\ ("vetting" ∉ stores evs)
        /\ results s' !! "vetting" = results s !! "vetting"
        /\ forall reg, r = Returns reg -> reg !! "vetting" = results s !! "vetting")
  /\ (forall reg, r = Returns reg ->
        let ft := default no_find_transits_kwargs (find_transits_kw kw) in
        let vc := default no_vet_candidates_kwargs (vet_candidates_kw kw) in
        reg = results s'
        /\ exists w1,
             mask_all col (data_dir s)
               (default (no_mask_kwargs col) (mask_eclipses_kwargs kw)) (world s)
             = (Returns tt, w1)
             /\ (f = true ->
                 exists t1 w2,
                   process_directory col (data_dir s)
                     (default "transit_events.txt" (ft_output_file ft))
                     (default (output_dir s) (default None (ft_output_dir ft)))
                     (default None (ft_plot_output_dir ft)) w1
                   = (Returns t1, w2)
                   /\ reg !! "transit_finding" = Some t1
                   /\ (v = true ->
                       exists t2 w3,
                         compare_events col (vetting_source col (set_world w2 s) kw)
                           (default "vetting_results.csv" (vc_output_file vc))
                           (default (output_dir s) (default None (vc_output_dir vc))) w2
                         = (Returns t2, w3)
                         /\ reg !! "vetting" = Some t2)))
  /\ (f = false -> results s' !! "transit_finding" = results s !! "transit_finding")
  /\ (v && f = false -> results s' !! "vetting" = results s !! "vetting").
Proof.
  intros H.
  pose proof (has_effects_run _ _ _ _ _ _ _ _ H) as (_ & U & _).
  pose proof H as Hrun.
  apply run_summary in H.
  destruct H as (_ & Hpre & Hfirst & Hst & Hret & _).
  assert (Hstage : forall st, st ∈ stages evs ->
            st ∈ planned_stages f v (injection_runs i s)).
  { intros st. apply prefix_elem. exact Hpre. }
  assert (Hkey : forall k, k ∈ stores evs ->
            k ∈ omap stage_key (planned_stages f v (injection_runs i s))).
  { intros k Hk. destruct (stored_key_has_stage _ _ Hst Hk) as (st & Hkst & Hin).
    apply list_elem_of_omap. exists st. auto. }
  assert (Hts : TransitSearch ∈ stages evs -> f = true).
  { intros Hin. apply Hstage, elem_of_planned_stages in Hin. intuition congruence. }
  assert (Htk : "transit_finding" ∈ stores evs -> f = true).
  { intros Hin. apply Hkey, elem_of_planned_keys in Hin. intuition congruence. }
  assert (Hvs : Vetting ∈ stages evs -> v = true /\ f = true).
  { intros Hin. apply Hstage, elem_of_planned_stages in Hin. intuition congruence. }
  assert (Hvk : "vetting" ∈ stores evs -> v = true /\ f = true).
  { intros Hin. apply Hkey, elem_of_planned_keys in Hin. intuition congruence. }
  split; [exact Hfirst|]. do 4 (split; [assumption|]). split.
  { intros Hr. destruct r as [reg|e]; [|destruct Hr].
    destruct (Hret reg eq_refl) as (_ & -> & ->).
    rewrite !elem_of_planned_stages, !elem_of_planned_keys.
    repeat split; intuition congruence. }
  split.
  { intros ->.
    assert (Hno : "vetting" ∉ stores evs).
    { intros Hin. apply Hvk in Hin. destruct Hin as [_ Hin]. discriminate Hin. }
    split; [intros Hin; apply Hvs in Hin; destruct Hin as [_ Hin]; discriminate Hin|].
    split; [exact Hno|]. split; [apply U; exact Hno|].
    intros reg ->. destruct (Hret reg eq_refl) as (-> & _). apply U. exact Hno. }
  split.
  { intros reg Hreg. exact (run_returns_registry _ _ _ _ _ _ _ _ _ Hrun Hreg). }
  split.
  - intros ->. apply U. intros Hin. apply Htk in Hin. discriminate Hin.
  - intros Hvf. apply U. intros Hin. apply Hvk in Hin. destruct Hin as [-> ->].
    discriminate Hvf.
Qed.

(** X16: a default call of [run] (search and vetting, no injection) that
    returns has invoked, in this order and each on the world the previous
    one left, the masker, the finder and the comparator; the registry it
    returns, which is the one the object keeps, is the registry from before
    the call with [transit_finding] set to the table the finder returned and
    [vetting] set to the table the comparator returned, earlier values of
    these two keys being overwritten. *)
Theorem default_run_registers_collaborator_tables
    kw (s : obj) r s' (evs : list ev) :
  run col true true false kw s = (r, s', evs) -> returned r ->
  let ft := default no_find_transits_kwargs (find_transits_kw kw) in
  let vc := default no_vet_candidates_kwargs (vet_candidates_kw kw) in
  exists w1 t1 w2 t2 w3,
    mask_all col (data_dir s)
      (default (no_mask_kwargs col) (mask_eclipses_kwargs kw)) (world s)
    = (Returns tt, w1)
    /\ process_directory col (data_dir s)
         (default "transit_events.txt" (ft_output_file ft))
         (default (output_dir s) (default None (ft_output_dir ft)))
         (default None (ft_plot_output_dir ft)) w1
       = (Returns t1, w2)
    /\ compare_events col (vetting_source col (set_world w2 s) kw)
         (default "vetting_results.csv" (vc_output_file vc))
         (default (output_dir s) (default None (vc_output_dir vc))) w2
       = (Returns t2, w3)
    /\ r = Returns (<["vetting" := t2]> (<["transit_finding" := t1]> (results s)))
    /\ results s' = <["vetting" := t2]> (<["transit_finding" := t1]> (results s))
    /\ world s' = w3.
Proof. apply default_run_anatomy. Qed.

(** *** The log of a run *)

Lemma logs_app (e1 e2 : list ev) : logs (e1 ++ e2) = logs e1 ++ logs e2.
Proof. apply omap_app. Qed.

Ltac not_logged :=
  let Hx := fresh "Hx" in
  intros Hx; cbn in Hx;
  repeat (apply elem_of_cons in Hx; destruct Hx as [Hx|Hx]; [discriminate Hx|]);
  apply elem_of_nil in Hx; exact Hx.

Lemma mask_eclipses_logs kw (s : obj) r s' (evs : list ev) :
  mask_eclipses col kw s = (r, s', evs) -> "Pipeline complete" ∉ logs evs.
Proof.
  unfold mask_eclipses, bind, get_self, invoke, logger.
  destruct (mask_all col (data_dir s) kw (world s)) as [[[]|e] w];
    intros [= <- <- <-]; not_logged.
Qed.

Lemma find_transits_logs o d p (s : obj) r s' (evs : list ev) :
  find_transits col o d p s = (r, s', evs) -> "Pipeline complete" ∉ logs evs.
Proof.
  unfold find_transits, bind, get_self, invoke, logger, ret.
  destruct (process_directory col _ _ _ _ _) as [[t|e] w];
    intros [= <- <- <-]; not_logged.
Qed.

Lemma vet_candidates_logs es d o od (s : obj) r s' (evs : list ev) :
  vet_candidates col es d o od s = (r, s', evs) -> "Pipeline complete" ∉ logs evs.
Proof.
  unfold vet_candidates, bind, get_self, invoke, logger, ret.
  destruct es as [l|]; [|destruct d as [dir|]]; simpl;
    destruct (compare_events col _ _ _ _) as [[t|e] w];
    intros [= <- <- <-]; not_logged.
Qed.

Lemma run_injection_retrieval_logs n o d (s : obj) r s' (evs : list ev) :
  run_injection_retrieval col n o d s = (r, s', evs) -> "Pipeline complete" ∉ logs evs.
Proof.
  unfold run_injection_retrieval, bind, get_self, invoke, logger, ret, raise.
  destruct (transit_injector s) as [models|].
  - destruct (injector_run col _ _ _ _ _ _) as [[t|e] w];
      intros [= <- <- <-]; not_logged.
  - intros [= <- <- <-]. not_logged.
Qed.

Lemma prepare_vet_kwargs_logs fs vk (s : obj) r s' (evs : list ev) :
  prepare_vet_kwargs fs vk s = (r, s', evs) -> "Pipeline complete" ∉ logs evs.
Proof.
  unfold prepare_vet_kwargs, bind, logger, ret.
  destruct (bool_decide (0 < length fs)%nat && bool_decide (vc_event_snippets vk = None));
    [|destruct (bool_decide (length fs = 0%nat))];
    intros [= <- <- <-]; not_logged.
Qed.

Lemma not_logged_app (msg : string) (e1 e2 : list ev) :
  msg ∉ logs e1 -> msg ∉ logs e2 -> msg ∉ logs (e1 ++ e2).
Proof. rewrite logs_app, elem_of_app. tauto. Qed.

Lemma run_transit_finding_logs f kw (s : obj) r s' (evs : list ev) :
  run_transit_finding col f kw s = (r, s', evs) -> "Pipeline complete" ∉ logs evs.
Proof.
  unfold run_transit_finding. destruct f.
  - intros H. inv_bind H; [|discriminate H]. injection Hm as <- <- <-.
    unfold find_transits_with in H.
    apply not_logged_app; [not_logged|].
    inv_bind H.
    + injection H as <- <- <-. apply find_transits_logs in Hm.
      apply not_logged_app; [exact Hm | not_logged].
    + apply find_transits_logs in H. exact H.
  - intros [= <- <- <-]. not_logged.
Qed.

Lemma run_vetting_logs f v kw (s : obj) r s' (evs : list ev) :
  run_vetting col f v kw s = (r, s', evs) -> "Pipeline complete" ∉ logs evs.
Proof.
  unfold run_vetting. destruct (v && f).
  - intros H. inv_bind H; [|discriminate H]. injection Hm as <- <- <-.
    apply not_logged_app; [not_logged|].
    inv_bind H; [|discriminate H]. injection Hm as <- <- <-.
    apply not_logged_app; [not_logged|].
    inv_bind H.
    2:{ apply prepare_vet_kwargs_logs in H. exact H. }
    apply prepare_vet_kwargs_logs in Hm.
    apply not_logged_app; [exact Hm|]. clear Hm.
    unfold vet_candidates_with in H.
    inv_bind H.
    + injection H as <- <- <-. apply vet_candidates_logs in Hm.
      apply not_logged_app; [exact Hm | not_logged].
    + apply vet_candidates_logs in H. exact H.
  - intros [= <- <- <-]. not_logged.
Qed.

Lemma run_injection_logs i kw (s : obj) r s' (evs : list ev) :
  run_injection col i kw s = (r, s', evs) -> "Pipeline complete" ∉ logs evs.
Proof.
  unfold run_injection. destruct i.
  - intros H. inv_bind H; [|discriminate H]. injection Hm as <- <- <-.
    apply not_logged_app; [not_logged|].
    destruct (transit_injector s) as [models|].
    + inv_bind H; [|discriminate H]. injection Hm as <- <- <-.
      apply not_logged_app; [not_logged|].
      unfold run_injection_retrieval_with in H.
      inv_bind H.
      * injection H as <- <- <-. apply run_injection_retrieval_logs in Hm.
        apply not_logged_app; [exact Hm | not_logged].
      * apply run_injection_retrieval_logs in H. exact H.
    + injection H as <- <- <-. unfold skip_warning. not_logged.
  - intros [= <- <- <-]. not_logged.
Qed.

(** X18: every call of [run] logs [Starting mono-cbp pipeline] and then
    [Step 1: Eclipse masking] before anything else; [Pipeline complete] is
    logged exactly when the call returns, and it is then the last
    record. *)
Theorem run_log_protocol f v i kw (s : obj) :
  let r := fst (fst (run col f v i kw s)) in
  let evs := snd (run col f v i kw s) in
  (exists rest,
      logs evs = "Starting mono-cbp pipeline" :: "Step 1: Eclipse masking" :: rest)
  /\ (returned r <-> "Pipeline complete" ∈ logs evs)
  /\ (returned r -> last (logs evs) = Some "Pipeline complete").
Proof.
  cbv zeta.
  destruct (run col f v i kw s) as [[r s'] evs] eqn:H. cbn [fst snd].
  unfold run in H.
  inv_bind H; [|discriminate H]. injection Hm as <- <- <-.
  inv_bind H; [|discriminate H]. injection Hm as <- <- <-.
  split; [rewrite !logs_app; eexists; reflexivity|].
  assert (Hfail : forall (rest : list ev) e,
            "Pipeline complete" ∉ logs rest ->
            (returned (Raises e : outcome (gmap string Table)) <->
             "Pipeline complete"
             ∈ logs ([Log INFO "Starting mono-cbp pipeline"]
                     ++ [Log INFO "Step 1: Eclipse masking"] ++ rest))
            /\ (returned (Raises e : outcome (gmap string Table)) ->
                last (logs ([Log INFO "Starting mono-cbp pipeline"]
                            ++ [Log INFO "Step 1: Eclipse masking"] ++ rest))
                = Some "Pipeline complete")).
  { intros rest e Hrest. split; [|intros []]. split; [intros []|].
    intros Hin. exfalso. revert Hin.
    apply not_logged_app; [not_logged|]. apply not_logged_app; [not_logged|].
    exact Hrest. }
  inv_bind H.
  2:{ apply mask_eclipses_logs in H. apply Hfail. exact H. }
  apply mask_eclipses_logs in Hm. rename Hm into L1.
  inv_bind H.
  2:{ apply run_transit_finding_logs in H. apply Hfail.
      apply not_logged_app; assumption. }
  apply run_transit_finding_logs in Hm. rename Hm into L2.
  inv_bind H.
  2:{ apply run_vetting_logs in H. apply Hfail.
      repeat (apply not_logged_app; [assumption|]). exact H. }
  apply run_vetting_logs in Hm. rename Hm into L3.
  inv_bind H.
  2:{ apply run_injection_logs in H. apply Hfail.
      repeat (apply not_logged_app; [assumption|]). exact H. }
  apply run_injection_logs in Hm. rename Hm into L4.
  inv_bind H; [|discriminate H]. injection Hm as <- <- <-.
  inv_bind H; [|discriminate H]. injection Hm as <- <- <-.
  injection H as <- <- <-.
  rewrite !logs_app.
  change (logs [Log INFO "Pipeline complete"] ++ logs [] ++ logs [])
    with ["Pipeline complete"].
  split.
  - split; [intros _|intros _; exact I].
    rewrite !elem_of_app. do 6 right. left.
  - intros _. rewrite !app_assoc. apply last_snoc.
Qed.

End PipelineFacts.

(** ** The concrete instance: counterexamples and witnesses *)

Section OnSample.

Import Sample.

Abbreviation sample := sample_collaborators.

Lemma after_full_run_reachable l : reachable sample (after_full_run l).
Proof. unfold after_full_run. apply reachable_exec, reachable_init. Qed.

Example full_run_events :
  let '(r, s', evs) := sample_run true true true no_run_kwargs (fresh [3; 4]%nat) in
  returned r
  /\ stages evs = [Masking; TransitSearch; Vetting]
  /\ stores evs = ["transit_finding"; "vetting"]
  /\ vet_sources evs = [InMemory [3; 4]%nat]
  /\ results s' !! "vetting" = Some [3; 4]%nat
  /\ results s' !! "injection_retrieval" = None.
Proof. vm_compute. repeat apply conj; reflexivity || exact I. Qed.

Example failed_search_ends_the_run :
  let '(r, s', evs) :=
    sample_run true true false no_run_kwargs
      (init "./data" "./results" None 10
         {| detectable := []; in_memory := None; fail_search := true |}) in
  r = Raises (External "FileNotFoundError")
  /\ stages evs = [Masking; TransitSearch]
  /\ stores evs = []
  /\ raised evs = [External "FileNotFoundError"].
Proof. vm_compute. repeat apply conj; reflexivity. Qed.

(** C1 as stated fails on an instance that has run before: after a full
    run, [run(find_transits=False, vet_candidates=True)] returns a registry
    that still holds the earlier [vetting] entry. *)
Lemma vetting_key_outlives_skipped_vetting :
  ~ (forall (s : pipeline sworld (list nat)) i kw r s' evs reg,
       reachable sample s ->
       run sample false true i kw s = (r, s', evs) ->
       r = Returns reg ->
       reg !! "vetting" = None).
Proof.
  intros H.
  pose (s := after_full_run [3; 4]%nat).
  pose (X := run sample false true false no_run_kwargs s).
  assert (Hc : results s !! "vetting" = None).
  { apply (H s false no_run_kwargs (fst (fst X)) (snd (fst X)) (snd X) (results s)
             (after_full_run_reachable _)).
    - vm_compute. reflexivity.
    - vm_compute. reflexivity. }
  vm_compute in Hc. discriminate Hc.
Qed.

Lemma run_stage_gating_witness :
  (exists rest,
      stages (snd (sample_run false true false no_run_kwargs (fresh [3; 4]%nat)))
      = Masking :: rest)
  /\ (Vetting ∉ stages (snd (sample_run false true false no_run_kwargs (fresh [3; 4]%nat))))
  /\ (let s' := snd (fst (sample_run false true false no_run_kwargs (fresh [3; 4]%nat)))
      in results s' !! "vetting" = None)
  /\ (let s' := snd (fst (sample_run true true false no_run_kwargs (fresh [3; 4]%nat)))
      in is_Some (results s' !! "vetting")).
Proof.
  pose proof (run_stage_gating sample false true false no_run_kwargs
                (fresh [3; 4]%nat) _ _ _ eq_refl) as H.
  pose proof (run_stage_gating sample true true false no_run_kwargs
                (fresh [3; 4]%nat) _ _ _ eq_refl) as H2.
  split; [exact (proj1 H)|].
  destruct H as (_ & _ & _ & _ & _ & _ & Hskip & _).
  destruct (Hskip eq_refl) as (Hno & _ & Hkeep & _).
  split; [exact Hno|]. split; [exact Hkeep|].
  destruct H2 as (_ & _ & _ & _ & _ & _ & _ & Hreg & _).
  destruct (Hreg _ eq_refl) as (Heq & w1 & _ & Hf).
  destruct (Hf eq_refl) as (t1 & w2 & _ & _ & Hv).
  destruct (Hv eq_refl) as (t2 & w3 & _ & Hl).
  exists t2. exact Hl.
Defined.

Lemma missing_injector_witness :
  fst (fst (run_injection_retrieval sample None "injection_results.csv" None (fresh [])))
  = Raises (ValueError "Transit injector not initialized - provide transit_models_path")
  /\ returned (fst (fst (sample_run true true true no_run_kwargs (fresh [3; 4]%nat)))).
Proof.
  pose proof (missing_injector_hard_error_soft_skip sample (fresh [])
                (reachable_init sample _ _ _ _ _) eq_refl) as [H1 _].
  pose proof (missing_injector_hard_error_soft_skip sample (fresh [3; 4]%nat)
                (reachable_init sample _ _ _ _ _) eq_refl) as [_ H2].
  split.
  - rewrite H1. reflexivity.
  - specialize (H2 true true no_run_kwargs _ _ _ eq_refl).
    destruct H2 as (_ & Hret & _). apply Hret.
    intros e He. vm_compute in He.
    repeat (apply elem_of_cons in He; destruct He as [He|He]; [discriminate He|]).
    apply elem_of_nil in He. exact He.
Defined.


(** The same in a whole call: [run(vet_candidates_kwargs={'event_snippets':
    None})] on a fresh instance whose search detects two events. *)
Example explicit_none_full_run :
  let '(r, s', evs) :=
    sample_run true true false (vet_kwargs_with None) (fresh [3; 4]%nat) in
  returned r
  /\ finder_event_snippets sample (world s') = Some [3; 4]%nat
  /\ vet_sources evs = [FromDirectory "./results/event_snippets"]
  /\ Log INFO "Vetting candidates from ./results/event_snippets" ∈ evs.
Proof.
  vm_compute. repeat apply conj; try reflexivity; try exact I.
  repeat constructor.
Qed.



(** The same in a whole call: the search detects nothing, the caller
    supplied one snippet; [run] logs the file-based message and vets the
    caller's list in memory. *)
Example caller_list_full_run :
  let '(r, s', evs) :=
    sample_run true true false (vet_kwargs_with (Some [7%nat])) (fresh []) in
  returned r
  /\ finder_event_snippets sample (world s') = Some []
  /\ vet_sources evs = [InMemory [7%nat]]
  /\ Log INFO "No event snippets in memory, using file-based processing" ∈ evs.
Proof.
  vm_compute. repeat apply conj; try reflexivity; try exact I.
  repeat constructor.
Qed.

Example registry_accumulates :
  let s1 := fst (exec sample (OpRun true true false no_run_kwargs) (fresh_with_models [3; 4]%nat)) in
  let s2 := fst (exec sample (OpRun false false true no_run_kwargs) s1) in
  results s1 !! "injection_retrieval" = None
  /\ results s2 !! "injection_retrieval" = Some [10%nat]
  /\ results s2 !! "transit_finding" = Some [3; 4]%nat
  /\ results s2 !! "vetting" = Some [3; 4]%nat.
Proof. vm_compute. repeat apply conj; reflexivity. Qed.


Lemma default_run_registers_collaborator_tables_witness :
  exists t1 t2,
    results (snd (fst (sample_run true true false no_run_kwargs (fresh [3; 4]%nat))))
    = <["vetting" := t2]> (<["transit_finding" := t1]> ∅).
Proof.
  destruct (default_run_registers_collaborator_tables sample no_run_kwargs
              (fresh [3; 4]%nat) _ _ _ eq_refl I)
    as (w1 & t1 & w2 & t2 & w3 & _ & _ & _ & _ & Hres & _).
  exists t1, t2. exact Hres.
Defined.

End OnSample.

(** ** plot_events *)

Section PlotFacts.

Context {Snip : Type} (snippet_tic : Snip -> Z).

Lemma indices_from_where (i : nat) (tics : list string) (s : string) :
  Plot.indices_from i tics s
  = np_where_from i (map (fun t => bool_decide (t = s)) tics).
Proof.
  revert i. induction tics as [|t tics IH]; intros i; simpl; [reflexivity|].
  rewrite IH. reflexivity.
Qed.

Lemma indices_from_elem (tics : list string) (s : string) (j : nat) :
  j ∈ Plot.indices_from 0 tics s <-> tics !! j = Some s.
Proof.
  rewrite indices_from_where, np_where_from_lookup, list_lookup_fmap.
  replace (j - 0)%nat with j by lia.
  destruct (tics !! j) as [t|]; simpl; split.
  - intros [_ [= H]]. apply bool_decide_eq_true in H. congruence.
  - intros [= ->]. split; [lia|]. rewrite bool_decide_eq_true_2; reflexivity.
  - intros [_ H]. discriminate H.
  - discriminate.
Qed.


Lemma indices_from_nth (i : nat) (tics : list string) (s : string) (k idx : nat) :
  Plot.indices_from i tics s !! k = Some idx ->
  (i <= idx)%nat
  /\ tics !! (idx - i)%nat = Some s
  /\ length (filter (fun t => t = s) (take (idx - i) tics)) = k.
Proof.
  revert i k. induction tics as [|t tics IH]; intros i k; simpl; [discriminate|].
  assert (Hrest : forall k', Plot.indices_from (S i) tics s !! k' = Some idx ->
            (i <= idx)%nat /\ (t :: tics) !! (idx - i)%nat = Some s
            /\ length (filter (fun t => t = s) (take (idx - i) (t :: tics)))
               = ((if decide (t = s) then 1 else 0) + k')%nat).
  { intros k' H. apply IH in H. destruct H as (Hle & Hl & Hc).
    replace (idx - i)%nat with (S (idx - S i)) by lia. simpl.
    split; [lia|]. split; [exact Hl|].
    rewrite filter_cons. destruct (decide (t = s)); simpl; rewrite Hc; reflexivity. }
  destruct (decide (t = s)) as [->|Hne].
  - rewrite bool_decide_eq_true_2 by reflexivity.
    destruct k as [|k]; simpl.
    + intros [= ->]. replace (idx - idx)%nat with 0%nat by lia. simpl.
      repeat split; reflexivity || lia.
    + intros H. exact (Hrest k H).
  - rewrite bool_decide_eq_false_2 by exact Hne.
    intros H. exact (Hrest k H).
Qed.

Lemma matching_snippets_elem (snippets : list Snip) (tic_id : Z)
    (event_indices : list nat) (idx : nat) (s : Snip) :
  (idx, s) ∈ Plot.matching_snippets snippet_tic snippets tic_id event_indices
  <-> idx ∈ event_indices /\ snippets !! idx = Some s /\ snippet_tic s = tic_id.
Proof.
  unfold Plot.matching_snippets. rewrite list_elem_of_omap. split.
  - intros (j & Hj & H). destruct (snippets !! j) as [s0|] eqn:E; [|discriminate H].
    destruct (decide (snippet_tic s0 = tic_id)) as [Ht|Ht].
    + rewrite bool_decide_eq_true_2 in H by exact Ht. injection H as <- <-. auto.
    + rewrite bool_decide_eq_false_2 in H by exact Ht. discriminate H.
  - intros (Hin & Hl & Ht). exists idx. split; [exact Hin|].
    rewrite Hl, bool_decide_eq_true_2 by exact Ht. reflexivity.
Qed.

Lemma matching_snippets_sorted (snippets : list Snip) (tic_id : Z)
    (event_indices : list nat) :
  StronglySorted lt event_indices ->
  StronglySorted lt
    (map fst (Plot.matching_snippets snippet_tic snippets tic_id event_indices)).
Proof.
  induction 1 as [|i l Hs IH Hall]; simpl; [constructor|].
  destruct (snippets !! i) as [s|]; [|exact IH].
  destruct (bool_decide (snippet_tic s = tic_id)); [|exact IH].
  simpl. constructor; [exact IH|].
  apply Forall_forall. intros j Hj. apply list_elem_of_fmap in Hj.
  destruct Hj as ([j' s'] & -> & Hin). simpl.
  apply matching_snippets_elem in Hin. destruct Hin as (Hin & _).
  rewrite Forall_forall in Hall. exact (Hall _ Hin).
Qed.

Lemma draw_panels (res : Plot.finder_results Snip) (tic_id : Z)
    (event_number : option Z) (save_fig : bool) (save_path : string)
    (event_indices : list nat) panels saved :
  Plot.draw snippet_tic res tic_id event_number save_fig save_path event_indices
  = Plot.Draws panels saved ->
  panels <> []
  /\ map Plot.event_idx panels
     = map fst (Plot.matching_snippets snippet_tic (Plot.event_snippets res) tic_id
                  event_indices)
  /\ Forall (fun p =>
               Plot.event_idx p ∈ event_indices
               /\ Plot.event_snippets res !! Plot.event_idx p = Some (Plot.snippet p)
               /\ snippet_tic (Plot.snippet p) = tic_id
               /\ Plot.event_num p
                  = Plot.title_number event_indices event_number (Plot.event_idx p))
            panels
  /\ saved = (if save_fig
              then Some (os_path_join save_path (Plot.figure_file tic_id event_number))
              else None).
Proof.
  unfold Plot.draw.
  set (m := Plot.matching_snippets snippet_tic (Plot.event_snippets res) tic_id
              event_indices).
  destruct (decide (length m = 0%nat)) as [Hz|Hz].
  - rewrite bool_decide_eq_true_2 by exact Hz. discriminate.
  - rewrite bool_decide_eq_false_2 by exact Hz. intros [= <- <-].
    split; [|split; [|split; [|reflexivity]]].
    + destruct m; [contradiction|]. discriminate.
    + rewrite map_map. apply map_ext. intros [idx s]. reflexivity.
    + apply Forall_forall. intros p Hp. apply list_elem_of_fmap in Hp.
      destruct Hp as ([idx s] & -> & Hin). simpl.
      apply matching_snippets_elem in Hin. destruct Hin as (H1 & H2 & H3). auto.
Qed.




(** X20: every panel [plot_events] draws is an event of the requested TIC
    paired with its own snippet: the finder lists the TIC at the panel's
    position, the snippet is the one stored at that position and carries the
    TIC; panels come in the order of the finder's results, at least one is
    drawn, and the figure is saved under
    [<save_path>/TIC_<tic>_all_events.png] or
    [<save_path>/TIC_<tic>_event_<n>.png] exactly when [save_fig] is set.
    With [event_number = n] there is one panel, titled [n], and it shows the
    n-th event of the TIC: exactly [n - 1] events of the TIC precede it. *)
Theorem plot_events_selection
    (res : Plot.finder_results Snip) (tic_id : Z)
    (event_number : option Z) (save_fig : bool) (save_path : string)
    (panels : list (Plot.panel Snip)) (saved : option string) :
  Plot.plot_events snippet_tic (Some res) tic_id event_number save_fig save_path
  = Plot.Draws panels saved ->
  panels <> []
  /\ StronglySorted lt (map Plot.event_idx panels)
  /\ Forall (fun p =>
               Plot.tics res !! Plot.event_idx p = Some (pretty tic_id)
               /\ Plot.event_snippets res !! Plot.event_idx p = Some (Plot.snippet p)
               /\ snippet_tic (Plot.snippet p) = tic_id)
            panels
  /\ saved = (if save_fig
              then Some (os_path_join save_path (Plot.figure_file tic_id event_number))
              else None)
  /\ (forall n, event_number = Some n ->
        exists p, panels = [p] /\ Plot.event_num p = n
                  /\ Z.of_nat (length (filter (fun t => t = pretty tic_id)
                                         (take (Plot.event_idx p) (Plot.tics res))))
                     = n - 1).
Proof.
  unfold Plot.plot_events.
  destruct (bool_decide (length (Plot.tics res) = 0%nat)); [discriminate|].
  destruct (bool_decide (length (Plot.indices_from 0 (Plot.tics res) (pretty tic_id))
                         = 0%nat)); [discriminate|].
  pose proof (np_where_from_sorted 0
                (map (fun t => bool_decide (t = pretty tic_id)) (Plot.tics res))) as Hsorted.
  rewrite <- indices_from_where in Hsorted.
  destruct event_number as [n|].
  - destruct (Z.ltb_spec n 1) as [H1|H1]; simpl; [discriminate|].
    destruct (Z.ltb_spec
                (Z.of_nat (length (Plot.indices_from 0 (Plot.tics res) (pretty tic_id)))) n)
      as [H2|H2]; [discriminate|].
    destruct (Plot.indices_from 0 (Plot.tics res) (pretty tic_id) !! Z.to_nat (n - 1))
      as [idx|] eqn:Eidx; [|discriminate].
    intros H. apply draw_panels in H. destruct H as (Hne & Hidx & Hall & Hsaved).
    assert (Hin : idx ∈ Plot.indices_from 0 (Plot.tics res) (pretty tic_id)).
    { apply list_elem_of_lookup. eauto. }
    apply indices_from_nth in Eidx. destruct Eidx as (_ & _ & Hcount).
    replace (idx - 0)%nat with idx in Hcount by lia.
    assert (Hone : forall p, p ∈ panels -> Plot.event_idx p = idx).
    { intros p Hp. rewrite Forall_forall in Hall. destruct (Hall p Hp) as (Hp1 & _).
      apply list_elem_of_singleton in Hp1. exact Hp1. }
    split; [exact Hne|]. split.
    { rewrite Hidx. apply matching_snippets_sorted. repeat constructor. }
    split.
    { eapply Forall_impl; [exact Hall|]. simpl. intros p (Hp1 & Hp2 & Hp3 & _).
      apply list_elem_of_singleton in Hp1. rewrite Hp1.
      split; [apply indices_from_elem; exact Hin | rewrite <- Hp1; auto]. }
    split; [exact Hsaved|].
    intros n' [= <-].
    assert (Hlen : length panels = 1%nat).
    { rewrite <- (length_map Plot.event_idx), Hidx, length_map.
      unfold Plot.matching_snippets. simpl.
      destruct (Plot.event_snippets res !! idx) as [s|] eqn:Es.
      - destruct (bool_decide _) eqn:Eb; [reflexivity|].
        exfalso. apply Hne. apply (f_equal length) in Hidx.
        rewrite !length_map in Hidx. unfold Plot.matching_snippets in Hidx.
        simpl in Hidx. rewrite Es, Eb in Hidx. destruct panels; [reflexivity|discriminate].
      - exfalso. apply Hne. apply (f_equal length) in Hidx.
        rewrite !length_map in Hidx. unfold Plot.matching_snippets in Hidx.
        simpl in Hidx. rewrite Es in Hidx. destruct panels; [reflexivity|discriminate]. }
    destruct panels as [|p [|q panels]]; try discriminate Hlen.
    exists p. split; [reflexivity|].
    rewrite Forall_forall in Hall.
    destruct (Hall p ltac:(left)) as (_ & _ & _ & Hnum).
    split; [exact Hnum|].
    rewrite (Hone p ltac:(left)), Hcount. lia.
  - intros H. apply draw_panels in H. destruct H as (Hne & Hidx & Hall & Hsaved).
    split; [exact Hne|]. split.
    { rewrite Hidx. apply matching_snippets_sorted. exact Hsorted. }
    split.
    { eapply Forall_impl; [exact Hall|]. simpl. intros p (Hp1 & Hp2 & Hp3 & _).
      split; [apply indices_from_elem; exact Hp1 | auto]. }
    split; [exact Hsaved|]. discriminate.
Qed.

Lemma filter_length_le_all (s : string) (l : list string) :
  (length (filter (fun t => t = s) l) <= length l)%nat.
Proof.
  induction l as [|t l IH]; simpl; [lia|].
  rewrite filter_cons. destruct (decide (t = s)); simpl; lia.
Qed.

Lemma filter_none (s : string) (l : list string) :
  (forall j, l !! j <> Some s) -> filter (fun t => t = s) l = [].
Proof.
  induction l as [|t l IH]; intros H; [reflexivity|].
  rewrite filter_cons. destruct (decide (t = s)) as [->|Hne].
  - exfalso. exact (H 0%nat eq_refl).
  - apply IH. intros j. exact (H (S j)).
Qed.

Lemma filter_all (s : string) (l : list string) :
  Forall (fun t => t = s) l -> length (filter (fun t => t = s) l) = length l.
Proof.
  induction 1 as [|t l Ht _ IH]; [reflexivity|].
  rewrite filter_cons. destruct (decide (t = s)); [|contradiction].
  simpl. rewrite IH. reflexivity.
Qed.

(** X21: when all events of a TIC are plotted ([event_number=None]) the
    number in a panel title is the distance of the event from the first
    event of the TIC in the finder's results, plus one.  It is never below
    the event's rank among the events of the TIC, and it is that rank when
    the results between the first event of the TIC and this one all belong
    to the TIC; events of other TICs in between push the number up. *)
Theorem plot_events_title_numbers
    (res : Plot.finder_results Snip) (tic_id : Z) (save_fig : bool)
    (save_path : string) (panels : list (Plot.panel Snip)) (saved : option string) :
  Plot.plot_events snippet_tic (Some res) tic_id None save_fig save_path
  = Plot.Draws panels saved ->
  exists first : nat,
    Plot.tics res !! first = Some (pretty tic_id)
    /\ (forall j, (j < first)%nat -> Plot.tics res !! j <> Some (pretty tic_id))
    /\ Forall (fun p =>
         let rank := Z.of_nat (length (filter (fun t => t = pretty tic_id)
                                         (take (Plot.event_idx p) (Plot.tics res)))) + 1 in
         Plot.event_num p = Z.of_nat (Plot.event_idx p) - Z.of_nat first + 1
         /\ rank <= Plot.event_num p
         /\ ((forall j, (first <= j < Plot.event_idx p)%nat ->
                Plot.tics res !! j = Some (pretty tic_id)) ->
             Plot.event_num p = rank))
       panels.
Proof.
  unfold Plot.plot_events.
  destruct (bool_decide (length (Plot.tics res) = 0%nat)); [discriminate|].
  set (s := pretty tic_id).
  set (idxs := Plot.indices_from 0 (Plot.tics res) s).
  destruct (decide (length idxs = 0%nat)) as [Hz|Hz].
  { rewrite bool_decide_eq_true_2 by exact Hz. discriminate. }
  rewrite bool_decide_eq_false_2 by exact Hz.
  intros H. apply draw_panels in H. destruct H as (Hne & Hidx & Hall & Hsaved).
  destruct idxs as [|first rest] eqn:Eidxs; [contradiction Hz; reflexivity|].
  assert (Hsorted : StronglySorted lt (first :: rest)).
  { rewrite <- Eidxs. unfold idxs. rewrite indices_from_where.
    apply np_where_from_sorted. }
  assert (Hfirst : Plot.tics res !! first = Some s).
  { apply indices_from_elem. fold idxs. rewrite Eidxs. left. }
  assert (Hbefore : forall j, (j < first)%nat -> Plot.tics res !! j <> Some s).
  { intros j Hj Hl. apply indices_from_elem in Hl. fold idxs in Hl. rewrite Eidxs in Hl.
    apply elem_of_cons in Hl. destruct Hl as [-> | Hl]; [lia|].
    apply StronglySorted_inv in Hsorted. destruct Hsorted as [_ Hall'].
    rewrite Forall_forall in Hall'. specialize (Hall' _ Hl). lia. }
  exists first. split; [exact Hfirst|]. split; [exact Hbefore|].
  eapply Forall_impl; [exact Hall|]. cbv beta zeta.
  intros p (Hin & _ & _ & Hnum).
  unfold Plot.title_number in Hnum. simpl in Hnum.
  assert (Hge : (first <= Plot.event_idx p)%nat).
  { apply elem_of_cons in Hin. destruct Hin as [-> | Hin]; [lia|].
    apply StronglySorted_inv in Hsorted. destruct Hsorted as [_ Hall'].
    rewrite Forall_forall in Hall'. specialize (Hall' _ Hin). lia. }
  assert (Hsplit : take (Plot.event_idx p) (Plot.tics res)
                   = take first (Plot.tics res)
                     ++ take (Plot.event_idx p - first) (drop first (Plot.tics res))).
  { rewrite <- (take_drop first (Plot.tics res)) at 1.
    rewrite take_app_ge; rewrite length_take; [|lia].
    assert (Hlen : (first < length (Plot.tics res))%nat)
      by (apply lookup_lt_Some in Hfirst; exact Hfirst).
    replace (first `min` length (Plot.tics res))%nat with first by lia.
    reflexivity. }
  assert (Hpre : filter (fun t => t = s) (take first (Plot.tics res)) = []).
  { apply filter_none. intros j Hl.
    apply lookup_take_Some in Hl. destruct Hl as [Hl Hj].
    exact (Hbefore j Hj Hl). }
  split; [exact Hnum|].
  rewrite Hsplit, filter_app, Hpre. simpl.
  split.
  - pose proof (filter_length_le_all s
                  (take (Plot.event_idx p - first) (drop first (Plot.tics res)))) as Hle.
    rewrite length_take in Hle. rewrite Hnum. lia.
  - intros Hcontig. rewrite filter_all.
    + rewrite length_take, length_drop.
      assert (Hlen : (Plot.event_idx p < length (Plot.tics res))%nat).
      { apply elem_of_cons in Hin. fold idxs in Eidxs.
        assert (Hin' : Plot.event_idx p ∈ idxs).
        { rewrite Eidxs. apply elem_of_cons. exact Hin. }
        apply indices_from_elem in Hin'. apply lookup_lt_Some in Hin'. exact Hin'. }
      rewrite Hnum. lia.
    + apply Forall_forall. intros t Ht. apply list_elem_of_lookup in Ht.
      destruct Ht as [j Hj]. apply lookup_take_Some in Hj. destruct Hj as [Hj Hlt].
      rewrite lookup_drop in Hj.
      specialize (Hcontig (first + j)%nat ltac:(lia)). congruence.
Qed.

End PlotFacts.

(** The events of TIC 7 sit at positions 0 and 2 of the finder's results,
    with an event of TIC 8 in between: the second event of TIC 7 is titled
    3, and asking for event 3 is out of range. *)
Example plot_events_interleaved :
  let res := {| Plot.tics := ["7"; "8"; "7"]; Plot.event_snippets := [7; 8; 7] |} in
  Plot.plot_events (fun tic => tic) (Some res) 7 None true "."
  = Plot.Draws [Plot.Build_panel 0 7 1; Plot.Build_panel 2 7 3]
               (Some "./TIC_7_all_events.png")
  /\ Plot.plot_events (fun tic => tic) (Some res) 7 (Some 2) false "."
     = Plot.Draws [Plot.Build_panel 2 7 2] None
  /\ Plot.plot_events (fun tic => tic) (Some res) 7 (Some 3) false "."
     = Plot.Raised (Plot.ValueError "Event number 3 out of range. TIC 7 has 2 event(s).")
  /\ Plot.plot_events (fun tic => tic) (Some res) 9 None false "."
     = Plot.Raised (Plot.ValueError "No events found for TIC 9").
Proof. repeat split; reflexivity. Qed.

Lemma plot_events_selection_witness :
  exists p,
    [Plot.Build_panel 2%nat 7 2] = [p] /\ Plot.event_num p = 2
    /\ Z.of_nat (length (filter (fun t => t = pretty 7)
                           (take (Plot.event_idx p) ["7"; "8"; "7"])))
       = 2 - 1.
Proof.
  exact (proj2 (proj2 (proj2 (proj2
           (plot_events_selection (fun tic : Z => tic)
              {| Plot.tics := ["7"; "8"; "7"]; Plot.event_snippets := [7; 8; 7] |}
              7 (Some 2) false "." [Plot.Build_panel 2%nat 7 2] None eq_refl))))
           2 eq_refl).
Defined.

Lemma plot_events_title_numbers_witness :
  exists first : nat,
    ["7"; "8"; "7"] !! first = Some (pretty 7)
    /\ (forall j, (j < first)%nat -> ["7"; "8"; "7"] !! j <> Some (pretty 7))
    /\ Forall (fun p =>
         let rank := Z.of_nat (length (filter (fun t => t = pretty 7)
                                         (take (Plot.event_idx p) ["7"; "8"; "7"]))) + 1 in
         Plot.event_num p = Z.of_nat (Plot.event_idx p) - Z.of_nat first + 1
         /\ rank <= Plot.event_num p
         /\ ((forall j, (first <= j < Plot.event_idx p)%nat ->
                ["7"; "8"; "7"] !! j = Some (pretty 7)) ->
             Plot.event_num p = rank))
       [Plot.Build_panel 0%nat 7 1; Plot.Build_panel 2%nat 7 3].
Proof.
  exact (plot_events_title_numbers (fun tic : Z => tic)
           {| Plot.tics := ["7"; "8"; "7"]; Plot.event_snippets := [7; 8; 7] |}
           7 false "." [Plot.Build_panel 0%nat 7 1; Plot.Build_panel 2%nat 7 3] None
           eq_refl).
Defined.

(** ** cli.py *)

(** X22: the configuration the [find-transits] command builds has at most
    the key [transit_finding], present when a threshold or a method is
    given; under it [mad_threshold] is the threshold and
    [detrending_method] the method, and nothing else.  A threshold of zero
    counts as not given ([--threshold 0] is dropped), while a [nan]
    threshold is kept. *)
Theorem find_transits_config_entries (threshold : option float) (method : option string) :
  let config := Cli.find_transits_config threshold method in
  let inner := default ∅ (config !! "transit_finding") in
  (forall k, k <> "transit_finding" -> config !! k = None)
  /\ (config !! "transit_finding" = None <->
      Cli.threshold_given threshold = None /\ truthy method = None)
  /\ inner !! "mad_threshold" = Cli.Float <$> Cli.threshold_given threshold
  /\ inner !! "detrending_method" = Cli.Str <$> truthy method
  /\ (forall k, k <> "mad_threshold" -> k <> "detrending_method" -> inner !! k = None)
  /\ (forall x, Py.eq x 0 = true ->
        Cli.find_transits_config (Some x) method = Cli.find_transits_config None method)
  /\ Cli.threshold_given (Some PrimFloat.nan) = Some PrimFloat.nan.
Proof.
  cbv zeta. unfold Cli.find_transits_config.
  split; [|split; [|split; [|split; [|split; [|split]]]]].
  - intros k Hk.
    destruct (Cli.threshold_given threshold), (truthy method); simplify_map_eq; reflexivity.
  - destruct (Cli.threshold_given threshold), (truthy method); simplify_map_eq;
      split; try discriminate; try tauto; intros [H1 H2]; discriminate.
  - destruct (Cli.threshold_given threshold), (truthy method); simplify_map_eq; reflexivity.
  - destruct (Cli.threshold_given threshold), (truthy method); simplify_map_eq; reflexivity.
  - intros k H1 H2.
    destruct (Cli.threshold_given threshold), (truthy method); simplify_map_eq; reflexivity.
  - intros x Hx. unfold Cli.threshold_given. rewrite Hx. reflexivity.
  - reflexivity.
Qed.

Section RunCommandFacts.

Context {World Table Snippet MaskKw : Type}.
Context (col : collaborators World Table Snippet MaskKw).
Context (high_confidence : Table -> nat).


End RunCommandFacts.


Example run_command_prints :
  fst (fst (Cli.run_command Sample.sample_collaborators length "./data" "./results" 10 (Sample.finds [3; 4]%nat)))
  = Returns [String "010"%char "Pipeline complete!";
             "  Transit events detected: 2";
             "  High-confidence candidates: 2"].
Proof. vm_compute. reflexivity. Qed.

